(** * figma-tt-typographer: the typography rule engine

    A shallow embedding of the rule engine of the plugin (locale detector,
    protected-range finder, rule registry, orchestrator and the individual
    rules) and of the two functions that find the text nodes of a selection
    and write a text back to its node, together with the properties stated
    about them.

    JavaScript strings are sequences of UTF-16 code units; they are modelled
    as [list Z].  Regular expressions are modelled by a small backtracking
    matcher that follows the ECMAScript matching algorithm (ordered
    alternation, greedy and lazy quantifiers, captures, assertions), and the
    patterns of the source are given as pattern text that is read by a
    parser of the pattern syntax, as [new RegExp] does. *)

From Stdlib Require Import ZArith List String Ascii Bool Lia Sorted.
From stdpp Require Import gmap strings.
Import ListNotations.

Local Open Scope Z_scope.

(** ** JavaScript strings *)

Module JS.

(** A string is the list of its UTF-16 code units. *)
Definition jsstring : Type := list Z.

(** *** Literals

    String literals of the source are written as Rocq string literals; the
    bytes of the literal (UTF-8) are decoded to code points and re-encoded
    as UTF-16. *)

Definition byteZ (a : ascii) : Z := Z.of_N (N_of_ascii a).

Fixpoint bytes (s : string) : list Z :=
  match s with
  | EmptyString => []
  | String a s' => byteZ a :: bytes s'
  end.

Fixpoint utf8_decode (bs : list Z) : list Z :=
  match bs with
  | [] => []
  | b0 :: r0 =>
    if b0 <? 0x80 then b0 :: utf8_decode r0
    else if b0 <? 0xE0 then
      match r0 with
      | b1 :: r1 => ((b0 - 0xC0) * 64 + (b1 - 0x80)) :: utf8_decode r1
      | _ => []
      end
    else if b0 <? 0xF0 then
      match r0 with
      | b1 :: b2 :: r2 =>
        ((b0 - 0xE0) * 4096 + (b1 - 0x80) * 64 + (b2 - 0x80)) :: utf8_decode r2
      | _ => []
      end
    else
      match r0 with
      | b1 :: b2 :: b3 :: r3 =>
        ((b0 - 0xF0) * 262144 + (b1 - 0x80) * 4096 + (b2 - 0x80) * 64 + (b3 - 0x80))
          :: utf8_decode r3
      | _ => []
      end
  end.

Definition utf16 (cp : Z) : list Z :=
  if cp <? 0x10000 then [cp]
  else [0xD800 + (cp - 0x10000) / 0x400; 0xDC00 + (cp - 0x10000) mod 0x400].

Definition js (s : string) : jsstring := flat_map utf16 (utf8_decode (bytes s)).

(** The double quote U+0022, the apostrophe and a few named characters. *)
Definition QUOT : Z := 0x22.
Definition NBSP : jsstring := [0xA0].
Definition NNBSP : jsstring := [0x202F].
Definition THIN : jsstring := [0x2009].
Definition LF : Z := 0x0A.
Definition SPACE : Z := 0x20.

(** *** Character predicates *)

Definition inRange (lo hi c : Z) : bool := (lo <=? c) && (c <=? hi).

(** ECMAScript LineTerminator. *)
Definition isLineTerminator (c : Z) : bool :=
  (c =? 0x0A) || (c =? 0x0D) || (c =? 0x2028) || (c =? 0x2029).

(** ECMAScript WhiteSpace or LineTerminator: what [\s] matches and what
    [trim] strips. *)
Definition isWhiteSpace (c : Z) : bool :=
  inRange 0x09 0x0D c || (c =? 0x20) || (c =? 0xA0) || (c =? 0x1680)
  || inRange 0x2000 0x200A c || (c =? 0x2028) || (c =? 0x2029)
  || (c =? 0x202F) || (c =? 0x205F) || (c =? 0x3000) || (c =? 0xFEFF).

Definition isDigit (c : Z) : bool := inRange 0x30 0x39 c.

(** What [\w] matches. *)
Definition isWordChar (c : Z) : bool :=
  inRange 0x61 0x7A c || inRange 0x41 0x5A c || isDigit c || (c =? 0x5F).

(** *** Case mapping

    [toUpperCase] and [toLowerCase] of single code units, for the scripts
    the plugin handles (Basic Latin, Latin-1, Latin Extended-A, Greek,
    Cyrillic, fullwidth Latin).  Other code units are mapped to
    themselves. *)

Definition toUpper1 (c : Z) : Z :=
  if inRange 0x61 0x7A c then c - 32
  else if c =? 0xB5 then 0x39C
  else if inRange 0xE0 0xFE c && negb (c =? 0xF7) then c - 32
  else if c =? 0xFF then 0x178
  else if (inRange 0x100 0x12F c || inRange 0x132 0x137 c || inRange 0x14A 0x177 c)
          && Z.odd c then c - 1
  else if (inRange 0x139 0x148 c || inRange 0x179 0x17E c) && Z.even c then c - 1
  else if inRange 0x3B1 0x3C1 c || inRange 0x3C3 0x3CB c then c - 32
  else if c =? 0x3C2 then 0x3A3
  else if inRange 0x430 0x44F c then c - 32
  else if inRange 0x450 0x45F c then c - 80
  else if (inRange 0x460 0x481 c || inRange 0x48A 0x4BF c || inRange 0x4D0 0x4FF c)
          && Z.odd c then c - 1
  else if inRange 0x4C1 0x4CE c && Z.even c then c - 1
  else if c =? 0x4CF then 0x4C0
  else if inRange 0xFF41 0xFF5A c then c - 32
  else c.

Definition toLower1 (c : Z) : Z :=
  if inRange 0x41 0x5A c then c + 32
  else if inRange 0xC0 0xDE c && negb (c =? 0xD7) then c + 32
  else if c =? 0x178 then 0xFF
  else if (inRange 0x100 0x12F c || inRange 0x132 0x137 c || inRange 0x14A 0x177 c)
          && Z.even c && negb (c =? 0x130) then c + 1
  else if (inRange 0x139 0x148 c || inRange 0x179 0x17E c) && Z.odd c then c + 1
  else if inRange 0x391 0x3A1 c || inRange 0x3A3 0x3AB c then c + 32
  else if inRange 0x410 0x42F c then c + 32
  else if inRange 0x400 0x40F c then c + 80
  else if (inRange 0x460 0x481 c || inRange 0x48A 0x4BF c || inRange 0x4D0 0x4FF c)
          && Z.even c then c + 1
  else if inRange 0x4C1 0x4CE c && Z.odd c then c + 1
  else if c =? 0x4C0 then 0x4CF
  else if inRange 0xFF21 0xFF3A c then c + 32
  else c.

Definition toUpperCase (s : jsstring) : jsstring := map toUpper1 s.
Definition toLowerCase (s : jsstring) : jsstring := map toLower1 s.

(** *** String methods *)

Fixpoint eqs (a b : jsstring) : bool :=
  match a, b with
  | [], [] => true
  | x :: a', y :: b' => (x =? y) && eqs a' b'
  | _, _ => false
  end.

(** [s.length], [s[i]] (with [None] for [undefined]), [s.slice(n)]. *)
Definition len (s : jsstring) : Z := Z.of_nat (length s).

Definition at_ (s : jsstring) (i : Z) : option Z :=
  if i <? 0 then None else nth_error s (Z.to_nat i).

Definition slice (s : jsstring) (n : Z) : jsstring := skipn (Z.to_nat n) s.

(** [s.trimStart()], [s.trimEnd()], [s.trim()]. *)
Fixpoint trimStart (s : jsstring) : jsstring :=
  match s with
  | c :: s' => if isWhiteSpace c then trimStart s' else s
  | [] => []
  end.

Fixpoint trimEnd (s : jsstring) : jsstring :=
  match s with
  | [] => []
  | c :: s' =>
    match trimEnd s' with
    | [] => if isWhiteSpace c then [] else [c]
    | t => c :: t
    end
  end.

Definition trim (s : jsstring) : jsstring := trimStart (trimEnd s).

(** [s.split(sep)] for a separator of one code unit, and [a.join(sep)]. *)
Fixpoint split (sep : Z) (s : jsstring) : list jsstring :=
  match s with
  | [] => [[]]
  | c :: s' =>
    if c =? sep then [] :: split sep s'
    else match split sep s' with
         | t :: ts => (c :: t) :: ts
         | [] => [[c]]
         end
  end.

Fixpoint join (sep : jsstring) (l : list jsstring) : jsstring :=
  match l with
  | [] => []
  | [t] => t
  | t :: ts => t ++ sep ++ join sep ts
  end.

(** [[...s]] and [for (const ch of s)]: the string is cut into code points,
    a surrogate pair forming one element. *)
Definition isHighSurrogate (c : Z) : bool := inRange 0xD800 0xDBFF c.
Definition isLowSurrogate (c : Z) : bool := inRange 0xDC00 0xDFFF c.

Fixpoint spread (s : jsstring) : list jsstring :=
  match s with
  | [] => []
  | c :: s' =>
    match s' with
    | d :: s'' =>
      if isHighSurrogate c && isLowSurrogate d then [c; d] :: spread s''
      else [c] :: spread s'
    | [] => [[c]]
    end
  end.

(** [ch.codePointAt(0)] of an element produced by [spread]. *)
Definition codePointAt0 (ch : jsstring) : Z :=
  match ch with
  | [c] => c
  | c :: d :: _ =>
    if isHighSurrogate c && isLowSurrogate d
    then (c - 0xD800) * 0x400 + (d - 0xDC00) + 0x10000
    else c
  | [] => 0
  end.

(** [s.includes(t)]. *)
Fixpoint isPrefix (t s : jsstring) : bool :=
  match t, s with
  | [], _ => true
  | a :: t', b :: s' => (a =? b) && isPrefix t' s'
  | _ :: _, [] => false
  end.

Fixpoint includes (s t : jsstring) : bool :=
  isPrefix t s || match s with [] => false | _ :: s' => includes s' t end.

End JS.
Import JS.


(** ** Regular expressions

    The patterns of the source use character classes, groups with captures,
    back-references, greedy and lazy quantifiers, alternation, the
    assertions [^], [$] and [\b], and lookahead and lookbehind.  The matcher
    below is the backtracking matcher of the ECMAScript specification in
    continuation-passing style: [m r st k] matches [r] at state [st] and
    calls [k] on every way to do so, in the order the specification
    prescribes, until [k] succeeds. *)

Module Regex.

Inductive citem : Type :=
| CRange (lo hi : Z)
| CDigit (neg : bool)
| CWord (neg : bool)
| CSpace (neg : bool).

Inductive regex : Type :=
| Empty
| Chr (c : Z)
| Any
| Cls (neg : bool) (items : list citem)
| Seq (r1 r2 : regex)
| Alt (r1 r2 : regex)
| Rep (min : nat) (max : option nat) (greedy : bool) (r : regex)
| Grp (n : nat) (r : regex)
| Bref (n : nat)
| Bol
| Eol
| WordB (neg : bool)
| Look (ahead neg : bool) (r : regex).

Record flags : Type := Flags { global : bool; ignoreCase : bool; multiline : bool }.

Record regexp : Type := RegExpOf { re_ast : regex; re_flags : flags }.

(** The state of a match: the text before the current position (nearest
    code unit first), the text after it, and the captures made so far. *)
Record mstate : Type := MState {
  bef : list Z;
  aft : list Z;
  caps : list (nat * jsstring)
}.

Definition pos (st : mstate) : nat := length (bef st).

Fixpoint getCap (n : nat) (cs : list (nat * jsstring)) : option jsstring :=
  match cs with
  | [] => None
  | (i, s) :: cs' => if (i =? n)%nat then Some s else getCap n cs'
  end.

Definition clearCaps (gs : list nat) (st : mstate) : mstate :=
  match gs with
  | [] => st
  | _ => MState (bef st) (aft st)
           (List.filter (fun p => negb (existsb (Nat.eqb (fst p)) gs)) (caps st))
  end.

Fixpoint groups (r : regex) : list nat :=
  match r with
  | Seq r1 r2 | Alt r1 r2 => groups r1 ++ groups r2
  | Rep _ _ _ r1 | Look _ _ r1 => groups r1
  | Grp n r1 => n :: groups r1
  | _ => []
  end.

(** Canonicalize of the specification (without the [u] flag). *)
Definition canon (ic : bool) (c : Z) : Z :=
  if ic then
    let u := toUpper1 c in
    if (128 <=? c) && (u <? 128) then c else u
  else c.

Definition item_in (it : citem) (c : Z) : bool :=
  match it with
  | CRange lo hi => inRange lo hi c
  | CDigit neg => xorb neg (isDigit c)
  | CWord neg => xorb neg (isWordChar c)
  | CSpace neg => xorb neg (isWhiteSpace c)
  end.

(** With [ignoreCase], a code unit is in a class when some member of the
    class has the same canonical form; the members tried are the code unit
    and its two case variants. *)
Definition item_match (ic : bool) (c : Z) (it : citem) : bool :=
  item_in it c
  || (ic && ((item_in it (toUpper1 c) && (canon ic (toUpper1 c) =? canon ic c))
             || (item_in it (toLower1 c) && (canon ic (toLower1 c) =? canon ic c)))).

Definition cls_match (ic : bool) (neg : bool) (items : list citem) (c : Z) : bool :=
  xorb neg (existsb (item_match ic c) items).

(** Reading one code unit, forward or (inside a lookbehind) backward. *)
Definition next (fwd : bool) (st : mstate) : option (Z * mstate) :=
  if fwd then
    match aft st with
    | x :: a => Some (x, MState (x :: bef st) a (caps st))
    | [] => None
    end
  else
    match bef st with
    | x :: b => Some (x, MState b (x :: aft st) (caps st))
    | [] => None
    end.

Definition room (fwd : bool) (st : mstate) : nat :=
  if fwd then length (aft st) else length (bef st).

Definition captured (fwd : bool) (st st' : mstate) : jsstring :=
  if fwd then firstn (length (aft st) - length (aft st')) (aft st)
  else rev (firstn (length (bef st) - length (bef st')) (bef st)).

Fixpoint matchLit (ic fwd : bool) (s : list Z) (st : mstate) : option mstate :=
  match s with
  | [] => Some st
  | c :: s' =>
    match next fwd st with
    | Some (x, st') => if canon ic x =? canon ic c then matchLit ic fwd s' st' else None
    | None => None
    end
  end.

Definition atBol (ml : bool) (st : mstate) : bool :=
  match bef st with
  | [] => true
  | x :: _ => ml && isLineTerminator x
  end.

Definition atEol (ml : bool) (st : mstate) : bool :=
  match aft st with
  | [] => true
  | x :: _ => ml && isLineTerminator x
  end.

Definition atWordB (st : mstate) : bool :=
  xorb (match bef st with x :: _ => isWordChar x | [] => false end)
       (match aft st with x :: _ => isWordChar x | [] => false end).

Definition reached (mx : option nat) (cnt : nat) : bool :=
  match mx with
  | Some n => (n <=? cnt)%nat
  | None => false
  end.

(** The iterations of a quantified term: [mr] matches the term once, [cnt]
    iterations are done.  The first [mn] iterations are mandatory; a further
    iteration that consumes nothing is rejected; a greedy quantifier tries
    one more iteration before it tries to go on with [k], a lazy one the
    other way round.  Every iteration after the first [mn] consumes a code
    unit, so that [mn] plus the length of the text bound the number of
    iterations; [fuel] starts above that bound. *)
Fixpoint repLoop (mr : mstate -> (mstate -> option mstate) -> option mstate)
    (fwd : bool) (mn : nat) (mx : option nat) (greedy : bool)
    (k : mstate -> option mstate) (fuel cnt : nat) (st : mstate)
    {struct fuel} : option mstate :=
  match fuel with
  | O => None
  | S fuel' =>
    if (cnt <? mn)%nat then
      mr st (fun st' => repLoop mr fwd mn mx greedy k fuel' (S cnt) st')
    else if reached mx cnt then k st
    else if greedy then
      match mr st (fun st' => if (room fwd st' =? room fwd st)%nat then None
                              else repLoop mr fwd mn mx greedy k fuel' (S cnt) st') with
      | Some x => Some x
      | None => k st
      end
    else
      match k st with
      | Some x => Some x
      | None =>
        mr st (fun st' => if (room fwd st' =? room fwd st)%nat then None
                          else repLoop mr fwd mn mx greedy k fuel' (S cnt) st')
      end
  end.

Fixpoint m (fl : flags) (r : regex) (fwd : bool) (st : mstate)
    (k : mstate -> option mstate) {struct r} : option mstate :=
  match r with
  | Empty => k st
  | Chr c =>
    match next fwd st with
    | Some (x, st') =>
      if canon (ignoreCase fl) x =? canon (ignoreCase fl) c then k st' else None
    | None => None
    end
  | Any =>
    match next fwd st with
    | Some (x, st') => if isLineTerminator x then None else k st'
    | None => None
    end
  | Cls neg items =>
    match next fwd st with
    | Some (x, st') => if cls_match (ignoreCase fl) neg items x then k st' else None
    | None => None
    end
  | Seq r1 r2 =>
    if fwd then m fl r1 fwd st (fun st' => m fl r2 fwd st' k)
    else m fl r2 fwd st (fun st' => m fl r1 fwd st' k)
  | Alt r1 r2 =>
    match m fl r1 fwd st k with
    | Some x => Some x
    | None => m fl r2 fwd st k
    end
  | Rep mn mx greedy r1 =>
    repLoop (fun st' k' => m fl r1 fwd (clearCaps (groups r1) st') k')
      fwd mn mx greedy k (S (mn + room fwd st)) 0%nat st
  | Grp n r1 =>
    m fl r1 fwd st
      (fun st' => k (MState (bef st') (aft st') ((n, captured fwd st st') :: caps st')))
  | Bref n =>
    match getCap n (caps st) with
    | Some s =>
      match matchLit (ignoreCase fl) fwd (if fwd then s else rev s) st with
      | Some st' => k st'
      | None => None
      end
    | None => k st
    end
  | Bol => if atBol (multiline fl) st then k st else None
  | Eol => if atEol (multiline fl) st then k st else None
  | WordB neg => if xorb neg (atWordB st) then k st else None
  | Look ahead neg r1 =>
    match m fl r1 ahead st Some with
    | Some st' => if neg then None else k (MState (bef st) (aft st) (caps st'))
    | None => if neg then k st else None
    end
  end.

(** A match attempt at one position of the text. *)
Definition matchAt (re : regexp) (b a : list Z) : option mstate :=
  m (re_flags re) (re_ast re) true (MState b a []) Some.


(** *** Reading a pattern

    [RegExp src flags] is [new RegExp(src, flags)], and also stands for the
    literal [/src/flags].  Groups are numbered by their opening
    parenthesis, from 1.  The pattern text is that of the source, with one
    change of spelling: a double quote in a pattern is written [\x22],
    which denotes the same code unit. *)

Module Parse.

Definition ch (s : string) : Z :=
  match s with
  | String a _ => byteZ a
  | EmptyString => 0
  end.

Fixpoint strip (p s : list Z) : option (list Z) :=
  match p, s with
  | [], _ => Some s
  | a :: p', b :: s' => if a =? b then strip p' s' else None
  | _ :: _, [] => None
  end.

Fixpoint pNat (acc : option nat) (s : list Z) : option nat * list Z :=
  match s with
  | c :: s' =>
    if isDigit c
    then pNat (Some (10 * match acc with Some a => a | None => 0 end
                     + Z.to_nat (c - 48))%nat) s'
    else (acc, s)
  | [] => (acc, s)
  end.

Definition hexVal (c : Z) : option Z :=
  if isDigit c then Some (c - 48)
  else if inRange 97 102 c then Some (c - 87)
  else if inRange 65 70 c then Some (c - 55)
  else None.

Fixpoint pHex (n : nat) (acc : Z) (s : list Z) : option (Z * list Z) :=
  match n with
  | O => Some (acc, s)
  | S n' =>
    match s with
    | c :: s' =>
      match hexVal c with
      | Some v => pHex n' (acc * 16 + v) s'
      | None => None
      end
    | [] => None
    end
  end.

(** The escapes that denote one code unit; [s] starts after the backslash. *)
Definition pCharEscape (s : list Z) : option (Z * list Z) :=
  match s with
  | [] => None
  | c :: s' =>
    if c =? ch "u" then pHex 4 0 s'
    else if c =? ch "x" then pHex 2 0 s'
    else if c =? ch "t" then Some (9, s')
    else if c =? ch "n" then Some (10, s')
    else if c =? ch "v" then Some (11, s')
    else if c =? ch "f" then Some (12, s')
    else if c =? ch "r" then Some (13, s')
    else if c =? ch "0" then Some (0, s')
    else Some (c, s')
  end.

Definition pSetEscape (c : Z) : option citem :=
  if c =? ch "d" then Some (CDigit false)
  else if c =? ch "D" then Some (CDigit true)
  else if c =? ch "w" then Some (CWord false)
  else if c =? ch "W" then Some (CWord true)
  else if c =? ch "s" then Some (CSpace false)
  else if c =? ch "S" then Some (CSpace true)
  else None.

Inductive catom : Type :=
| CAChar (c : Z)
| CASet (it : citem).

Definition pClassAtom (s : list Z) : option (catom * list Z) :=
  match s with
  | [] => None
  | c :: s' =>
    if c =? ch "\" then
      match s' with
      | [] => None
      | e :: s'' =>
        match pSetEscape e with
        | Some it => Some (CASet it, s'')
        | None =>
          if e =? ch "b" then Some (CAChar 8, s'')
          else match pCharEscape s' with
               | Some (x, r) => Some (CAChar x, r)
               | None => None
               end
        end
      end
    else Some (CAChar c, s')
  end.

Definition consItem (it : citem) (r : option (list citem * list Z)) :
    option (list citem * list Z) :=
  match r with
  | Some (its, s) => Some (it :: its, s)
  | None => None
  end.

(** The members of a class, up to and including the closing bracket. *)
Fixpoint pClassItems (fuel : nat) (s : list Z) : option (list citem * list Z) :=
  match fuel with
  | O => None
  | S f =>
    match s with
    | [] => None
    | c :: s' =>
      if c =? ch "]" then Some ([], s')
      else
        match pClassAtom s with
        | None => None
        | Some (CASet it, s1) => consItem it (pClassItems f s1)
        | Some (CAChar lo, s1) =>
          match s1 with
          | d :: e :: s2 =>
            if (d =? ch "-") && negb (e =? ch "]") then
              match pClassAtom (e :: s2) with
              | Some (CAChar hi, s3) => consItem (CRange lo hi) (pClassItems f s3)
              | Some (CASet it, s3) =>
                consItem (CRange lo lo)
                  (consItem (CRange 45 45) (consItem it (pClassItems f s3)))
              | None => None
              end
            else consItem (CRange lo lo) (pClassItems f s1)
          | _ => consItem (CRange lo lo) (pClassItems f s1)
          end
        end
    end
  end.

Definition pClass (s : list Z) : option (regex * list Z) :=
  let '(neg, s1) :=
    match s with
    | c :: s' => if c =? ch "^" then (true, s') else (false, s)
    | [] => (false, s)
    end in
  match pClassItems (S (length s1)) s1 with
  | Some (its, s2) => Some (Cls neg its, s2)
  | None => None
  end.

Definition pQuant (s : list Z) : option (nat * option nat * list Z) :=
  match s with
  | [] => None
  | c :: s' =>
    if c =? ch "*" then Some (0%nat, None, s')
    else if c =? ch "+" then Some (1%nat, None, s')
    else if c =? ch "?" then Some (0%nat, Some 1%nat, s')
    else if c =? ch "{" then
      match pNat None s' with
      | (Some lo, d :: s2) =>
        if d =? ch "}" then Some (lo, Some lo, s2)
        else if d =? ch "," then
          match pNat None s2 with
          | (hi, e :: s3) => if e =? ch "}" then Some (lo, hi, s3) else None
          | _ => None
          end
        else None
      | _ => None
      end
    else None
  end.

Definition withQuant (r : regex) (s : list Z) : regex * list Z :=
  match pQuant s with
  | Some (lo, hi, s1) =>
    match s1 with
    | c :: s2 => if c =? ch "?" then (Rep lo hi false r, s2) else (Rep lo hi true r, s1)
    | [] => (Rep lo hi true r, s1)
    end
  | None => (r, s)
  end.

Definition mkSeq (r1 r2 : regex) : regex :=
  match r2 with
  | Empty => r1
  | _ => Seq r1 r2
  end.

Definition closeParen (k : regex -> regex) (r : option (regex * nat * list Z)) :
    option (regex * nat * list Z) :=
  match r with
  | Some (r1, g1, c :: s1) => if c =? ch ")" then Some (k r1, g1, s1) else None
  | _ => None
  end.

Fixpoint pDisj (fuel : nat) (g : nat) (s : list Z) {struct fuel} :
    option (regex * nat * list Z) :=
  match fuel with
  | O => None
  | S f =>
    match pAlt f g s with
    | Some (r1, g1, s1) =>
      match s1 with
      | c :: s2 =>
        if c =? ch "|" then
          match pDisj f g1 s2 with
          | Some (r2, g2, s3) => Some (Alt r1 r2, g2, s3)
          | None => None
          end
        else Some (r1, g1, s1)
      | [] => Some (r1, g1, s1)
      end
    | None => None
    end
  end
with pAlt (fuel : nat) (g : nat) (s : list Z) {struct fuel} :
    option (regex * nat * list Z) :=
  match fuel with
  | O => None
  | S f =>
    match s with
    | [] => Some (Empty, g, s)
    | c :: _ =>
      if (c =? ch "|") || (c =? ch ")") then Some (Empty, g, s)
      else
        match pTerm f g s with
        | Some (r1, g1, s1) =>
          match pAlt f g1 s1 with
          | Some (r2, g2, s2) => Some (mkSeq r1 r2, g2, s2)
          | None => None
          end
        | None => None
        end
    end
  end
with pTerm (fuel : nat) (g : nat) (s : list Z) {struct fuel} :
    option (regex * nat * list Z) :=
  match fuel with
  | O => None
  | S f =>
    match s with
    | [] => None
    | c :: s' =>
      if c =? ch "^" then Some (Bol, g, s')
      else if c =? ch "$" then Some (Eol, g, s')
      else if c =? ch "." then
        let '(r, s1) := withQuant Any s' in Some (r, g, s1)
      else if c =? ch "[" then
        match pClass s' with
        | Some (r, s1) => let '(r', s2) := withQuant r s1 in Some (r', g, s2)
        | None => None
        end
      else if c =? ch "\" then
        match s' with
        | [] => None
        | e :: s'' =>
          if e =? ch "b" then Some (WordB false, g, s'')
          else if e =? ch "B" then Some (WordB true, g, s'')
          else
            match pSetEscape e with
            | Some it =>
              let '(r, s1) := withQuant (Cls false [it]) s'' in Some (r, g, s1)
            | None =>
              if inRange 49 57 e then
                match pNat None s' with
                | (Some n, s1) => let '(r, s2) := withQuant (Bref n) s1 in Some (r, g, s2)
                | _ => None
                end
              else
                match pCharEscape s' with
                | Some (x, s1) => let '(r, s2) := withQuant (Chr x) s1 in Some (r, g, s2)
                | None => None
                end
            end
        end
      else if c =? ch "(" then
        match strip (js "?=") s' with
        | Some s1 => closeParen (Look true false) (pDisj f g s1)
        | None =>
        match strip (js "?!") s' with
        | Some s1 => closeParen (Look true true) (pDisj f g s1)
        | None =>
        match strip (js "?<=") s' with
        | Some s1 => closeParen (Look false false) (pDisj f g s1)
        | None =>
        match strip (js "?<!") s' with
        | Some s1 => closeParen (Look false true) (pDisj f g s1)
        | None =>
        match strip (js "?:") s' with
        | Some s1 =>
          match closeParen (fun r => r) (pDisj f g s1) with
          | Some (r, g1, s2) => let '(r', s3) := withQuant r s2 in Some (r', g1, s3)
          | None => None
          end
        | None =>
          match closeParen (Grp (S g)) (pDisj f (S g) s') with
          | Some (r, g1, s2) => let '(r', s3) := withQuant r s2 in Some (r', g1, s3)
          | None => None
          end
        end end end end end
      else
        let '(r, s1) := withQuant (Chr c) s' in Some (r, g, s1)
    end
  end.

Definition parse (src : jsstring) : option regex :=
  match pDisj (3 * length src + 3) 0 src with
  | Some (r, _, []) => Some r
  | _ => None
  end.

Fixpoint hasFlag (c : ascii) (s : string) : bool :=
  match s with
  | EmptyString => false
  | String a s' => (if ascii_dec a c then true else false) || hasFlag c s'
  end.

End Parse.

(** A pattern that does not parse makes [new RegExp] throw; it is given
    the pattern that matches nowhere. *)
Definition RegExp (src : jsstring) (fl : string) : regexp :=
  RegExpOf
    (match Parse.parse src with
     | Some r => r
     | None => Cls false []
     end)
    (Flags (Parse.hasFlag "g" fl) (Parse.hasFlag "i" fl) (Parse.hasFlag "m" fl)).


(** *** Searching and replacing *)

(** What a match reports: its offset, the matched text and the captures. *)
Record minfo : Type := MInfo {
  m_offset : nat;
  m_text : jsstring;
  m_caps : list (nat * jsstring)
}.

Definition mkInfo (b a : list Z) (st' : mstate) : minfo :=
  MInfo (length b) (firstn (length a - length (aft st')) a) (caps st').

(** A capture that did not take part in the match is [undefined]; where
    the source uses it as a string it is the empty string. *)
Definition cap (n : nat) (mi : minfo) : jsstring :=
  match getCap n (m_caps mi) with
  | Some s => s
  | None => []
  end.

(** The first match at or after the current position. *)
Fixpoint search (re : regexp) (b a : list Z) {struct a} : option minfo :=
  match matchAt re b a with
  | Some st' => Some (mkInfo b a st')
  | None =>
    match a with
    | [] => None
    | c :: a' => search re (c :: b) a'
    end
  end.

(** [re.test(s)] for a pattern without the [g] flag. *)
Definition test (re : regexp) (s : jsstring) : bool :=
  match search re [] s with
  | Some _ => true
  | None => false
  end.

(** All matches of a global pattern, left to right, each search starting
    where the previous match ended (one code unit further after an empty
    match).  [skip] counts the code units of the current match that are
    still to be passed. *)
Fixpoint scan (re : regexp) (skip : nat) (b a : list Z) {struct a} : list minfo :=
  match skip with
  | S n =>
    match a with
    | [] => []
    | c :: a' => scan re n (c :: b) a'
    end
  | O =>
    match matchAt re b a with
    | Some st' =>
      mkInfo b a st' ::
        match a with
        | [] => []
        | c :: a' => scan re (pred (length a - length (aft st'))) (c :: b) a'
        end
    | None =>
      match a with
      | [] => []
      | c :: a' => scan re 0 (c :: b) a'
      end
    end
  end.

(** [s.match(re)] for a global pattern: the matched texts. *)
Definition matchAll (re : regexp) (s : jsstring) : list jsstring :=
  map m_text (scan re 0 [] s).

(** [s.replace(re, fn)] for a global pattern. *)
Fixpoint replaceGo (re : regexp) (fn : minfo -> jsstring) (skip : nat)
    (b a : list Z) {struct a} : jsstring :=
  match skip with
  | S n =>
    match a with
    | [] => []
    | c :: a' => replaceGo re fn n (c :: b) a'
    end
  | O =>
    match matchAt re b a with
    | Some st' =>
      fn (mkInfo b a st') ++
        match a with
        | [] => []
        | c :: a' =>
          match (length a - length (aft st'))%nat with
          | O => c :: replaceGo re fn 0 (c :: b) a'
          | S n => replaceGo re fn n (c :: b) a'
          end
        end
    | None =>
      match a with
      | [] => []
      | c :: a' => c :: replaceGo re fn 0 (c :: b) a'
      end
    end
  end.

(** [s.replace(re, fn)]: every match when the pattern is global, the first
    match otherwise. *)
Definition replaceFn (re : regexp) (fn : minfo -> jsstring) (s : jsstring) : jsstring :=
  if global (re_flags re) then replaceGo re fn 0 [] s
  else
    match search re [] s with
    | Some mi =>
      firstn (m_offset mi) s ++ fn mi
        ++ skipn (m_offset mi + length (m_text mi)) s
    | None => s
    end.

(** Replacement text: [$1] to [$9] stand for a capture when the pattern
    has that many groups, [$&] for the match and [$$] for a dollar sign;
    every other code unit stands for itself.  (No replacement text of the
    source uses the other forms.) *)
Inductive titem : Type :=
| TLit (c : Z)
| TCap (n : nat)
| TWhole.

Fixpoint template (ng : nat) (s : jsstring) : list titem :=
  match s with
  | [] => []
  | c :: s' =>
    if c =? 36 then
      match s' with
      | d :: s'' =>
        if d =? 36 then TLit 36 :: template ng s''
        else if d =? 38 then TWhole :: template ng s''
        else if inRange 49 57 d && (Z.to_nat (d - 48) <=? ng)%nat
        then TCap (Z.to_nat (d - 48)) :: template ng s''
        else TLit 36 :: template ng s'
      | [] => [TLit 36]
      end
    else TLit c :: template ng s'
  end.

Definition expand (t : list titem) (mi : minfo) : jsstring :=
  flat_map (fun it =>
    match it with
    | TLit c => [c]
    | TCap n => cap n mi
    | TWhole => m_text mi
    end) t.

(** [s.replace(re, text)]. *)
Definition replace (re : regexp) (text : jsstring) (s : jsstring) : jsstring :=
  replaceFn re (expand (template (length (groups (re_ast re))) text)) s.


End Regex.
Import Regex.

(** ** Rules and settings (core/rule.ts) *)

Inductive Locale : Type := ru | en | fr | zh | ja | common.

Definition Locale_eqb (a b : Locale) : bool :=
  match a, b with
  | ru, ru | en, en | fr, fr | zh, zh | ja, ja | common, common => true
  | _, _ => false
  end.

Inductive RuleGroup : Type :=
| quotes | dashes | spaces | numbers | currency | punctuation
| case | special | yo | width | layout.

(** Context passed to each rule during execution. *)
Record RuleContext : Type := {
  ctx_locale : Locale;
  protectedRanges : list (Z * Z)
}.

(** A single typography rule.  The display names of a rule play no part
    in the engine and are left out. *)
Module Rule.
Record TypographyRule : Type := {
  id : string;
  locale : Locale;
  group : RuleGroup;
  enabled : bool;
  priority : Z;
  apply : jsstring -> RuleContext -> jsstring
}.
End Rule.
Abbreviation TypographyRule := Rule.TypographyRule.

(** The settings the engine reads: the chosen locale ([None] is ['auto'])
    and the sparse map of overrides. *)
Record TypographySettings : Type := {
  settings_locale : option Locale;
  enabledRules : gmap string bool
}.

(** ** Language detection (core/detector.ts) *)

Record CharCounts : Type := {
  cyrillic : Z;
  cjk : Z;
  hiraganaKatakana : Z;
  french : Z;
  latin : Z;
  total : Z
}.

Definition FRENCH_CHARS : jsstring := js "àâçéèêëïîôùûüÿœæÀÂÇÉÈÊËÏÎÔÙÛÜŸŒÆ".

(** The body of the loop of [countChars], for one code point. *)
Definition countChar (counts : CharCounts) (ch : jsstring) : CharCounts :=
  let code := codePointAt0 ch in
  if (0x0400 <=? code) && (code <=? 0x04ff) then
    {| cyrillic := cyrillic counts + 1; cjk := cjk counts;
       hiraganaKatakana := hiraganaKatakana counts; french := french counts;
       latin := latin counts; total := total counts + 1 |}
  else if (0x4e00 <=? code) && (code <=? 0x9fff) then
    {| cyrillic := cyrillic counts; cjk := cjk counts + 1;
       hiraganaKatakana := hiraganaKatakana counts; french := french counts;
       latin := latin counts; total := total counts + 1 |}
  else if (0x3040 <=? code) && (code <=? 0x30ff) then
    {| cyrillic := cyrillic counts; cjk := cjk counts;
       hiraganaKatakana := hiraganaKatakana counts + 1; french := french counts;
       latin := latin counts; total := total counts + 1 |}
  else if includes FRENCH_CHARS ch then
    {| cyrillic := cyrillic counts; cjk := cjk counts;
       hiraganaKatakana := hiraganaKatakana counts; french := french counts + 1;
       latin := latin counts; total := total counts + 1 |}
  else if ((0x41 <=? code) && (code <=? 0x5a)) || ((0x61 <=? code) && (code <=? 0x7a)) then
    {| cyrillic := cyrillic counts; cjk := cjk counts;
       hiraganaKatakana := hiraganaKatakana counts; french := french counts;
       latin := latin counts + 1; total := total counts + 1 |}
  else counts.

Definition countChars (text : jsstring) : CharCounts :=
  fold_left countChar (spread text)
    {| cyrillic := 0; cjk := 0; hiraganaKatakana := 0; french := 0;
       latin := 0; total := 0 |}.

(** [a / b > n / d], for counts [a] and [b > 0] and the decimal literal
    [n / d] of the source.  The source divides and compares doubles; the
    counts are exact, the quotient is correctly rounded and the literal is
    the double nearest to [n / d], so that for a text of fewer than 2^50
    code units the comparison of doubles and the comparison of the exact
    fractions agree. *)
Definition ratioGt (a b n d : Z) : bool := n * b <? a * d.

Definition detectLocale (text : jsstring) : Locale :=
  let counts := countChars text in
  if total counts =? 0 then en
  else if ratioGt (hiraganaKatakana counts) (total counts) 5 100 then ja
  else if ratioGt (cjk counts) (total counts) 2 10 then zh
  else if ratioGt (cyrillic counts) (total counts) 2 10 then ru
  else if (0 <? french counts) && (0 <? latin counts)
          && ratioGt (french counts) (latin counts + french counts) 3 100 then fr
  else if test (RegExp (js "\s[;:!?]") EmptyString) text && (0 <? latin counts) then fr
  else en.

(** ** The anti-orphan rule (rules/common/orphan.ts) *)

(** The function mapped over the lines. *)
Definition orphanLine (line : jsstring) : jsstring :=
  let trimmed := trimEnd line in
  let trailingWs := slice line (len trimmed) in
  let tokens := split SPACE trimmed in
  if (length tokens <? 3)%nat then line
  else
    let tail := skipn (length tokens - 2) tokens in
    let tokens := firstn (length tokens - 2) tokens in
    join [SPACE] tokens ++ [SPACE] ++ join NBSP tail ++ trailingWs.

Definition nbspOrphan : TypographyRule := {|
  Rule.id := "common/layout/orphan";
  Rule.locale := common;
  Rule.group := layout;
  Rule.enabled := false;
  Rule.priority := 900;
  Rule.apply := fun text _ => join [LF] (map orphanLine (split LF text))
|}.

(** ** Russian quotes (rules/ru/quotes.ts) *)

(** The source also computes the character after the marker, and never uses
    it; it is left out. *)

(** One iteration of the scan: the state is the depth counter and the
    output array. *)
Definition quoteStep (chars : list jsstring) (st : Z * list jsstring) (i : nat) :
    Z * list jsstring :=
  let '(depth, output) := st in
  if eqs (nth i chars []) [QUOT] then
    let before := if (0 <? i)%nat then nth (i - 1) chars [] else [SPACE] in
    let isOpening := test (RegExp (js "[\s(\[{]") EmptyString) before || (i =? 0)%nat in
    let isOpeningAfterQuote := eqs before (js "«") || eqs before (js "„") in
    if isOpening || isOpeningAfterQuote then
      (depth + 1, output ++ [if depth =? 0 then js "«" else js "„"])
    else
      let depth := depth - 1 in
      if depth <=? 0 then (0, output ++ [js "»"])
      else (depth, output ++ [[QUOT]])
  else (depth, output ++ [nth i chars []]).

(** The normalisation pass: every quote glyph becomes a straight quote. *)
Definition normalizeQuotes (text : jsstring) : jsstring :=
  replace (RegExp (js "[«»„\x22\x22\x22\u201c\u201d\u201e]") "g") [QUOT] text.

(** The state of the scan after its first [n] iterations. *)
Definition quoteScan (chars : list jsstring) (n : nat) : Z * list jsstring :=
  fold_left (quoteStep chars) (seq 0 n) (0, []).

Definition ruQuotes : TypographyRule := {|
  Rule.id := "ru/quotes/guillemets";
  Rule.locale := ru;
  Rule.group := quotes;
  Rule.enabled := true;
  Rule.priority := 30;
  Rule.apply := fun text _ =>
    let result := normalizeQuotes text in
    let chars := spread result in
    join [] (snd (quoteScan chars (length chars)))
|}.


(** ** The protected ranges (core/engine.ts) *)

(** Patterns of the ranges that no rule may transform: URLs, emails, IP
    addresses, version numbers, hex codes. *)
Definition PROTECTED_PATTERNS : list regexp :=
  [ RegExp (js "https?:\/\/[^\s<>\x22'«»„\x22]+") "g";
    RegExp (js "[\w.+-]+@[\w.-]+\.\w{2,}") "g";
    RegExp (js "\b\d{1,3}\.\d{1,3}\.\d{1,3}\.\d{1,3}\b") "g";
    RegExp (js "\bv?\d+\.\d+\.\d+(?:\.\d+)?\b") "g";
    RegExp (js "\b0x[0-9a-fA-F]+\b") "g" ].

(** [a.sort((x, y) => key(x) - key(y))]: the sort is stable. *)
Fixpoint insertBy {A : Type} (key : A -> Z) (x : A) (l : list A) : list A :=
  match l with
  | [] => [x]
  | y :: l' => if key x <=? key y then x :: l else y :: insertBy key x l'
  end.

Definition sortBy {A : Type} (key : A -> Z) (l : list A) : list A :=
  fold_right (insertBy key) [] l.

(** The loop [while ((match = pattern.exec(text)) !== null)] over one
    pattern: the ranges of its successive matches. *)
Definition execRanges (pattern : regexp) (text : jsstring) : list (Z * Z) :=
  map (fun mi => (Z.of_nat (m_offset mi),
                  Z.of_nat (m_offset mi) + len (m_text mi)))
      (scan pattern 0 [] text).

Definition findProtectedRanges (text : jsstring) : list (Z * Z) :=
  sortBy fst (flat_map (fun pattern => execRanges pattern text) PROTECTED_PATTERNS).

Definition isProtected (pos : Z) (ranges : list (Z * Z)) : bool :=
  existsb (fun '(start, end_) => (start <=? pos) && (pos <? end_)) ranges.

(** ** Common rules (rules/common/index.ts) *)

Definition removeDoubleSpaces : TypographyRule := {|
  Rule.id := "common/spaces/double";
  Rule.locale := common; Rule.group := spaces; Rule.enabled := true;
  Rule.priority := 10;
  Rule.apply := fun text _ => replace (RegExp (js " {2,}") "g") (js " ") text
|}.

Definition specialSymbols : TypographyRule := {|
  Rule.id := "common/special/symbols";
  Rule.locale := common; Rule.group := special; Rule.enabled := true;
  Rule.priority := 20;
  Rule.apply := fun text _ =>
    replace (RegExp (js "\(tm\)") "gi") (js "™")
      (replace (RegExp (js "\(r\)") "gi") (js "®")
         (replace (RegExp (js "\(c\)") "gi") (js "©") text))
|}.

Definition plusMinus : TypographyRule := {|
  Rule.id := "common/special/plusminus";
  Rule.locale := common; Rule.group := special; Rule.enabled := true;
  Rule.priority := 21;
  Rule.apply := fun text _ => replace (RegExp (js "\+-") "g") (js "±") text
|}.

Definition ellipsis : TypographyRule := {|
  Rule.id := "common/punctuation/ellipsis";
  Rule.locale := common; Rule.group := punctuation; Rule.enabled := true;
  Rule.priority := 15;
  Rule.apply := fun text _ => replace (RegExp (js "\.{2,}") "g") (js "…") text
|}.

Definition duplicatePunctuation : TypographyRule := {|
  Rule.id := "common/punctuation/duplicates";
  Rule.locale := common; Rule.group := punctuation; Rule.enabled := true;
  Rule.priority := 12;
  Rule.apply := fun text _ =>
    let result := text in
    let result :=
      replace (RegExp (js "\s*\?+\s*!+") "g") (js "?!")
        (replace (RegExp (js "\s*!+\s*\?+") "g") (js "?!") result) in
    let result := replace (RegExp (js "([?!,;:])\1+") "g") (js "$1") result in
    result
|}.

(** The list of this file has five rules; the anti-orphan rule of
    rules/common/orphan.ts is not one of them. *)
Definition commonRules : list TypographyRule :=
  [removeDoubleSpaces; specialSymbols; plusMinus; ellipsis; duplicatePunctuation].

(** ** Russian rules *)

(** *** rules/ru/case.ts *)

(** Known abbreviations that should remain uppercase. *)
Definition CASE_ABBREVIATIONS : list (jsstring * jsstring) :=
  map (fun p => (js (fst p), js (snd p)))
  [("ссср", "СССР"); ("гост", "ГОСТ"); ("сша", "США"); ("рф", "РФ");
   ("снг", "СНГ"); ("ооо", "ООО"); ("пао", "ПАО"); ("зао", "ЗАО");
   ("оао", "ОАО"); ("смс", "СМС"); ("cvv", "CVV"); ("cvc", "CVC");
   ("qr-код", "QR-код"); ("пин-код", "ПИН-код"); ("wi-fi", "Wi-Fi");
   ("фгос", "ФГОС"); ("мвд", "МВД"); ("фсб", "ФСБ"); ("гибдд", "ГИБДД");
   ("мчс", "МЧС"); ("фнс", "ФНС"); ("ндс", "НДС"); ("нко", "НКО");
   ("ип", "ИП"); ("инн", "ИНН"); ("огрн", "ОГРН"); ("кпп", "КПП");
   ("url", "URL"); ("api", "API"); ("html", "HTML"); ("css", "CSS");
   ("pdf", "PDF"); ("usb", "USB"); ("hdmi", "HDMI"); ("ram", "RAM");
   ("ssd", "SSD"); ("hdd", "HDD"); ("dpi", "DPI"); ("fps", "FPS")].

(** [table[key] || fallback] for a table of non-empty strings. *)
Fixpoint lookupOr (table : list (jsstring * jsstring)) (key fallback : jsstring) : jsstring :=
  match table with
  | [] => fallback
  | (k, v) :: table' => if eqs k key then v else lookupOr table' key fallback
  end.

(** [w.replace(/-/g, '\\-')] *)
Definition escapeDash (w : jsstring) : jsstring :=
  replace (RegExp (js "-") "g") (js "\-") w.

(** [a / b < n / d]; see [ratioGt]. *)
Definition ratioLt (a b n d : Z) : bool := a * d <? n * b.

Definition ruFixCase : TypographyRule := {|
  Rule.id := "ru/case/capslock";
  Rule.locale := ru; Rule.group := case; Rule.enabled := true;
  Rule.priority := 5;
  Rule.apply := fun text _ =>
    let letters := matchAll (RegExp (js "[а-яА-ЯёЁa-zA-Z]") "g") text in
    if (length letters <? 20)%nat then text
    else
      let uppercaseLetters := matchAll (RegExp (js "[А-ЯЁA-Z]") "g") text in
      if ratioLt (Z.of_nat (length uppercaseLetters)) (Z.of_nat (length letters)) 7 10
      then text
      else
        let result := toLowerCase text in
        let result := toUpperCase (firstn 1 result) ++ slice result 1 in
        let result :=
          replaceFn (RegExp (js "([.!?…]\s+)([а-яёa-z])") "g")
            (fun mi => cap 1 mi ++ toUpperCase (cap 2 mi)) result in
        let abbrPattern :=
          RegExp (js "\b(" ++ join (js "|") (map escapeDash (map fst CASE_ABBREVIATIONS))
                  ++ js ")\b") "gi" in
        replaceFn abbrPattern
          (fun mi => lookupOr CASE_ABBREVIATIONS (toLowerCase (m_text mi)) (m_text mi))
          result
|}.

(** *** rules/ru/yo.ts *)

Definition YO_DICTIONARY : list (jsstring * jsstring) :=
  [(js "еще", js "ещё"); (js "моем", js "моём"); (js "твоем", js "твоём"); 
   (js "своем", js "своём"); (js "чем", js "чём"); (js "елка", js "ёлка"); 
   (js "елки", js "ёлки"); (js "елку", js "ёлку"); 
   (js "елкой", js "ёлкой"); (js "елке", js "ёлке"); 
   (js "елок", js "ёлок"); (js "елочка", js "ёлочка"); 
   (js "елочки", js "ёлочки"); (js "елочку", js "ёлочку"); 
   (js "берёза", js "берёза"); (js "мед", js "мёд"); 
   (js "меда", js "мёда"); (js "медом", js "мёдом"); (js "лед", js "лёд"); 
   (js "льда", js "льда"); (js "лен", js "лён"); (js "шел", js "шёл"); 
   (js "шла", js "шла"); (js "зеленый", js "зелёный"); 
   (js "зеленая", js "зелёная"); (js "зеленое", js "зелёное"); 
   (js "зеленые", js "зелёные"); (js "черный", js "чёрный"); 
   (js "черная", js "чёрная"); (js "черное", js "чёрное"); 
   (js "черные", js "чёрные"); (js "желтый", js "жёлтый"); 
   (js "желтая", js "жёлтая"); (js "желтое", js "жёлтое"); 
   (js "желтые", js "жёлтые"); (js "тёмный", js "тёмный"); 
   (js "темный", js "тёмный"); (js "темная", js "тёмная"); 
   (js "темное", js "тёмное"); (js "темные", js "тёмные"); 
   (js "ребенок", js "ребёнок"); (js "ребенка", js "ребёнка"); 
   (js "ребенку", js "ребёнку"); (js "ребенком", js "ребёнком"); 
   (js "приём", js "приём"); (js "прием", js "приём"); 
   (js "приема", js "приёма"); (js "приему", js "приёму"); 
   (js "приемом", js "приёмом"); (js "подъем", js "подъём"); 
   (js "подъема", js "подъёма"); (js "учет", js "учёт"); 
   (js "учета", js "учёта"); (js "учетом", js "учётом"); 
   (js "ученый", js "учёный"); (js "ученого", js "учёного"); 
   (js "расчет", js "расчёт"); (js "расчета", js "расчёта"); 
   (js "расчетом", js "расчётом"); (js "счет", js "счёт"); 
   (js "счета", js "счёта"); (js "полет", js "полёт"); 
   (js "полета", js "полёта"); (js "самолет", js "самолёт"); 
   (js "самолета", js "самолёта"); (js "трех", js "трёх"); 
   (js "трехкомнатный", js "трёхкомнатный"); (js "четырех", js "четырёх"); 
   (js "идет", js "идёт"); (js "пойдет", js "пойдёт"); 
   (js "найдет", js "найдёт"); (js "дает", js "даёт"); 
   (js "задает", js "задаёт"); (js "передает", js "передаёт"); 
   (js "берет", js "берёт"); (js "несет", js "несёт"); 
   (js "ведет", js "ведёт"); (js "везет", js "везёт"); 
   (js "течет", js "течёт"); (js "печет", js "печёт"); 
   (js "жжет", js "жжёт"); (js "жует", js "жуёт"); 
   (js "клюет", js "клюёт"); (js "поет", js "поёт"); 
   (js "пришел", js "пришёл"); (js "ушел", js "ушёл"); 
   (js "нашел", js "нашёл"); (js "зашел", js "зашёл"); 
   (js "вышел", js "вышёл"); (js "подошел", js "подошёл"); 
   (js "перешел", js "перешёл"); (js "обошел", js "обошёл")].

(** Only the entries whose source differs from the target. *)
Definition effectiveEntries : list (jsstring * jsstring) :=
  List.filter (fun p => negb (eqs (fst p) (snd p))) YO_DICTIONARY.

Definition CYR_LETTER : jsstring := js "[а-яА-ЯёЁ]".

Definition yoEntry (result : jsstring) (entry : jsstring * jsstring) : jsstring :=
  let '(from, to) := entry in
  let regex := RegExp (js "(?<!" ++ CYR_LETTER ++ js ")" ++ from
                       ++ js "(?!" ++ CYR_LETTER ++ js ")") "g" in
  let result := replace regex to result in
  let capitalFrom := toUpperCase (firstn 1 from) ++ slice from 1 in
  let capitalTo := toUpperCase (firstn 1 to) ++ slice to 1 in
  if negb (eqs capitalFrom capitalTo) then
    let capitalRegex := RegExp (js "(?<!" ++ CYR_LETTER ++ js ")" ++ capitalFrom
                                ++ js "(?!" ++ CYR_LETTER ++ js ")") "g" in
    replace capitalRegex capitalTo result
  else result.

Definition ruYo : TypographyRule := {|
  Rule.id := "ru/yo/basic";
  Rule.locale := ru; Rule.group := yo; Rule.enabled := true;
  Rule.priority := 25;
  Rule.apply := fun text _ => fold_left yoEntry effectiveEntries text
|}.

(** *** rules/ru/dashes.ts *)

Definition ruEnDash : TypographyRule := {|
  Rule.id := "ru/dashes/endash";
  Rule.locale := ru; Rule.group := dashes; Rule.enabled := true;
  Rule.priority := 35;
  Rule.apply := fun text _ =>
    let result := text in
    let result := replace (RegExp (js "(\d+)\s*-\s*(\d+)") "g") (js "$1–$2") result in
    let result :=
      replace (RegExp (js "([IVXLCDM]+)\s*-\s*([IVXLCDM]+)") "g") (js "$1–$2") result in
    result
|}.

Definition ruEmDash : TypographyRule := {|
  Rule.id := "ru/dashes/emdash";
  Rule.locale := ru; Rule.group := dashes; Rule.enabled := true;
  Rule.priority := 36;
  Rule.apply := fun text _ =>
    replace (RegExp (js "(?<=\S) - (?=\S)") "g") (js " — ") text
|}.

(** *** rules/ru/spaces.ts *)

Definition SHORT_WORDS : list jsstring :=
  map js
  ["а"; "б"; "без"; "безо"; "будто"; "бы"; "в"; "во"; "ведь"; "вне";
   "вот"; "где"; "да"; "даже"; "для"; "до"; "если"; "есть"; "ж"; "же";
   "за"; "и"; "из"; "изо"; "из-за"; "из-под"; "или"; "иль"; "к"; "ко";
   "как"; "ли"; "ль"; "либо"; "между"; "на"; "над"; "надо"; "не"; "ни";
   "но"; "о"; "об"; "обо"; "около"; "от"; "ото"; "перед"; "по"; "по-за";
   "по-над"; "под"; "подо"; "после"; "при"; "про"; "ради"; "с"; "со";
   "сквозь"; "так"; "также"; "там"; "тем"; "то"; "тогда"; "того"; "тоже";
   "у"; "хоть"; "хотя"; "чего"; "через"; "что"; "чтобы"; "это"].

Definition ABBREVIATIONS : list jsstring :=
  map js
  ["г"; "обл"; "кр"; "ст"; "пос"; "с"; "д"; "ул"; "пер"; "пр"; "пр-т";
   "просп"; "пл"; "бул"; "б-р"; "наб"; "ш"; "туп"; "оф"; "кв"; "комн";
   "под"; "мкр"; "уч"; "вл"; "влад"; "стр"; "корп"; "литер"; "эт"; "пгт";
   "гл"; "рис"; "илл"; "п"; "c"].

Definition SYMBOLS : list jsstring :=
  map js ["№"; "§"; "АО"; "ОАО"; "ЗАО"; "ООО"; "ПАО"].

Definition ruShortWords : TypographyRule := {|
  Rule.id := "ru/spaces/shortwords";
  Rule.locale := ru; Rule.group := spaces; Rule.enabled := true;
  Rule.priority := 50;
  Rule.apply := fun text _ =>
    let result := text in
    let shortWordsPattern := join (js "|") (map escapeDash SHORT_WORDS) in
    let result :=
      replace (RegExp (js "((?:^|\s)(?:" ++ shortWordsPattern ++ js ")) ") "gi")
        (js "$1" ++ NBSP) result in
    let pass := fun result : jsstring =>
      replace (RegExp (js "((?:^|[\s" ++ NBSP ++ js "])(?:" ++ shortWordsPattern
                       ++ js ")) ") "gi")
        (js "$1" ++ NBSP) result in
    pass (pass result)
|}.

Definition ruEmDashSpace : TypographyRule := {|
  Rule.id := "ru/spaces/emdash";
  Rule.locale := ru; Rule.group := spaces; Rule.enabled := true;
  Rule.priority := 51;
  Rule.apply := fun text _ => replace (RegExp (js " —") "g") (NBSP ++ js "—") text
|}.

Definition ruInitials : TypographyRule := {|
  Rule.id := "ru/spaces/initials";
  Rule.locale := ru; Rule.group := spaces; Rule.enabled := true;
  Rule.priority := 52;
  Rule.apply := fun text _ =>
    let result := text in
    let result :=
      replace (RegExp (js "([А-Я]\.)\s*([А-Я]\.)\s+([А-Я][а-яёЁ-]+)") "g")
        (js "$1$2" ++ NBSP ++ js "$3") result in
    let result :=
      replace (RegExp (js "([А-Я][а-яёЁ-]+)\s+([А-Я]\.)\s*([А-Я]\.)") "g")
        (js "$1" ++ NBSP ++ js "$2$3") result in
    result
|}.

Definition ruAbbreviationPatterns : TypographyRule := {|
  Rule.id := "ru/spaces/abbr-patterns";
  Rule.locale := ru; Rule.group := spaces; Rule.enabled := true;
  Rule.priority := 53;
  Rule.apply := fun text _ =>
    replace (RegExp (js "\s(и\sт\.д\.|и\sт\.п\.|и\sдр\.)") "gi") (NBSP ++ js "$1") text
|}.

Definition ruDigitsUnits : TypographyRule := {|
  Rule.id := "ru/spaces/digits-units";
  Rule.locale := ru; Rule.group := spaces; Rule.enabled := true;
  Rule.priority := 54;
  Rule.apply := fun text _ =>
    replace (RegExp (js "(\d)\s+([а-яА-ЯёЁ§№]+)") "g") (js "$1" ++ NBSP ++ js "$2") text
|}.

Definition ruDotAbbreviations : TypographyRule := {|
  Rule.id := "ru/spaces/dot-abbr";
  Rule.locale := ru; Rule.group := spaces; Rule.enabled := true;
  Rule.priority := 55;
  Rule.apply := fun text _ =>
    let abbrPattern := join (js "|") (map escapeDash ABBREVIATIONS) in
    replace (RegExp (js "(^|\s)(" ++ abbrPattern ++ js ")\.\s") "gi")
      (js "$1$2." ++ NBSP) text
|}.

Definition ruSymbolSpaces : TypographyRule := {|
  Rule.id := "ru/spaces/symbols";
  Rule.locale := ru; Rule.group := spaces; Rule.enabled := true;
  Rule.priority := 56;
  Rule.apply := fun text _ =>
    let symbolPattern := join (js "|") SYMBOLS in
    replace (RegExp (js "(^|\s)(" ++ symbolPattern ++ js ")\s") "gi")
      (js "$1$2" ++ NBSP) text
|}.

Definition ruBracketSpaces : TypographyRule := {|
  Rule.id := "ru/spaces/brackets";
  Rule.locale := ru; Rule.group := spaces; Rule.enabled := true;
  Rule.priority := 48;
  Rule.apply := fun text _ =>
    let result := text in
    let result := replace (RegExp (js "([«„(\[])\s+") "g") (js "$1") result in
    let result := replace (RegExp (js "\s+([.…:,;?!»\x22)\]])") "g") (js "$1") result in
    result
|}.

(** *** rules/ru/hanging.ts *)

Definition ruHanging : TypographyRule := {|
  Rule.id := "ru/spaces/hanging";
  Rule.locale := ru; Rule.group := spaces; Rule.enabled := true;
  Rule.priority := 90;
  Rule.apply := fun text _ =>
    replace (RegExp (js "(\S+)\s([а-яА-ЯёЁ-]{1,3}[.,!?…]?)$") "gm")
      (js "$1" ++ NBSP ++ js "$2") text
|}.

(** *** rules/ru/numbers.ts *)

(** [k.padStart(2, '0')] *)
Definition padStart2 (k : jsstring) : jsstring :=
  repeat 48 (2 - length k) ++ k.

(** [s[i] === c] *)
Definition atIs (s : jsstring) (i : Z) (c : Z) : bool :=
  match at_ s i with
  | Some x => x =? c
  | None => false
  end.

(** [re.test(s[i])]; an index out of range gives [undefined], which [test]
    reads as the text of that word. *)
Definition testAt (re : regexp) (s : jsstring) (i : Z) : bool :=
  match at_ s i with
  | Some x => test re [x]
  | None => test re (js "undefined")
  end.

Definition ruCurrency : TypographyRule := {|
  Rule.id := "ru/currency/format";
  Rule.locale := ru; Rule.group := currency; Rule.enabled := true;
  Rule.priority := 60;
  Rule.apply := fun text _ =>
    let result := text in
    let result :=
      replaceFn (RegExp (js "(\d+)\s*(?:р\.|руб\.?)\s*(\d{1,2})\s*коп\.?") "gi")
        (fun mi => cap 1 mi ++ js "," ++ padStart2 (cap 2 mi) ++ NBSP ++ js "₽")
        result in
    let result :=
      replace (RegExp (js "(\d+)\s*(руб\.?)\s*") "gi") (js "$1" ++ NBSP ++ js "₽") result in
    let result :=
      replace (RegExp (js "(\d+)\s*(RUR|RUB)\b") "gi") (js "$1" ++ NBSP ++ js "₽") result in
    let result :=
      replace (RegExp (js "(\d+)\s*р\.") "g") (js "$1" ++ NBSP ++ js "₽") result in
    let result :=
      replace (RegExp (js "(\d)\s*USD\b") "gi") (js "$1" ++ NBSP ++ js "$") result in
    let result :=
      replace (RegExp (js "(\d)\s*EUR\b") "gi") (js "$1" ++ NBSP ++ js "€") result in
    let result :=
      replace (RegExp (js "(\d)\s*([$€₽])") "g") (js "$1" ++ NBSP ++ js "$2") result in
    result
|}.

(** The replacer of the decimal rule, for one match of [(\d)\.(\d)]. *)
Definition decimalReplacer (text : jsstring) (ctx : RuleContext) (mi : minfo) : jsstring :=
  let offset := Z.of_nat (m_offset mi) in
  if isProtected offset (protectedRanges ctx) then m_text mi
  else
    let afterPos := offset + len (m_text mi) in
    if (afterPos <? len text) && atIs text afterPos 46 then m_text mi
    else if (2 <=? offset) && atIs text (offset - 1) 46
            && testAt (RegExp (js "\d") EmptyString) text (offset - 2) then m_text mi
    else cap 1 mi ++ js "," ++ cap 2 mi.

Definition ruDecimals : TypographyRule := {|
  Rule.id := "ru/numbers/decimals";
  Rule.locale := ru; Rule.group := numbers; Rule.enabled := true;
  Rule.priority := 62;
  Rule.apply := fun text ctx =>
    replaceFn (RegExp (js "(\d)\.(\d)") "g") (decimalReplacer text ctx) text
|}.

Definition ruThousands : TypographyRule := {|
  Rule.id := "ru/numbers/thousands";
  Rule.locale := ru; Rule.group := numbers; Rule.enabled := true;
  Rule.priority := 63;
  Rule.apply := fun text ctx =>
    replaceFn (RegExp (js "(\d)(?=(?:\d{3})+(?![,.\d]))") "g")
      (fun mi =>
         if isProtected (Z.of_nat (m_offset mi)) (protectedRanges ctx) then m_text mi
         else cap 1 mi ++ THIN)
      text
|}.

Definition ruPercent : TypographyRule := {|
  Rule.id := "ru/numbers/percent";
  Rule.locale := ru; Rule.group := numbers; Rule.enabled := true;
  Rule.priority := 64;
  Rule.apply := fun text _ =>
    replace (RegExp (js "(\d+)\s*%") "g") (js "$1" ++ THIN ++ js "%") text
|}.

Definition ruNumberAbbr : TypographyRule := {|
  Rule.id := "ru/numbers/abbreviations";
  Rule.locale := ru; Rule.group := numbers; Rule.enabled := true;
  Rule.priority := 65;
  Rule.apply := fun text _ =>
    let result := text in
    let result := replace (RegExp (js "\b(тыс)(?![.\w])") "gi") (js "$1.") result in
    let result := replace (RegExp (js "\b(млн|млрд|трлн)\.") "gi") (js "$1") result in
    result
|}.

Definition ruMultiplication : TypographyRule := {|
  Rule.id := "ru/numbers/multiplication";
  Rule.locale := ru; Rule.group := numbers; Rule.enabled := true;
  Rule.priority := 61;
  Rule.apply := fun text _ =>
    replace (RegExp (js "\b(\d{2,})\s*[xх]\s*(\d+)\b") "gi") (js "$1×$2") text
|}.

Definition ruTemperature : TypographyRule := {|
  Rule.id := "ru/numbers/temperature";
  Rule.locale := ru; Rule.group := numbers; Rule.enabled := true;
  Rule.priority := 66;
  Rule.apply := fun text _ =>
    let result := text in
    let result :=
      replace (RegExp (js "([+-]?\d+)\s*°?\s*C(?![a-zA-Zа-яА-ЯёЁ])") "g")
        (js "$1" ++ NBSP ++ js "°C") result in
    let result :=
      replace (RegExp (js "(\d+)\s*(градусов|градуса|градус)\b") "gi") (js "$1°") result in
    result
|}.

(** *** rules/ru/index.ts *)

Definition ruRules : list TypographyRule :=
  [ ruFixCase;
    ruYo;
    ruQuotes;
    ruEnDash; ruEmDash;
    ruBracketSpaces;
    ruShortWords; ruEmDashSpace; ruInitials; ruAbbreviationPatterns;
    ruDigitsUnits; ruDotAbbreviations; ruSymbolSpaces;
    ruCurrency; ruMultiplication; ruDecimals; ruThousands; ruPercent;
    ruNumberAbbr; ruTemperature;
    ruHanging ].

(** ** English rules (rules/en/index.ts) *)

Definition enQuotes : TypographyRule := {|
  Rule.id := "en/quotes/curly";
  Rule.locale := en; Rule.group := quotes; Rule.enabled := true;
  Rule.priority := 30;
  Rule.apply := fun text _ =>
    let result := text in
    let result := replace (RegExp (js "[\u201c\u201d]") "g") [QUOT] result in
    let result :=
      replace (RegExp (js "(^|[\s(\[{])\x22(?=\S)") "gm") (js "$1“") result in
    let result :=
      replace (RegExp (js "\x22(?=[\s)\]},;:!?.]|$)") "gm") (js "”") result in
    let result := replace (RegExp (js "(^|[\s(\[{])\x22") "gm") (js "$1“") result in
    let result := replace (RegExp (js "\x22") "g") (js "”") result in
    let result := replace (RegExp (js "(\w)'(\w)") "g") (js "$1’$2") result in
    let result := replace (RegExp (js "(^|[\s(\[{])'(?=\S)") "gm") (js "$1‘") result in
    let result := replace (RegExp (js "'(?=[\s)\]},;:!?.]|$)") "gm") (js "’") result in
    result
|}.

Definition enDashes : TypographyRule := {|
  Rule.id := "en/dashes/smart";
  Rule.locale := en; Rule.group := dashes; Rule.enabled := true;
  Rule.priority := 35;
  Rule.apply := fun text _ =>
    let result := text in
    let result := replace (RegExp (js "---?") "g") (js "—") result in
    let result := replace (RegExp (js "(\d+)\s*-\s*(\d+)") "g") (js "$1–$2") result in
    result
|}.

Definition enShortWords : TypographyRule := {|
  Rule.id := "en/spaces/shortwords";
  Rule.locale := en; Rule.group := spaces; Rule.enabled := true;
  Rule.priority := 50;
  Rule.apply := fun text _ =>
    let words := map js ["a"; "an"; "the"; "at"; "by"; "for"; "in"; "of"; "on";
                         "to"; "or"; "if"; "is"] in
    let pattern := join (js "|") words in
    let regex := RegExp (js "(^|\s)(" ++ pattern ++ js ")\s") "gi" in
    let pass := fun result : jsstring => replace regex (js "$1$2" ++ NBSP) result in
    pass (pass text)
|}.

Definition enUnits : TypographyRule := {|
  Rule.id := "en/spaces/units";
  Rule.locale := en; Rule.group := spaces; Rule.enabled := true;
  Rule.priority := 54;
  Rule.apply := fun text _ =>
    let units := map js ["kg"; "km"; "cm"; "mm"; "ml"; "lb"; "oz"; "ft"; "in"; "mi";
                         "mph"; "GB"; "MB"; "KB"; "TB"] in
    let pattern := join (js "|") units in
    replace (RegExp (js "(\d)\s+(" ++ pattern ++ js ")\b") "g")
      (js "$1" ++ NBSP ++ js "$2") text
|}.

Definition enPercent : TypographyRule := {|
  Rule.id := "en/numbers/percent";
  Rule.locale := en; Rule.group := numbers; Rule.enabled := true;
  Rule.priority := 64;
  Rule.apply := fun text _ => replace (RegExp (js "(\d)\s+%") "g") (js "$1%") text
|}.

Definition enHanging : TypographyRule := {|
  Rule.id := "en/spaces/hanging";
  Rule.locale := en; Rule.group := spaces; Rule.enabled := true;
  Rule.priority := 90;
  Rule.apply := fun text _ =>
    replace (RegExp (js "(\S+)\s([a-zA-Z-]{1,3}[.,!?]?)$") "gm")
      (js "$1" ++ NBSP ++ js "$2") text
|}.

Definition enRules : list TypographyRule :=
  [enQuotes; enDashes; enShortWords; enUnits; enPercent; enHanging].

(** ** French rules (rules/fr/index.ts) *)

Definition frQuotes : TypographyRule := {|
  Rule.id := "fr/quotes/guillemets";
  Rule.locale := fr; Rule.group := quotes; Rule.enabled := true;
  Rule.priority := 30;
  Rule.apply := fun text _ =>
    let result := text in
    let result := replace (RegExp (js "[\x22\x22«»\u201c\u201d]") "g") [QUOT] result in
    let result :=
      replace (RegExp (js "(^|[\s(\[{])\x22(?=\S)") "gm") (js "$1«" ++ NNBSP) result in
    let result :=
      replace (RegExp (js "\x22(?=[\s)\]},;:!?.]|$)") "gm") (NNBSP ++ js "»") result in
    let result :=
      replace (RegExp (js "(^|[\s(\[{])\x22") "gm") (js "$1«" ++ NNBSP) result in
    let result := replace (RegExp (js "\x22") "g") (NNBSP ++ js "»") result in
    result
|}.

Definition frPunctuation : TypographyRule := {|
  Rule.id := "fr/punctuation/spaces";
  Rule.locale := fr; Rule.group := punctuation; Rule.enabled := true;
  Rule.priority := 40;
  Rule.apply := fun text _ =>
    let result := text in
    let result := replace (RegExp (js "\s*([;:!?])") "g") (NNBSP ++ js "$1") result in
    let result :=
      replace (RegExp (js "^" ++ NNBSP ++ js "([;:!?])") "gm") (js "$1") result in
    result
|}.

Definition frDashes : TypographyRule := {|
  Rule.id := "fr/dashes/endash";
  Rule.locale := fr; Rule.group := dashes; Rule.enabled := true;
  Rule.priority := 35;
  Rule.apply := fun text _ =>
    let result := text in
    let result := replace (RegExp (js "(\d+)\s*-\s*(\d+)") "g") (js "$1–$2") result in
    let result :=
      replace (RegExp (js "(?<=\S) - (?=\S)") "g") (NBSP ++ js "– ") result in
    result
|}.

Definition frNumbers : TypographyRule := {|
  Rule.id := "fr/numbers/format";
  Rule.locale := fr; Rule.group := numbers; Rule.enabled := true;
  Rule.priority := 62;
  Rule.apply := fun text _ =>
    let result := text in
    let result :=
      replace (RegExp (js "(\d)(?=(?:\d{3})+(?![,.\d]))") "g") (js "$1" ++ THIN) result in
    let result := replace (RegExp (js "(\d)\s*%") "g") (js "$1" ++ NNBSP ++ js "%") result in
    result
|}.

Definition frCurrency : TypographyRule := {|
  Rule.id := "fr/currency/euro";
  Rule.locale := fr; Rule.group := currency; Rule.enabled := true;
  Rule.priority := 60;
  Rule.apply := fun text _ =>
    let result := text in
    let result :=
      replace (RegExp (js "(\d)\s*EUR\b") "gi") (js "$1" ++ NBSP ++ js "€") result in
    let result :=
      replace (RegExp (js "(\d)\s*(€)") "g") (js "$1" ++ NBSP ++ js "$2") result in
    result
|}.

Definition LIGATURE_WORDS : list (jsstring * jsstring) :=
  map (fun p => (js (fst p), js (snd p)))
  [("coeur", "cœur"); ("Coeur", "Cœur");
   ("oeuvre", "œuvre"); ("Oeuvre", "Œuvre");
   ("oeuvres", "œuvres"); ("Oeuvres", "Œuvres");
   ("oeil", "œil"); ("Oeil", "Œil");
   ("voeu", "vœu"); ("Voeu", "Vœu");
   ("voeux", "vœux"); ("Voeux", "Vœux");
   ("noeud", "nœud"); ("Noeud", "Nœud");
   ("soeur", "sœur"); ("Soeur", "Sœur");
   ("boeuf", "bœuf"); ("Boeuf", "Bœuf");
   ("manoeuvre", "manœuvre"); ("Manoeuvre", "Manœuvre")].

Definition frLigatures : TypographyRule := {|
  Rule.id := "fr/special/ligatures";
  Rule.locale := fr; Rule.group := special; Rule.enabled := true;
  Rule.priority := 70;
  Rule.apply := fun text _ =>
    fold_left
      (fun result '(from, to) =>
         replace (RegExp (js "\b" ++ from ++ js "\b") "g") to result)
      LIGATURE_WORDS text
|}.

Definition frRules : list TypographyRule :=
  [frQuotes; frPunctuation; frDashes; frNumbers; frCurrency; frLigatures].

(** ** Chinese rules (rules/zh/index.ts) *)

Definition CJK_RANGE : jsstring := js "\u4e00-\u9fff\u3400-\u4dbf\uf900-\ufaff".
Definition CJK_REGEX : jsstring := js "[" ++ CJK_RANGE ++ js "]".

(** [half.replace(/[.*+?^${}()|[\]\\]/g, '\\$&')] *)
Definition escapeRegExp (s : jsstring) : jsstring :=
  replace (RegExp (js "[.*+?^${}()|[\]\\]") "g") (js "\$&") s.

Definition ZH_PUNCTUATION : list (jsstring * jsstring) :=
  map (fun p => (js (fst p), js (snd p)))
  [(",", "，"); (".", "。"); ("!", "！"); ("?", "？"); (";", "；"); (":", "：");
   ("(", "（"); (")", "）")].

Definition zhFullwidthPunctuation : TypographyRule := {|
  Rule.id := "zh/punctuation/fullwidth";
  Rule.locale := zh; Rule.group := punctuation; Rule.enabled := true;
  Rule.priority := 30;
  Rule.apply := fun text _ =>
    fold_left
      (fun result '(half, full) =>
         let escaped := escapeRegExp half in
         let result :=
           replace (RegExp (js "(" ++ CJK_REGEX ++ js ")" ++ escaped) "g")
             (js "$1" ++ full) result in
         if eqs half (js "(") then
           replace (RegExp (escaped ++ js "(" ++ CJK_REGEX ++ js ")") "g")
             (full ++ js "$1") result
         else result)
      ZH_PUNCTUATION text
|}.

Definition zhQuotes : TypographyRule := {|
  Rule.id := "zh/quotes/corner";
  Rule.locale := zh; Rule.group := quotes; Rule.enabled := true;
  Rule.priority := 31;
  Rule.apply := fun text _ =>
    let result := text in
    let result :=
      replace (RegExp (js "[\u201c\x22\x22]([^\x22\x22\u201c\u201d]*?)[\u201d\x22\x22]") "g")
        (js "「$1」") result in
    let result :=
      replace (RegExp (js "「([^「」]*?)「([^「」]*?)」([^「」]*?)」") "g")
        (js "「$1『$2』$3」") result in
    result
|}.

Definition zhCjkLatinSpacing : TypographyRule := {|
  Rule.id := "zh/spaces/cjk-latin";
  Rule.locale := zh; Rule.group := spaces; Rule.enabled := true;
  Rule.priority := 50;
  Rule.apply := fun text _ =>
    let result := text in
    let result :=
      replace (RegExp (js "(" ++ CJK_REGEX ++ js ")([a-zA-Z0-9])") "g") (js "$1 $2") result in
    let result :=
      replace (RegExp (js "([a-zA-Z0-9])(" ++ CJK_REGEX ++ js ")") "g") (js "$1 $2") result in
    result
|}.

(** [String.fromCharCode(ch.charCodeAt(0) - 0xfee0)] *)
Definition toHalfwidth (mi : minfo) : jsstring :=
  match m_text mi with
  | c :: _ => [(c - 0xfee0) mod 0x10000]
  | [] => [0]
  end.

Definition zhWidthNormalize : TypographyRule := {|
  Rule.id := "zh/width/normalize";
  Rule.locale := zh; Rule.group := width; Rule.enabled := true;
  Rule.priority := 25;
  Rule.apply := fun text _ =>
    let result := text in
    let result := replaceFn (RegExp (js "[\uff10-\uff19]") "g") toHalfwidth result in
    let result :=
      replaceFn (RegExp (js "[\uff21-\uff3a\uff41-\uff5a]") "g") toHalfwidth result in
    result
|}.

Definition zhRules : list TypographyRule :=
  [zhWidthNormalize; zhFullwidthPunctuation; zhQuotes; zhCjkLatinSpacing].

(** ** Japanese rules (rules/ja/index.ts) *)

Definition HIRA_RANGE : jsstring := js "\u3040-\u309f".
Definition KATA_RANGE : jsstring := js "\u30a0-\u30ff".
Definition JA_CHAR : jsstring :=
  js "[" ++ CJK_RANGE ++ HIRA_RANGE ++ KATA_RANGE ++ js "]".

Definition jaFullwidthPunctuation : TypographyRule := {|
  Rule.id := "ja/punctuation/fullwidth";
  Rule.locale := ja; Rule.group := punctuation; Rule.enabled := true;
  Rule.priority := 30;
  Rule.apply := fun text _ =>
    let result := text in
    let result := replace (RegExp (js "(" ++ JA_CHAR ++ js "),") "g") (js "$1、") result in
    let result :=
      replace (RegExp (js "(" ++ JA_CHAR ++ js ")\.(?!\d)") "g") (js "$1。") result in
    let result := replace (RegExp (js "(" ++ JA_CHAR ++ js ")!") "g") (js "$1！") result in
    let result := replace (RegExp (js "(" ++ JA_CHAR ++ js ")\?") "g") (js "$1？") result in
    result
|}.

Definition jaQuotes : TypographyRule := {|
  Rule.id := "ja/quotes/corner";
  Rule.locale := ja; Rule.group := quotes; Rule.enabled := true;
  Rule.priority := 31;
  Rule.apply := fun text _ =>
    let result := text in
    let result :=
      replace (RegExp (js "[\u201c\x22\x22]([^\x22\x22\u201c\u201d]*?)[\u201d\x22\x22]") "g")
        (js "「$1」") result in
    let result :=
      replace (RegExp (js "「([^「」]*?)「([^「」]*?)」([^「」]*?)」") "g")
        (js "「$1『$2』$3」") result in
    result
|}.

Definition jaCjkLatinSpacing : TypographyRule := {|
  Rule.id := "ja/spaces/cjk-latin";
  Rule.locale := ja; Rule.group := spaces; Rule.enabled := true;
  Rule.priority := 50;
  Rule.apply := fun text _ =>
    let result := text in
    let result :=
      replace (RegExp (js "(" ++ JA_CHAR ++ js ")([a-zA-Z0-9])") "g") (js "$1 $2") result in
    let result :=
      replace (RegExp (js "([a-zA-Z0-9])(" ++ JA_CHAR ++ js ")") "g") (js "$1 $2") result in
    result
|}.

(** Characters that must not start a line. *)
Definition noStart : jsstring := js "、。，．・：；！？）」』】〉》〕｝〙〛»’”".

Definition jaKinsoku : TypographyRule := {|
  Rule.id := "ja/punctuation/kinsoku";
  Rule.locale := ja; Rule.group := punctuation; Rule.enabled := true;
  Rule.priority := 90;
  Rule.apply := fun text _ =>
    fold_left
      (fun result ch =>
         let escaped := escapeRegExp ch in
         replace (RegExp (js " (" ++ escaped ++ js ")") "g") (NBSP ++ js "$1") result)
      (spread noStart) text
|}.

Definition jaWidthNormalize : TypographyRule := {|
  Rule.id := "ja/width/normalize";
  Rule.locale := ja; Rule.group := width; Rule.enabled := true;
  Rule.priority := 25;
  Rule.apply := fun text _ =>
    let result := text in
    let result := replaceFn (RegExp (js "[\uff10-\uff19]") "g") toHalfwidth result in
    let result :=
      replaceFn (RegExp (js "[\uff21-\uff3a\uff41-\uff5a]") "g") toHalfwidth result in
    result
|}.

Definition jaRules : list TypographyRule :=
  [jaWidthNormalize; jaFullwidthPunctuation; jaQuotes; jaCjkLatinSpacing; jaKinsoku].

(** ** The engine (core/engine.ts) *)

(** All registered rules. *)
Definition ALL_RULES : list TypographyRule :=
  commonRules ++ ruRules ++ enRules ++ frRules ++ zhRules ++ jaRules.

(** Get rules applicable for a given locale, sorted by priority. *)
Definition getRulesForLocale (locale : Locale) : list TypographyRule :=
  sortBy Rule.priority
    (List.filter (fun r => Locale_eqb (Rule.locale r) locale
                      || Locale_eqb (Rule.locale r) common) ALL_RULES).

Definition getAllRules : list TypographyRule := ALL_RULES.

(** [settings.enabledRules[rule.id] ?? rule.enabled] *)
Definition isEnabled (settings : TypographySettings) (rule : TypographyRule) : bool :=
  match enabledRules settings !! Rule.id rule with
  | Some b => b
  | None => Rule.enabled rule
  end.

(** The body of the loop over the rules. *)
Definition applyRule (settings : TypographySettings) (locale : Locale)
    (result : jsstring) (rule : TypographyRule) : jsstring :=
  if negb (isEnabled settings rule) then result
  else
    Rule.apply rule result
      {| ctx_locale := locale; protectedRanges := findProtectedRanges result |}.

(** [!text || text.trim().length === 0] *)
Definition isBlank (text : jsstring) : bool :=
  match text with
  | [] => true
  | _ => len (trim text) =? 0
  end.

(** [settings.locale === 'auto' ? detectLocale(text) : settings.locale] *)
Definition resolveLocale (text : jsstring) (settings : TypographySettings) : Locale :=
  match settings_locale settings with
  | None => detectLocale text
  | Some l => l
  end.

Definition applyTypography (text : jsstring) (settings : TypographySettings) : jsstring :=
  if isBlank text then text
  else
    let locale := resolveLocale text settings in
    let rules := getRulesForLocale locale in
    fold_left (applyRule settings locale) rules text.

(** ** Vocabulary of the properties *)

(** The context a rule receives when it is applied to [text]. *)
Definition contextOf (locale : Locale) (text : jsstring) : RuleContext :=
  {| ctx_locale := locale; protectedRanges := findProtectedRanges text |}.

(** The settings with one more entry in [enabledRules]. *)
Definition withOverride (key : string) (v : bool) (settings : TypographySettings) :
    TypographySettings :=
  {| settings_locale := settings_locale settings;
     enabledRules := <[key := v]> (enabledRules settings) |}.

(** Whether the scan of the Russian quote rule classifies the marker at
    index [i] as opening: the condition [isOpening || isOpeningAfterQuote]
    of the source. *)
Definition opensAt (chars : list jsstring) (i : nat) : bool :=
  let before := if (0 <? i)%nat then nth (i - 1) chars [] else [SPACE] in
  (test (RegExp (js "[\s(\[{]") EmptyString) before || (i =? 0)%nat)
  || (eqs before (js "«") || eqs before (js "„")).

(** The glyphs that the normalisation pass of the Russian quote rule
    replaces. *)
Definition isQuoteGlyph (c : Z) : bool :=
  (c =? 0xAB) || (c =? 0xBB) || (c =? 0x201E) || (c =? 0x22)
  || (c =? 0x201C) || (c =? 0x201D).

(** ** Rule groups of a locale (core/engine.ts) *)

Definition RuleGroup_eqb (a b : RuleGroup) : bool :=
  match a, b with
  | quotes, quotes | dashes, dashes | spaces, spaces | numbers, numbers
  | currency, currency | punctuation, punctuation | case, case
  | special, special | yo, yo | width, width | layout, layout => true
  | _, _ => false
  end.

(** [new Set(xs)] inserts the values one by one and keeps a value that is
    already there in its place; [[...set]] lists the values in the order of
    insertion. *)
Definition setAdd (set : list RuleGroup) (x : RuleGroup) : list RuleGroup :=
  if existsb (RuleGroup_eqb x) set then set else set ++ [x].

Definition newSet (xs : list RuleGroup) : list RuleGroup := fold_left setAdd xs [].

(** Get unique rule groups for a locale. *)
Definition getRuleGroupsForLocale (locale : Locale) : list RuleGroup :=
  let rules := getRulesForLocale locale in
  newSet (map Rule.group rules).

(** ** More vocabulary of the properties *)

(** The name of a locale, as it is written in the source. *)
Definition Locale_name (l : Locale) : string :=
  match l with
  | ru => "ru" | en => "en" | fr => "fr" | zh => "zh" | ja => "ja"
  | common => "common"
  end.

(** The least number of code units a match of the pattern consumes. *)
Fixpoint minWidth (r : regex) : nat :=
  match r with
  | Chr _ | Any | Cls _ _ => 1
  | Seq r1 r2 => minWidth r1 + minWidth r2
  | Alt r1 r2 => Nat.min (minWidth r1) (minWidth r2)
  | Rep mn _ _ r1 => mn * minWidth r1
  | Grp _ r1 => minWidth r1
  | Empty | Bref _ | Bol | Eol | WordB _ | Look _ _ _ => 0
  end.

(** The name of a rule group, as it is written in the source. *)
Definition RuleGroup_name (g : RuleGroup) : string :=
  match g with
  | quotes => "quotes" | dashes => "dashes" | spaces => "spaces"
  | numbers => "numbers" | currency => "currency"
  | punctuation => "punctuation" | case => "case" | special => "special"
  | yo => "yo" | width => "width" | layout => "layout"
  end.

(** The settings in which every registered rule is switched off. *)
Definition allOff (locale : option Locale) : TypographySettings :=
  {| settings_locale := locale;
     enabledRules :=
       fold_right (fun r enabledRules => <[Rule.id r := false]> enabledRules)
         ∅ ALL_RULES |}.

(** What the anti-orphan rule may put in the place of a code unit: the
    code unit itself, or U+00A0 where it is U+0020. *)
Definition glued (c d : Z) : Prop := d = c \/ (c = SPACE /\ d = 0xA0).

(** What the Russian quote rule may put in the place of a code unit: one
    of its four markers where it is a quote glyph, the code unit itself
    everywhere else. *)
Definition requoted (c d : Z) : Prop :=
  if isQuoteGlyph c then d = 0xAB \/ d = 0x201E \/ d = 0xBB \/ d = 0x22
  else d = c.

(** What the decimal rule may do at offset [j]: the output [out] has the
    code unit of the input [a] there, or a comma where [a] has a full stop
    between two digits. *)
Definition commaAt (a out : jsstring) (j : nat) : Prop :=
  nth_error out j = nth_error a j
  \/ (nth_error a j = Some 46 /\ nth_error out j = Some 44
      /\ exists d1 d2 j',
           j = S j' /\ nth_error a j' = Some d1 /\ isDigit d1 = true
           /\ nth_error a (S j) = Some d2 /\ isDigit d2 = true).

(** ** Writing a text back to its node (utils/figma.ts) *)

(** Of a text node, [applyTextPreservingStyles] reads and edits the
    characters.  The two editing methods of the plugin API remove the code
    units from [start] (inclusive) to [end] (exclusive), and insert a text
    at [start]; they throw when the range does not lie in the text, and
    [None] stands for the exception. *)
Record TextNode : Type := { characters : jsstring }.

Definition deleteCharacters (start end_ : Z) (node : TextNode) : option TextNode :=
  if (0 <=? start) && (start <=? end_) && (end_ <=? len (characters node)) then
    Some {| characters :=
              firstn (Z.to_nat start) (characters node)
              ++ skipn (Z.to_nat end_) (characters node) |}
  else None.

Definition insertCharacters (start : Z) (chars : jsstring) (node : TextNode) :
    option TextNode :=
  if (0 <=? start) && (start <=? len (characters node)) then
    Some {| characters :=
              firstn (Z.to_nat start) (characters node) ++ chars
              ++ skipn (Z.to_nat start) (characters node) |}
  else None.

(** [a[i] === b[j]] *)
Definition sameAt (a : jsstring) (i : Z) (b : jsstring) (j : Z) : bool :=
  match at_ a i, at_ b j with
  | Some x, Some y => x =? y
  | None, None => true
  | _, _ => false
  end.

(** [s[i]] where a text is expected: [undefined] is read as the text of
    that word. *)
Definition unitAt (s : jsstring) (i : Z) : jsstring :=
  match at_ s i with
  | Some c => [c]
  | None => js "undefined"
  end.

(** [s.substring(a, b)] *)
Definition substring (s : jsstring) (a b : Z) : jsstring :=
  let a := Z.min (Z.max a 0) (len s) in
  let b := Z.min (Z.max b 0) (len s) in
  firstn (Z.to_nat (Z.max a b - Z.min a b)) (skipn (Z.to_nat (Z.min a b)) s).

(** The body of the loop of the equal-length case, at index [i]; the node
    is [None] once an editing call has thrown. *)
Definition replaceUnit (oldText newText : jsstring) (node : option TextNode) (i : nat) :
    option TextNode :=
  match node with
  | None => None
  | Some node =>
    if negb (sameAt oldText (Z.of_nat i) newText (Z.of_nat i)) then
      match deleteCharacters (Z.of_nat i) (Z.of_nat i + 1) node with
      | Some node => insertCharacters (Z.of_nat i) (unitAt newText (Z.of_nat i)) node
      | None => None
      end
    else Some node
  end.

(** The two [while] loops; [None] when the fuel runs out before the loop
    ends. *)
Fixpoint prefixLoop (fuel : nat) (oldText newText : jsstring) (minLen prefixLen : Z) :
    option Z :=
  match fuel with
  | O => None
  | S fuel =>
    if (prefixLen <? minLen) && sameAt oldText prefixLen newText prefixLen
    then prefixLoop fuel oldText newText minLen (prefixLen + 1)
    else Some prefixLen
  end.

Fixpoint suffixLoop (fuel : nat) (oldText newText : jsstring)
    (minLen prefixLen suffixLen : Z) : option Z :=
  match fuel with
  | O => None
  | S fuel =>
    if (suffixLen <? minLen - prefixLen)
       && sameAt oldText (len oldText - 1 - suffixLen) newText (len newText - 1 - suffixLen)
    then suffixLoop fuel oldText newText minLen prefixLen (suffixLen + 1)
    else Some suffixLen
  end.

(** Apply text changes while preserving formatting: the result is the
    returned flag and the node after the edits, or [None] when an editing
    call throws or a loop does not end. *)
Definition applyTextPreservingStyles (node : TextNode) (newText : jsstring) :
    option (bool * TextNode) :=
  let oldText := characters node in
  if eqs oldText newText then Some (false, node)
  else if len oldText =? len newText then
    match fold_left (replaceUnit oldText newText) (seq 0 (length oldText)) (Some node) with
    | Some node => Some (true, node)
    | None => None
    end
  else
    let minLen := Z.min (len oldText) (len newText) in
    match prefixLoop (S (length oldText)) oldText newText minLen 0 with
    | None => None
    | Some prefixLen =>
      match suffixLoop (S (length oldText)) oldText newText minLen prefixLen 0 with
      | None => None
      | Some suffixLen =>
        let oldMiddleStart := prefixLen in
        let oldMiddleEnd := len oldText - suffixLen in
        let newMiddle := substring newText prefixLen (len newText - suffixLen) in
        match (if oldMiddleStart <? oldMiddleEnd
               then deleteCharacters oldMiddleStart oldMiddleEnd node
               else Some node) with
        | None => None
        | Some node =>
          match (if 0 <? len newMiddle
                 then insertCharacters oldMiddleStart newMiddle node
                 else Some node) with
          | None => None
          | Some node => Some (true, node)
          end
        end
      end
    end.

(** The number of leading code units [c] of a text. *)
Fixpoint spanOf (c : Z) (a : list Z) : nat :=
  match a with
  | x :: a' => if x =? c then S (spanOf c a') else 0
  | [] => 0
  end.

(** Whether somewhere in a text two adjacent code units are both [c]. *)
Fixpoint adjacent (c : Z) (l : list Z) : bool :=
  match l with
  | x :: l' => ((x =? c) && (0 <? spanOf c l')%nat) || adjacent c l'
  | [] => false
  end.

(** The fullwidth digits and Latin letters, and the code unit that the
    width rules write for a code unit. *)
Definition isFullwidthAlnum (c : Z) : bool :=
  inRange 0xFF10 0xFF19 c || inRange 0xFF21 0xFF3A c || inRange 0xFF41 0xFF5A c.

Definition halfwidth (c : Z) : Z := if isFullwidthAlnum c then c - 0xFEE0 else c.

(** The number of leading code units of a text that satisfy [p]. *)
Fixpoint spanBy (p : Z -> bool) (a : list Z) : nat :=
  match a with
  | x :: a' => if p x then S (spanBy p a') else 0
  | [] => 0
  end.

(** The code units that the URL pattern accepts after the scheme: all but
    whitespace, angle brackets and quotes. *)
Definition urlChar (c : Z) : bool :=
  negb (isWhiteSpace c || (c =? 0x3C) || (c =? 0x3E) || (c =? 0x22) || (c =? 0x27)
        || (c =? 0xAB) || (c =? 0xBB) || (c =? 0x201E)).

(** ** Finding the text nodes (utils/figma.ts) *)

(** A node of the document, as far as the search reads it: its type and,
    for the node types that have them, its children. *)
#[warnings="-register-all"]
Inductive SceneNode : Type :=
| SceneNodeOf (type : string) (children : option (list SceneNode)).

Definition node_type (n : SceneNode) : string :=
  match n with SceneNodeOf type _ => type end.

Definition node_children (n : SceneNode) : option (list SceneNode) :=
  match n with SceneNodeOf _ children => children end.

(** The inner function [walk]; the array [textNodes] it pushes to is
    passed along. *)
Fixpoint walk (n : SceneNode) (textNodes : list SceneNode) : list SceneNode :=
  match n with
  | SceneNodeOf type children =>
    if String.eqb type "TEXT" then textNodes ++ [n]
    else
      match children with
      | Some children => fold_left (fun textNodes child => walk child textNodes) children textNodes
      | None => textNodes
      end
  end.

(** Recursively find all TEXT nodes within a node tree. *)
Definition findTextNodes (node : SceneNode) : list SceneNode := walk node [].

(** Induction on a node tree. *)
Fixpoint SceneNode_induction (P : SceneNode -> Prop)
    (leaf : forall type, P (SceneNodeOf type None))
    (inner : forall type children,
        Forall P children -> P (SceneNodeOf type (Some children)))
    (n : SceneNode) : P n :=
  match n with
  | SceneNodeOf type None => leaf type
  | SceneNodeOf type (Some children) =>
    inner type children
      ((fix all (l : list SceneNode) : Forall P l :=
          match l with
          | [] => @List.Forall_nil _ P
          | c :: l' =>
            @List.Forall_cons _ P c l' (SceneNode_induction P leaf inner c) (all l')
          end) children)
  end.

(** A text with a thin space (U+2009) behind each of its marked code
    units. *)
Definition withThinSpaces (text : jsstring) (marks : list bool) : jsstring :=
  flat_map (fun '(c, mark) => if mark : bool then [c; 0x2009] else [c])
    (combine text marks).

(** Whether somewhere in a text the code unit [x] is followed by [y]. *)
Fixpoint hasPair (x y : Z) (l : list Z) : bool :=
  match l with
  | c1 :: l' =>
    match l' with
    | c2 :: _ => (c1 =? x) && (c2 =? y)
    | [] => false
    end || hasPair x y l'
  | [] => false
  end.

(** ** Texts that no rule reacts to *)

(** The lowercase Cyrillic letters other than [е]. *)
Definition LOWER_CYRILLIC : jsstring := js "абвгджзийклмнопрстуфхцчшщъыьэюяё".

(** Every code unit of [text] is one of [letters]. *)
Definition onlyOf (letters text : jsstring) : bool :=
  forallb (fun c => existsb (Z.eqb c) letters) text.

(** A sufficient test for a pattern to match nowhere in a text made of
    [letters]: some term that every match has to go through reads a code
    unit, and accepts none of [letters] (or is a word boundary, and none of
    [letters] is a word character). *)
Fixpoint unmatchable (ic : bool) (letters : list Z) (r : regex) : bool :=
  match r with
  | Chr c => forallb (fun x => negb (canon ic x =? canon ic c)) letters
  | Any => forallb isLineTerminator letters
  | Cls neg items => forallb (fun x => negb (cls_match ic neg items x)) letters
  | Seq r1 r2 => unmatchable ic letters r1 || unmatchable ic letters r2
  | Alt r1 r2 => unmatchable ic letters r1 && unmatchable ic letters r2
  | Rep mn _ _ r1 => (0 <? mn)%nat && unmatchable ic letters r1
  | Grp _ r1 => unmatchable ic letters r1
  | Look _ false r1 => unmatchable ic letters r1
  | WordB false => forallb (fun x => negb (isWordChar x)) letters
  | _ => false
  end.

Definition unmatchableRe (letters : list Z) (re : regexp) : bool :=
  unmatchable (ignoreCase (re_flags re)) letters (re_ast re).

(** * Properties *)

(** ** Auxiliary facts on lists *)

Lemma In_insertBy {A : Type} (key : A -> Z) (x y : A) (l : list A) :
  In y (insertBy key x l) <-> y = x \/ In y l.
Proof.
  induction l as [|z l IH]; simpl.
  - intuition.
  - destruct (key x <=? key z); simpl; rewrite ?IH; intuition.
Qed.

Lemma In_sortBy {A : Type} (key : A -> Z) (y : A) (l : list A) :
  In y (sortBy key l) <-> In y l.
Proof.
  induction l as [|x l IH]; simpl.
  - reflexivity.
  - rewrite In_insertBy, IH. intuition.
Qed.

Lemma fold_left_ext_In {A B : Type} (f g : A -> B -> A) (l : list B) :
  (forall a x, In x l -> f a x = g a x) ->
  forall a, fold_left f l a = fold_left g l a.
Proof.
  induction l as [|x l IH]; intros H a; simpl.
  - reflexivity.
  - rewrite (H a x) by (left; reflexivity).
    apply IH. intros a' y Hy. apply H. right. exact Hy.
Qed.

Lemma fold_left_filter {A B : Type} (p : B -> bool) (f : A -> B -> A) (l : list B) :
  forall a,
    fold_left (fun a x => if negb (p x) then a else f a x) l a
    = fold_left f (List.filter p l) a.
Proof.
  induction l as [|x l IH]; intros a; simpl.
  - reflexivity.
  - destruct (p x); simpl; apply IH.
Qed.

Lemma fold_left_fixed {A B : Type} (f : A -> B -> A) (l : list B) (a : A) :
  (forall x, In x l -> f a x = a) -> fold_left f l a = a.
Proof.
  induction l as [|x l IH]; intros H; simpl.
  - reflexivity.
  - rewrite (H x) by (left; reflexivity).
    apply IH. intros y Hy. apply H. right. exact Hy.
Qed.

(** ** Language detection *)

(** C6: the detector returns [ru], [zh], [ja] (kana wins over kanji), [en]
    for the empty text and for digits, and [ru] for the mixed text in which
    Cyrillic dominates. *)
Theorem detectLocale_examples :
  detectLocale (js "Привет, как дела?") = ru
  /\ detectLocale (js "你好世界，这是一个测试") = zh
  /\ detectLocale (js "こんにちは世界、テストです") = ja
  /\ detectLocale [] = en
  /\ detectLocale (js "12345") = en
  /\ detectLocale (js "Привет world, как дела today?") = ru.
Proof. repeat split; vm_compute; reflexivity. Qed.

(** C7, as stated, fails: the text "é" has one classifiable character, a
    French diacritic; no earlier threshold fires, the count of diacritics is
    positive and their share is 1 > 0.03, the Latin count is zero, and the
    detector answers [en]. *)
Lemma detectLocale_diacritics_without_latin :
  total (countChars (js "é")) <> 0
  /\ ratioGt (hiraganaKatakana (countChars (js "é"))) (total (countChars (js "é"))) 5 100 = false
  /\ ratioGt (cjk (countChars (js "é"))) (total (countChars (js "é"))) 2 10 = false
  /\ ratioGt (cyrillic (countChars (js "é"))) (total (countChars (js "é"))) 2 10 = false
  /\ 0 < french (countChars (js "é"))
  /\ ratioGt (french (countChars (js "é")))
       (french (countChars (js "é")) + latin (countChars (js "é"))) 3 100 = true
  /\ latin (countChars (js "é")) = 0
  /\ detectLocale (js "é") <> fr.
Proof. vm_compute. repeat split; discriminate. Qed.

(** C7, amended: when no earlier threshold fires, the count of French
    diacritics is positive and their share of the Latin and French letters
    exceeds 0.03, the detector answers [fr] provided the text has a plain
    Latin letter, and [en] when it has none. *)
Theorem detectLocale_french_diacritics (text : jsstring) :
  total (countChars text) <> 0 ->
  ratioGt (hiraganaKatakana (countChars text)) (total (countChars text)) 5 100 = false ->
  ratioGt (cjk (countChars text)) (total (countChars text)) 2 10 = false ->
  ratioGt (cyrillic (countChars text)) (total (countChars text)) 2 10 = false ->
  0 < french (countChars text) ->
  ratioGt (french (countChars text))
    (french (countChars text) + latin (countChars text)) 3 100 = true ->
  (0 < latin (countChars text) -> detectLocale text = fr)
  /\ (latin (countChars text) = 0 -> detectLocale text = en).
Proof.
  intros Ht Hk Hc Hr Hf Hratio. unfold detectLocale.
  apply Z.eqb_neq in Ht. rewrite Ht, Hk, Hc, Hr.
  rewrite (Z.add_comm (latin _) (french _)), Hratio.
  apply Z.ltb_lt in Hf. rewrite Hf. split; intros Hl.
  - apply Z.ltb_lt in Hl. rewrite Hl. reflexivity.
  - rewrite Hl. simpl. rewrite andb_false_r. reflexivity.
Qed.

Lemma detectLocale_french_diacritics_witness :
  detectLocale (js "café") = fr /\ detectLocale (js "éé") = en.
Proof.
  split.
  - apply (detectLocale_french_diacritics (js "café")); vm_compute;
      reflexivity || discriminate.
  - apply (detectLocale_french_diacritics (js "éé")); vm_compute;
      reflexivity || discriminate.
Defined.

(** ** The engine *)

Lemma eqs_eq (a b : jsstring) : eqs a b = true -> a = b.
Proof.
  revert b. induction a as [|x a IH]; intros [|y b]; simpl; try discriminate.
  - reflexivity.
  - intros H. apply andb_prop in H. destruct H as [Hx Hab].
    apply Z.eqb_eq in Hx. rewrite Hx, (IH b Hab). reflexivity.
Qed.

Lemma trimEnd_whitespace (s : jsstring) :
  Forall (fun c => isWhiteSpace c = true) s -> trimEnd s = [].
Proof.
  induction 1 as [|c s Hc Hs IH]; simpl.
  - reflexivity.
  - rewrite IH, Hc. reflexivity.
Qed.

Lemma isBlank_whitespace (text : jsstring) :
  Forall (fun c => isWhiteSpace c = true) text -> isBlank text = true.
Proof.
  intros H. unfold isBlank, trim. rewrite (trimEnd_whitespace text H).
  destruct text; reflexivity.
Qed.

(** C9: an empty or all-whitespace text is returned unchanged, whatever the
    settings. *)
Theorem applyTypography_blank (text : jsstring) (settings : TypographySettings) :
  Forall (fun c => isWhiteSpace c = true) text ->
  applyTypography text settings = text.
Proof.
  intros H. unfold applyTypography. rewrite (isBlank_whitespace text H). reflexivity.
Qed.

Lemma applyTypography_blank_witness :
  applyTypography [0x20; 0x09; 0x0A; 0xA0]
    {| settings_locale := Some ru; enabledRules := {["ru/yo/basic" := false]} |}
  = [0x20; 0x09; 0x0A; 0xA0]
  /\ applyTypography [] {| settings_locale := None; enabledRules := ∅ |} = [].
Proof.
  split.
  - apply applyTypography_blank. repeat constructor.
  - apply applyTypography_blank. constructor.
Defined.

Lemma getRulesForLocale_registered (locale : Locale) (r : TypographyRule) :
  In r (getRulesForLocale locale) -> In r ALL_RULES.
Proof.
  unfold getRulesForLocale. rewrite In_sortBy. intros H.
  apply List.filter_In in H. apply H.
Qed.

(** C10: an entry of [enabledRules] whose key is the id of no registered
    rule does not change the result. *)
Theorem applyTypography_unknown_rule_id
    (text : jsstring) (settings : TypographySettings) (key : string) (v : bool) :
  ~ In key (map Rule.id ALL_RULES) ->
  applyTypography text (withOverride key v settings) = applyTypography text settings.
Proof.
  intros Hkey. unfold applyTypography, resolveLocale. simpl.
  destruct (isBlank text); [reflexivity|].
  apply fold_left_ext_In. intros a r Hr.
  unfold applyRule, isEnabled. simpl.
  rewrite lookup_insert_ne; [reflexivity|].
  intros Heq. apply Hkey. rewrite Heq.
  apply in_map. exact (getRulesForLocale_registered _ r Hr).
Qed.

Lemma applyTypography_unknown_rule_id_witness :
  applyTypography (js "еще 3.14")
    (withOverride "ru/yo/advanced" false {| settings_locale := Some ru; enabledRules := ∅ |})
  = applyTypography (js "еще 3.14") {| settings_locale := Some ru; enabledRules := ∅ |}.
Proof.
  apply applyTypography_unknown_rule_id.
  vm_compute. intros H.
  repeat (destruct H as [H|H]; [discriminate H|]). exact H.
Defined.

(** C2: the effective state of a rule is its entry in [enabledRules] when
    there is one and its shipped default otherwise; the result of
    [applyTypography] on a text that is not blank is the text folded through
    exactly the rules of the locale whose effective state is true, in
    priority order; with the entry ["ru/yo/basic"] set to [false] the
    yo-fication rule, enabled by default, is none of them, and its
    substitution does not occur. *)
Theorem applyTypography_enabled_rules :
  (forall settings rule b,
      enabledRules settings !! Rule.id rule = Some b -> isEnabled settings rule = b)
  /\ (forall settings rule,
      enabledRules settings !! Rule.id rule = None ->
      isEnabled settings rule = Rule.enabled rule)
  /\ (forall text settings,
      applyTypography text settings =
      if isBlank text then text
      else fold_left
             (fun result rule =>
                Rule.apply rule result (contextOf (resolveLocale text settings) result))
             (List.filter (isEnabled settings)
                (getRulesForLocale (resolveLocale text settings)))
             text)
  /\ (forall text settings rule,
      enabledRules settings !! "ru/yo/basic" = Some false ->
      In rule (List.filter (isEnabled settings)
                 (getRulesForLocale (resolveLocale text settings))) ->
      Rule.id rule <> "ru/yo/basic")
  /\ Rule.enabled ruYo = true
  /\ applyTypography (js "Еще один самолет")
       {| settings_locale := Some ru; enabledRules := {["ru/yo/basic" := false]} |}
     = js "Еще один самолет"
  /\ applyTypography (js "Еще один самолет")
       {| settings_locale := Some ru; enabledRules := ∅ |}
     = js "Ещё один самолёт".
Proof.
  split; [|split; [|split; [|split; [|split; [|split]]]]].
  - intros settings rule b H. unfold isEnabled. rewrite H. reflexivity.
  - intros settings rule H. unfold isEnabled. rewrite H. reflexivity.
  - intros text settings. unfold applyTypography.
    destruct (isBlank text); [reflexivity|].
    rewrite <- fold_left_filter. reflexivity.
  - intros text settings rule Hyo Hin Hid.
    apply List.filter_In in Hin. destruct Hin as [_ Hen].
    unfold isEnabled in Hen. rewrite Hid, Hyo in Hen. discriminate.
  - reflexivity.
  - vm_compute. reflexivity.
  - vm_compute. reflexivity.
Qed.

Lemma applyTypography_enabled_rules_witness :
  isEnabled {| settings_locale := Some ru; enabledRules := {["ru/yo/basic" := false]} |} ruYo
  = false
  /\ isEnabled {| settings_locale := Some ru; enabledRules := ∅ |} ruYo = true.
Proof.
  split.
  - apply (proj1 applyTypography_enabled_rules). reflexivity.
  - apply (proj1 (proj2 applyTypography_enabled_rules)). reflexivity.
Defined.

(** ** Russian quotes *)

Lemma quoteScan_S (chars : list jsstring) (n : nat) :
  quoteScan chars (S n) = quoteStep chars (quoteScan chars n) n.
Proof.
  unfold quoteScan. rewrite seq_S, fold_left_app. reflexivity.
Qed.

Lemma quoteScan_add (chars : list jsstring) (n k : nat) :
  quoteScan chars (n + k) = fold_left (quoteStep chars) (seq n k) (quoteScan chars n).
Proof.
  unfold quoteScan. rewrite seq_app, fold_left_app. reflexivity.
Qed.

Lemma quoteStep_marker (chars : list jsstring) (depth : Z) (output : list jsstring)
    (i : nat) :
  nth i chars [] = [QUOT] ->
  quoteStep chars (depth, output) i =
  if opensAt chars i
  then (depth + 1, output ++ [if depth =? 0 then js "«" else js "„"])
  else if depth - 1 <=? 0 then (0, output ++ [js "»"])
       else (depth - 1, output ++ [[QUOT]]).
Proof.
  intros H. unfold quoteStep, opensAt. rewrite H. reflexivity.
Qed.

Lemma quoteStep_other (chars : list jsstring) (depth : Z) (output : list jsstring)
    (i : nat) :
  eqs (nth i chars []) [QUOT] = false ->
  quoteStep chars (depth, output) i = (depth, output ++ [nth i chars []]).
Proof.
  intros H. unfold quoteStep. rewrite H. reflexivity.
Qed.

Lemma quoteStep_depth (chars : list jsstring) (st : Z * list jsstring) (i : nat) :
  0 <= fst st -> 0 <= fst (quoteStep chars st i).
Proof.
  destruct st as [depth output]. intros Hd. change (0 <= depth) in Hd.
  destruct (eqs (nth i chars []) [QUOT]) eqn:Hq.
  - rewrite quoteStep_marker by (apply eqs_eq; exact Hq).
    destruct (opensAt chars i); simpl; [lia|].
    destruct (depth - 1 <=? 0) eqn:Hle; simpl; [lia|].
    apply Z.leb_gt in Hle. lia.
  - rewrite quoteStep_other by exact Hq. simpl. exact Hd.
Qed.

Lemma quoteScan_depth (chars : list jsstring) (n : nat) :
  0 <= fst (quoteScan chars n).
Proof.
  induction n as [|n IH].
  - simpl. lia.
  - rewrite quoteScan_S. apply quoteStep_depth. exact IH.
Qed.

(** C3: the depth counter is never negative, after any number of steps of
    the scan over any text; a closing marker met at depth 0 is written as
    the outer closing glyph and leaves the depth at 0, and the scan of the
    markers after it goes on from depth 0. *)
Theorem ruQuotes_depth_nonnegative :
  (forall (text : jsstring) (n : nat),
      0 <= fst (quoteScan (spread (normalizeQuotes text)) n))
  /\ (forall (chars : list jsstring) (i k : nat),
      nth i chars [] = [QUOT] ->
      opensAt chars i = false ->
      fst (quoteScan chars i) = 0 ->
      quoteScan chars (S i) = (0, snd (quoteScan chars i) ++ [js "»"])
      /\ quoteScan chars (S i + k)
         = fold_left (quoteStep chars) (seq (S i) k)
             (0, snd (quoteScan chars i) ++ [js "»"])).
Proof.
  split.
  - intros text n. apply quoteScan_depth.
  - intros chars i k Hq Hcl Hd.
    assert (Hstep : quoteScan chars (S i) = (0, snd (quoteScan chars i) ++ [js "»"])).
    { rewrite quoteScan_S. destruct (quoteScan chars i) as [depth output].
      simpl in Hd. subst depth. rewrite quoteStep_marker by exact Hq.
      rewrite Hcl. reflexivity. }
    split; [exact Hstep|].
    rewrite quoteScan_add, Hstep. reflexivity.
Qed.

Lemma ruQuotes_depth_nonnegative_witness :
  quoteScan (spread (js "a" ++ [QUOT] ++ js " " ++ [QUOT] ++ js "b" ++ [QUOT])) (2 + 4)
  = (0, [js "a"; js "»"; js " "; js "«"; js "b"; js "»"]).
Proof.
  destruct (proj2 ruQuotes_depth_nonnegative
              (spread (js "a" ++ [QUOT] ++ js " " ++ [QUOT] ++ js "b" ++ [QUOT]))
              1%nat 4%nat) as [_ H].
  - vm_compute. reflexivity.
  - vm_compute. reflexivity.
  - vm_compute. reflexivity.
  - rewrite H. vm_compute. reflexivity.
Defined.

(** ** Facts on the matcher *)

(** A pattern that is one character class matches one code unit. *)
Lemma matchAt_class (re : regexp) (neg : bool) (items : list citem) (b a : list Z) :
  re_ast re = Cls neg items ->
  matchAt re b a =
  match a with
  | c :: a' =>
    if cls_match (ignoreCase (re_flags re)) neg items c
    then Some (MState (c :: b) a' [])
    else None
  | [] => None
  end.
Proof.
  intros H. unfold matchAt. rewrite H. destruct a as [|c a']; reflexivity.
Qed.

Lemma length_cons_sub {A : Type} (c : A) (a : list A) :
  (length (c :: a) - length a = 1)%nat.
Proof. simpl. lia. Qed.

(** Replacing every match of a character class by a fixed text. *)
Lemma replaceGo_class (re : regexp) (neg : bool) (items : list citem) (r : jsstring) :
  re_ast re = Cls neg items ->
  forall a b,
    replaceGo re (fun _ => r) 0 b a =
    flat_map (fun c => if cls_match (ignoreCase (re_flags re)) neg items c
                       then r else [c]) a.
Proof.
  intros H a. induction a as [|c a IH]; intros b.
  - simpl. rewrite (matchAt_class re neg items b [] H). reflexivity.
  - cbn [replaceGo flat_map]. rewrite (matchAt_class re neg items b (c :: a) H).
    destruct (cls_match (ignoreCase (re_flags re)) neg items c).
    + cbn [aft]. rewrite length_cons_sub. rewrite IH. reflexivity.
    + rewrite IH. reflexivity.
Qed.

Lemma normalizeQuotes_regexp :
  RegExp (js "[«»„\x22\x22\x22\u201c\u201d\u201e]") "g" =
  RegExpOf
    (Cls false
       [CRange 0xAB 0xAB; CRange 0xBB 0xBB; CRange 0x201E 0x201E;
        CRange 0x22 0x22; CRange 0x22 0x22; CRange 0x22 0x22;
        CRange 0x201C 0x201C; CRange 0x201D 0x201D; CRange 0x201E 0x201E])
    (Flags true false false).
Proof. vm_compute. reflexivity. Qed.

Lemma inRange_single (x c : Z) : inRange x x c = (c =? x).
Proof.
  unfold inRange. destruct (Z.eqb_spec c x) as [->|Hne].
  - rewrite Z.leb_refl. reflexivity.
  - destruct (Z.leb_spec x c), (Z.leb_spec c x); try reflexivity. lia.
Qed.

(** The normalisation pass maps every quote glyph to the straight quote and
    keeps every other code unit. *)
Lemma normalizeQuotes_map (text : jsstring) :
  normalizeQuotes text = map (fun c => if isQuoteGlyph c then QUOT else c) text.
Proof.
  unfold normalizeQuotes, replace, replaceFn. rewrite normalizeQuotes_regexp.
  cbn [re_flags global re_ast groups length template expand].
  set (items := [CRange 171 171; _; _; _; _; _; _; _; _]).
  transitivity (replaceGo (RegExpOf (Cls false items) (Flags true false false))
                  (fun _ => [QUOT]) 0 [] text); [reflexivity|].
  rewrite (replaceGo_class (RegExpOf (Cls false items) (Flags true false false))
             false items [QUOT] eq_refl).
  induction text as [|c text IH]; [reflexivity|].
  cbn [flat_map map]. rewrite IH.
  replace (cls_match (ignoreCase (re_flags (RegExpOf (Cls false items)
             (Flags true false false)))) false items c) with (isQuoteGlyph c).
  - destruct (isQuoteGlyph c); reflexivity.
  - unfold cls_match, items, item_match, item_in, isQuoteGlyph.
    cbn [existsb re_flags ignoreCase andb xorb].
    rewrite !inRange_single, !orb_false_r.
    destruct (c =? 171), (c =? 187), (c =? 8222), (c =? 34), (c =? 8220), (c =? 8221);
      reflexivity.
Qed.

Lemma eqs_refl (a : jsstring) : eqs a a = true.
Proof.
  induction a as [|x a IH]; simpl; [reflexivity|].
  rewrite Z.eqb_refl, IH. reflexivity.
Qed.

Lemma eqs_neq (a b : jsstring) : a <> b -> eqs a b = false.
Proof.
  intros H. destruct (eqs a b) eqn:E; [|reflexivity].
  exfalso. apply H. apply eqs_eq. exact E.
Qed.

(** An element of [[...s]] that is one code unit is a code unit of [s]. *)
Lemma spread_unit_bounded (n : nat) :
  forall (s : jsstring) (x : Z),
    (length s <= n)%nat -> In [x] (spread s) -> In x s.
Proof.
  induction n as [|n IH]; intros s x Hn Hin.
  - destruct s; [destruct Hin | simpl in Hn; lia].
  - destruct s as [|c [|d s]].
    + destruct Hin.
    + simpl in Hin. destruct Hin as [Hin|[]]. injection Hin as ->. left. reflexivity.
    + cbn [spread] in Hin.
      destruct (isHighSurrogate c && isLowSurrogate d).
      * destruct Hin as [Hin|Hin]; [discriminate Hin|].
        right. right. apply IH; [simpl in Hn |- *; lia | exact Hin].
      * destruct Hin as [Hin|Hin].
        -- injection Hin as ->. left. reflexivity.
        -- right. apply IH; [simpl in Hn |- *; lia | exact Hin].
Qed.

Lemma spread_unit (s : jsstring) (x : Z) : In [x] (spread s) -> In x s.
Proof. apply (spread_unit_bounded (length s)). lia. Qed.

Lemma normalizeQuotes_no_glyph (text : jsstring) (c : Z) :
  isQuoteGlyph c = true -> c <> QUOT -> ~ In c (normalizeQuotes text).
Proof.
  intros Hg Hq Hin. rewrite normalizeQuotes_map in Hin.
  apply in_map_iff in Hin. destruct Hin as [x [Hx _]].
  destruct (isQuoteGlyph x) eqn:Hgx.
  - apply Hq. symmetry. exact Hx.
  - subst x. rewrite Hg in Hgx. discriminate.
Qed.

Lemma nth_not_glyph (text : jsstring) (i : nat) (c : Z) :
  isQuoteGlyph c = true -> c <> QUOT ->
  nth i (spread (normalizeQuotes text)) [] <> [c].
Proof.
  intros Hg Hq Hnth.
  destruct (Nat.lt_ge_cases i (length (spread (normalizeQuotes text)))) as [Hlt|Hge].
  - apply (normalizeQuotes_no_glyph text c Hg Hq).
    apply spread_unit. rewrite <- Hnth. apply nth_In. exact Hlt.
  - rewrite nth_overflow in Hnth by exact Hge. discriminate.
Qed.

(** C4 fails on the code.  The scan reads the preceding character from the
    normalised text, in which every opening glyph has been replaced by the
    straight quote: for every text and every index the test
    [before === '«' || before === '„'] is false, so a marker that follows
    another marker is never opening through it; two adjacent straight quotes
    after a space come out as an opening and a closing guillemet. *)
Theorem ruQuotes_adjacent_openers :
  (forall (text : jsstring) (i : nat),
      eqs (if (0 <? i)%nat then nth (i - 1) (spread (normalizeQuotes text)) []
           else [SPACE]) (js "«")
      || eqs (if (0 <? i)%nat then nth (i - 1) (spread (normalizeQuotes text)) []
              else [SPACE]) (js "„") = false)
  /\ (forall ctx,
      Rule.apply ruQuotes (js " " ++ [QUOT; QUOT] ++ js "слово" ++ [QUOT; QUOT]) ctx
      = js " «»слово»»").
Proof.
  split.
  - intros text i. destruct (0 <? i)%nat; [|reflexivity].
    rewrite (eqs_neq _ (js "«")), (eqs_neq _ (js "„")); [reflexivity| |].
    + apply (nth_not_glyph text (i - 1) 0x201E); [reflexivity | discriminate].
    + apply (nth_not_glyph text (i - 1) 0xAB); [reflexivity | discriminate].
  - intros ctx. vm_compute. reflexivity.
Qed.

(** ** The anti-orphan rule *)

Lemma split_nonempty (sep : Z) (s : jsstring) : split sep s <> [].
Proof.
  destruct s as [|c s]; simpl; [discriminate|].
  destruct (c =? sep); [discriminate|].
  destruct (split sep s); discriminate.
Qed.

Lemma join_split (sep : Z) (s : jsstring) : join [sep] (split sep s) = s.
Proof.
  induction s as [|c s IH]; [reflexivity|].
  simpl. pose proof (split_nonempty sep s) as Hne.
  destruct (split sep s) as [|t ts] eqn:E; [contradiction|].
  destruct (Z.eqb_spec c sep) as [->|Hc].
  - change (join [sep] ([] :: t :: ts)) with ([sep] ++ join [sep] (t :: ts)).
    rewrite IH. reflexivity.
  - destruct ts as [|u ts].
    + simpl in IH |- *. rewrite IH. reflexivity.
    + change (join [sep] ((c :: t) :: u :: ts))
        with (c :: t ++ [sep] ++ join [sep] (u :: ts)).
      change (join [sep] (t :: u :: ts)) with (t ++ [sep] ++ join [sep] (u :: ts)) in IH.
      rewrite IH. reflexivity.
Qed.

(** [trimEnd] removes a suffix of whitespace. *)
Lemma trimEnd_suffix (s : jsstring) :
  exists ws, s = trimEnd s ++ ws /\ Forall (fun c => isWhiteSpace c = true) ws.
Proof.
  induction s as [|c s [ws [Hs Hws]]].
  - exists []. split; [reflexivity | constructor].
  - simpl. destruct (trimEnd s) as [|t ts] eqn:E.
    + destruct (isWhiteSpace c) eqn:Hc.
      * exists (c :: s). split; [reflexivity|].
        constructor; [exact Hc|]. simpl in Hs. rewrite Hs. exact Hws.
      * exists ws. split; [|exact Hws]. simpl in Hs |- *. rewrite <- Hs. reflexivity.
    + exists ws. split; [|exact Hws]. simpl in Hs |- *. rewrite <- Hs. reflexivity.
Qed.

Lemma slice_app (s ws : jsstring) : slice (s ++ ws) (len s) = ws.
Proof.
  unfold slice, len. rewrite Nat2Z.id.
  rewrite skipn_app, skipn_all, Nat.sub_diag. reflexivity.
Qed.

Lemma join_app_two (sep : jsstring) (pre : list jsstring) (a b : jsstring) :
  pre <> [] ->
  join sep (pre ++ [a; b]) = join sep pre ++ sep ++ a ++ sep ++ b.
Proof.
  induction pre as [|t pre IH]; intros Hne; [contradiction|].
  destruct pre as [|u pre].
  - reflexivity.
  - change (join sep ((t :: u :: pre) ++ [a; b]))
      with (t ++ sep ++ join sep ((u :: pre) ++ [a; b])).
    rewrite IH by discriminate.
    change (join sep (t :: u :: pre)) with (t ++ sep ++ join sep (u :: pre)).
    rewrite <- !app_assoc. reflexivity.
Qed.

(** C8: the rule works line by line; a line whose right-trimmed text has
    fewer than three tokens between its U+0020 characters is unchanged; a
    line with at least three such tokens changes in one place only: the
    space between its last two tokens becomes U+00A0.  The line of the
    example gets its last two words glued. *)
Theorem nbspOrphan_last_two_tokens :
  (forall text ctx,
      Rule.apply nbspOrphan text ctx = join [LF] (map orphanLine (split LF text)))
  /\ (forall line,
      (length (split SPACE (trimEnd line)) < 3)%nat -> orphanLine line = line)
  /\ (forall line pre a b,
      split SPACE (trimEnd line) = pre ++ [a; b] ->
      pre <> [] ->
      exists ws,
        Forall (fun c => isWhiteSpace c = true) ws
        /\ line = join [SPACE] pre ++ [SPACE] ++ a ++ [SPACE] ++ b ++ ws
        /\ orphanLine line = join [SPACE] pre ++ [SPACE] ++ a ++ NBSP ++ b ++ ws)
  /\ (forall ctx,
      Rule.apply nbspOrphan (js "Это простой тест для проверки") ctx
      = js "Это простой тест для" ++ NBSP ++ js "проверки").
Proof.
  split; [|split; [|split]].
  - reflexivity.
  - intros line H. unfold orphanLine.
    apply Nat.ltb_lt in H. rewrite H. reflexivity.
  - intros line pre a b Htok Hpre.
    destruct (trimEnd_suffix line) as [ws [Hline Hws]].
    exists ws. split; [exact Hws|].
    assert (Htrim : trimEnd line = join [SPACE] pre ++ [SPACE] ++ a ++ [SPACE] ++ b).
    { rewrite <- (join_split SPACE (trimEnd line)), Htok.
      apply join_app_two. exact Hpre. }
    split.
    + rewrite Hline at 1. rewrite Htrim, <- !app_assoc. reflexivity.
    + unfold orphanLine. rewrite Htok.
      assert (Hlen : (length (pre ++ [a; b]) <? 3)%nat = false).
      { apply Nat.ltb_ge. rewrite length_app. simpl.
        destruct pre; [contradiction | simpl; lia]. }
      rewrite Hlen.
      assert (Hn : (length (pre ++ [a; b]) - 2 = length pre)%nat)
        by (rewrite length_app; simpl; lia).
      rewrite Hn, firstn_app, firstn_all, Nat.sub_diag, app_nil_r.
      rewrite skipn_app, skipn_all, Nat.sub_diag. cbn [skipn app join].
      rewrite Hline at 1. rewrite slice_app, <- !app_assoc. reflexivity.
  - intros ctx. vm_compute. reflexivity.
Qed.

Lemma nbspOrphan_last_two_tokens_witness :
  orphanLine (js "Два слова  ") = js "Два слова  "
  /\ exists ws,
       Forall (fun c => isWhiteSpace c = true) ws
       /\ js "Три коротких слова   "
          = join [SPACE] [js "Три"] ++ [SPACE] ++ js "коротких" ++ [SPACE] ++ js "слова" ++ ws
       /\ orphanLine (js "Три коротких слова   ")
          = join [SPACE] [js "Три"] ++ [SPACE] ++ js "коротких" ++ NBSP ++ js "слова" ++ ws.
Proof.
  split.
  - apply (proj1 (proj2 nbspOrphan_last_two_tokens)). vm_compute. lia.
  - apply (proj1 (proj2 (proj2 nbspOrphan_last_two_tokens))).
    + vm_compute. reflexivity.
    + discriminate.
Defined.

(** ** Facts on searching *)

(** The match attempt at offset [k] of [text]. *)
Lemma zipper_at (text b a : list Z) :
  rev b ++ a = text ->
  rev (firstn (length b) text) = b /\ skipn (length b) text = a.
Proof.
  intros <-. rewrite <- (length_rev b).
  rewrite firstn_app, firstn_all, Nat.sub_diag, app_nil_r.
  rewrite skipn_app, skipn_all, Nat.sub_diag. simpl.
  rewrite rev_involutive. split; reflexivity.
Qed.

Lemma zipper_step (text b a : list Z) (c : Z) :
  rev b ++ c :: a = text -> rev (c :: b) ++ a = text.
Proof. intros <-. simpl. rewrite <- app_assoc. reflexivity. Qed.

Section Scan.

Variables (re : regexp) (text : list Z).

(** Every match reported by the scan is a match at its offset. *)
Lemma scan_matches :
  forall a b skip mi,
    rev b ++ a = text ->
    In mi (scan re skip b a) ->
    exists st',
      matchAt re (rev (firstn (m_offset mi) text)) (skipn (m_offset mi) text) = Some st'
      /\ mi = mkInfo (rev (firstn (m_offset mi) text)) (skipn (m_offset mi) text) st'.
Proof.
  induction a as [|c a IH]; intros b skip mi Ht Hin.
  - destruct skip; [|destruct Hin].
    simpl in Hin. destruct (matchAt re b []) as [st'|] eqn:E; [|destruct Hin].
    destruct Hin as [<-|[]]. cbn [m_offset mkInfo].
    destruct (zipper_at text b [] Ht) as [Hb Ha]. rewrite Hb, Ha.
    exists st'. split; [exact E | reflexivity].
  - destruct skip as [|n].
    + cbn [scan] in Hin. destruct (matchAt re b (c :: a)) as [st'|] eqn:E.
      * destruct Hin as [<-|Hin].
        -- cbn [m_offset mkInfo].
           destruct (zipper_at text b (c :: a) Ht) as [Hb Ha]. rewrite Hb, Ha.
           exists st'. split; [exact E | reflexivity].
        -- apply (IH (c :: b) _ mi (zipper_step text b a c Ht) Hin).
      * apply (IH (c :: b) _ mi (zipper_step text b a c Ht) Hin).
    + cbn [scan] in Hin.
      apply (IH (c :: b) _ mi (zipper_step text b a c Ht) Hin).
Qed.

(** The pattern matches no empty text. *)
Hypothesis nonempty :
  forall b a st', matchAt re b a = Some st' -> (length (aft st') < length a)%nat.

(** The scan is leftmost: before a reported match, either the previous
    reported match ends where it starts, or no match starts one code unit
    earlier. *)
Lemma scan_leftmost :
  forall a b skip mi,
    rev b ++ a = text ->
    In mi (scan re skip b a) ->
    (length b + skip <= m_offset mi)%nat
    /\ ((length b + skip < m_offset mi)%nat ->
        matchAt re (rev (firstn (m_offset mi - 1) text)) (skipn (m_offset mi - 1) text)
        = None
        \/ exists mi',
             In mi' (scan re skip b a)
             /\ (m_offset mi' <= m_offset mi - 1 < m_offset mi' + length (m_text mi'))%nat).
Proof.
  induction a as [|c a IH]; intros b skip mi Ht Hin.
  - destruct skip; [|destruct Hin].
    simpl in Hin. destruct (matchAt re b []) as [st'|] eqn:E; [|destruct Hin].
    apply nonempty in E. simpl in E. lia.
  - destruct skip as [|n].
    + cbn [scan] in Hin |- *. destruct (matchAt re b (c :: a)) as [st'|] eqn:E.
      * pose proof (nonempty _ _ _ E) as Hlen.
        destruct Hin as [<-|Hin].
        -- cbn [m_offset mkInfo]. split; [lia|]. intros H. lia.
        -- destruct (IH (c :: b) _ mi (zipper_step text b a c Ht) Hin) as [Hle Hprev].
           cbn [length] in Hle, Hprev. split; [lia|]. intros _.
           destruct (Nat.eq_dec (m_offset mi)
                       (S (length b) + pred (length (c :: a) - length (aft st')))%nat)
             as [Heq|Hneq].
           ++ right. exists (mkInfo b (c :: a) st'). split; [left; reflexivity|].
              cbn [m_offset m_text mkInfo]. rewrite length_firstn.
              cbn [length] in *. lia.
           ++ destruct Hprev as [Hnone|[mi' [Hin' Hcov]]];
                [cbn [length] in *; lia | left; exact Hnone |].
              right. exists mi'. split; [right; exact Hin' | exact Hcov].
      * destruct (IH (c :: b) _ mi (zipper_step text b a c Ht) Hin) as [Hle Hprev].
        cbn [length] in Hle, Hprev. split; [lia|]. intros Hlt.
        destruct (Nat.eq_dec (m_offset mi) (S (length b))) as [Heq|Hneq].
        -- left. rewrite Heq. replace (S (length b) - 1)%nat with (length b) by lia.
           destruct (zipper_at text b (c :: a) Ht) as [Hb Ha]. rewrite Hb, Ha. exact E.
        -- destruct Hprev as [Hnone|[mi' [Hin' Hcov]]]; [lia | left; exact Hnone |].
           right. exists mi'. split; [exact Hin' | exact Hcov].
    + cbn [scan] in Hin |- *.
      destruct (IH (c :: b) _ mi (zipper_step text b a c Ht) Hin) as [Hle Hprev].
      cbn [length] in Hle, Hprev. split; [lia|]. intros Hlt.
      destruct Hprev as [Hnone|[mi' [Hin' Hcov]]]; [lia | left; exact Hnone |].
      right. exists mi'. split; [exact Hin' | exact Hcov].
Qed.

End Scan.

(** ** The matcher only moves forward *)

Lemma aft_clearCaps (gs : list nat) (st : mstate) : aft (clearCaps gs st) = aft st.
Proof. destruct gs; reflexivity. Qed.

Lemma matchLit_forward (ic : bool) (s : list Z) :
  forall st st',
    matchLit ic true s st = Some st' -> (length (aft st') <= length (aft st))%nat.
Proof.
  induction s as [|c s IH]; intros st st' H; simpl in H.
  - injection H as <-. lia.
  - destruct st as [b [|x a] cs]; simpl in H; [discriminate|].
    destruct (canon ic x =? canon ic c); [|discriminate].
    apply IH in H. simpl in *. lia.
Qed.

Lemma repLoop_forward
    (mr : mstate -> (mstate -> option mstate) -> option mstate)
    (mn : nat) (mx : option nat) (greedy : bool) (k : mstate -> option mstate) :
  (forall st k' res,
      mr st k' = Some res ->
      exists st', k' st' = Some res /\ (length (aft st') <= length (aft st))%nat) ->
  forall fuel cnt st res,
    repLoop mr true mn mx greedy k fuel cnt st = Some res ->
    exists st', k st' = Some res /\ (length (aft st') <= length (aft st))%nat.
Proof.
  intros Hmr. induction fuel as [|fuel IH]; intros cnt st res H; [discriminate|].
  cbn [repLoop] in H.
  assert (Hiter : forall k0,
             (forall st1, k0 st1 = Some res ->
                          repLoop mr true mn mx greedy k fuel (S cnt) st1 = Some res) ->
             mr st k0 = Some res ->
             exists st', k st' = Some res /\ (length (aft st') <= length (aft st))%nat).
  { intros k0 Hk0 Hm. apply Hmr in Hm. destruct Hm as [st1 [H1 Hl1]].
    apply Hk0, IH in H1. destruct H1 as [st2 [H2 Hl2]].
    exists st2. split; [exact H2 | lia]. }
  assert (Hstop : k st = Some res ->
             exists st', k st' = Some res /\ (length (aft st') <= length (aft st))%nat).
  { intros Hk. exists st. split; [exact Hk | lia]. }
  destruct (cnt <? mn)%nat.
  - apply (Hiter _ (fun st1 H1 => H1) H).
  - destruct (reached mx cnt); [apply Hstop; exact H|].
    destruct greedy.
    + destruct (mr st _) as [x|] eqn:E; [|apply Hstop; exact H].
      injection H as ->. revert E. apply Hiter.
      intros st1 H1. destruct (room true st1 =? room true st)%nat; [discriminate | exact H1].
    + clear Hstop. destruct (k st) as [x|] eqn:E;
        [injection H as ->; exists st; split; [exact E | lia]|].
      revert H. apply Hiter.
      intros st1 H1. destruct (room true st1 =? room true st)%nat; [discriminate | exact H1].
Qed.

Lemma m_forward (fl : flags) (r : regex) :
  forall st k res,
    m fl r true st k = Some res ->
    exists st', k st' = Some res /\ (length (aft st') <= length (aft st))%nat.
Proof.
  induction r as [|c| |neg items|r1 IH1 r2 IH2|r1 IH1 r2 IH2|mn mx greedy r1 IH1
                 |n r1 IH1|n| | |neg|ahead neg r1 IH1];
    intros st k res H; cbn [m] in H.
  - exists st. split; [exact H | lia].
  - destruct st as [b [|x a] cs]; cbn [next aft bef caps] in H; [discriminate|].
    destruct (canon (ignoreCase fl) x =? canon (ignoreCase fl) c); [|discriminate].
    eexists. split; [exact H | simpl; lia].
  - destruct st as [b [|x a] cs]; cbn [next aft bef caps] in H; [discriminate|].
    destruct (isLineTerminator x); [discriminate|].
    eexists. split; [exact H | simpl; lia].
  - destruct st as [b [|x a] cs]; cbn [next aft bef caps] in H; [discriminate|].
    destruct (cls_match (ignoreCase fl) neg items x); [|discriminate].
    eexists. split; [exact H | simpl; lia].
  - apply IH1 in H. destruct H as [st1 [H Hl1]].
    apply IH2 in H. destruct H as [st2 [H Hl2]].
    exists st2. split; [exact H | lia].
  - destruct (m fl r1 true st k) as [x|] eqn:E.
    + injection H as ->. apply IH1. exact E.
    + apply IH2. exact H.
  - revert H. apply repLoop_forward.
    intros st0 k' res0 H0. apply IH1 in H0. rewrite aft_clearCaps in H0. exact H0.
  - apply IH1 in H. destruct H as [st1 [H Hl1]].
    eexists. split; [exact H | simpl; lia].
  - destruct (getCap n (caps st)) as [s|]; [|exists st; split; [exact H | lia]].
    destruct (matchLit (ignoreCase fl) true s st) as [st1|] eqn:E; [|discriminate].
    apply matchLit_forward in E. exists st1. split; [exact H | exact E].
  - destruct (atBol (multiline fl) st); [|discriminate].
    exists st. split; [exact H | lia].
  - destruct (atEol (multiline fl) st); [|discriminate].
    exists st. split; [exact H | lia].
  - destruct (xorb neg (atWordB st)); [|discriminate].
    exists st. split; [exact H | lia].
  - destruct (m fl r1 ahead st Some) as [st1|]; destruct neg; try discriminate.
    + eexists. split; [exact H | simpl; lia].
    + exists st. split; [exact H | lia].
Qed.

(** ** Repetition of a character class *)

Section ClassRepetition.

Variables (fl : flags) (neg : bool) (items : list citem).
Variables (mn : nat) (k : mstate -> option mstate).

(** One iteration: the class matched once, with the captures of the
    quantified term (there are none) cleared. *)
Local Abbreviation once :=
  (fun st' k' => m fl (Cls neg items) true (clearCaps (groups (Cls neg items)) st') k').

(** The class itself, as a test on code units. *)
Local Abbreviation inClass := (cls_match (ignoreCase fl) neg items).

(** A successful greedy repetition has consumed some [j] code units of the
    class, at least [mn] with those counted before, and gone on with [k]. *)
Lemma repLoop_class_some :
  forall fuel cnt b a cs res,
    repLoop once
      true mn None true k fuel cnt (MState b a cs) = Some res ->
    exists j,
      (mn <= cnt + j)%nat /\ (j <= length a)%nat
      /\ forallb (inClass) (firstn j a) = true
      /\ k (MState (rev (firstn j a) ++ b) (skipn j a) cs) = Some res.
Proof.
  induction fuel as [|fuel IH]; intros cnt b a cs res H; [discriminate|].
  cbn [repLoop reached m groups clearCaps next aft bef caps] in H.
  assert (Hiter : forall x a',
             a = x :: a' ->
             inClass x = true ->
             repLoop once
               true mn None true k fuel (S cnt) (MState (x :: b) a' cs) = Some res ->
             exists j,
               (mn <= cnt + j)%nat /\ (j <= length a)%nat
               /\ forallb (inClass) (firstn j a) = true
               /\ k (MState (rev (firstn j a) ++ b) (skipn j a) cs) = Some res).
  { intros x a' -> Hx Hr. apply IH in Hr. destruct Hr as [j [Hmn [Hj [Hall Hk]]]].
    exists (S j). cbn [firstn skipn forallb length rev].
    rewrite Hx, Hall, <- app_assoc. repeat split; try lia. exact Hk. }
  assert (Hstop : (cnt <? mn)%nat = false -> k (MState b a cs) = Some res ->
             exists j,
               (mn <= cnt + j)%nat /\ (j <= length a)%nat
               /\ forallb (inClass) (firstn j a) = true
               /\ k (MState (rev (firstn j a) ++ b) (skipn j a) cs) = Some res).
  { intros Hc Hk. apply Nat.ltb_ge in Hc. exists 0%nat.
    repeat split; try lia. exact Hk. }
  destruct (cnt <? mn)%nat eqn:Hc.
  - destruct a as [|x a']; [discriminate|].
    destruct (inClass x) eqn:Hx; [|discriminate].
    apply (Hiter x a' eq_refl Hx H).
  - destruct a as [|x a']; [apply Hstop; [reflexivity | exact H]|].
    destruct (inClass x) eqn:Hx;
      [|apply Hstop; [reflexivity | exact H]].
    cbn [room aft] in H.
    replace (length a' =? length (x :: a'))%nat with false in H
      by (symmetry; apply Nat.eqb_neq; simpl; lia).
    destruct (repLoop _ true mn None true k fuel (S cnt) (MState (x :: b) a' cs))
      as [y|] eqn:E.
    + injection H as ->. apply (Hiter x a' eq_refl Hx E).
    + apply Hstop; [reflexivity | exact H].
Qed.

(** Conversely, when [k] succeeds after some [j] code units of the class,
    the repetition succeeds (with enough fuel, which the matcher gives). *)
Lemma repLoop_class_complete :
  forall fuel cnt b a cs j,
    (length a + (mn - cnt) < fuel)%nat ->
    (mn <= cnt + j)%nat -> (j <= length a)%nat ->
    forallb (inClass) (firstn j a) = true ->
    k (MState (rev (firstn j a) ++ b) (skipn j a) cs) <> None ->
    repLoop once
      true mn None true k fuel cnt (MState b a cs) <> None.
Proof.
  induction fuel as [|fuel IH]; intros cnt b a cs j Hfuel Hmn Hj Hall Hk; [lia|].
  cbn [repLoop reached m groups clearCaps next aft bef caps].
  destruct j as [|j].
  - assert (Hc : (cnt <? mn)%nat = false) by (apply Nat.ltb_ge; lia).
    rewrite Hc. cbn [firstn skipn rev app] in Hk.
    destruct a as [|x a']; [exact Hk|].
    destruct (inClass x); [|exact Hk].
    destruct (if (room true (MState (x :: b) a' cs)
                  =? room true (MState b (x :: a') cs))%nat then None else _);
      [discriminate | exact Hk].
  - destruct a as [|x a']; [simpl in Hj; lia|].
    cbn [firstn skipn forallb rev length] in Hall, Hk, Hj, Hfuel.
    apply andb_prop in Hall. destruct Hall as [Hx Hall]. rewrite Hx.
    rewrite <- app_assoc in Hk.
    assert (Hrec : repLoop once
               true mn None true k fuel (S cnt) (MState (x :: b) a' cs) <> None).
    { apply (IH (S cnt) (x :: b) a' cs j); try lia; assumption. }
    destruct (cnt <? mn)%nat; [exact Hrec|].
    cbn [room aft].
    replace (length a' =? length (x :: a'))%nat with false
      by (symmetry; apply Nat.eqb_neq; simpl; lia).
    destruct (repLoop _ true mn None true k fuel (S cnt) (MState (x :: b) a' cs));
      [discriminate | contradiction].
Qed.

End ClassRepetition.

(** ** The protected patterns *)

Lemma PROTECTED_PATTERNS_email :
  RegExp (js "[\w.+-]+@[\w.-]+\.\w{2,}") "g" =
  RegExpOf
    (Seq (Rep 1 None true
            (Cls false [CWord false; CRange 46 46; CRange 43 43; CRange 45 45]))
       (Seq (Chr 64)
          (Seq (Rep 1 None true (Cls false [CWord false; CRange 46 46; CRange 45 45]))
             (Seq (Chr 46) (Rep 2 None true (Cls false [CWord false]))))))
    (Flags true false false).
Proof. vm_compute. reflexivity. Qed.

Lemma m_Seq (fl : flags) (r1 r2 : regex) (st : mstate) (k : mstate -> option mstate) :
  m fl (Seq r1 r2) true st k = m fl r1 true st (fun st' => m fl r2 true st' k).
Proof. reflexivity. Qed.

Lemma m_Rep (fl : flags) (mn : nat) (mx : option nat) (greedy : bool) (r1 : regex)
    (fwd : bool) (st : mstate) (k : mstate -> option mstate) :
  m fl (Rep mn mx greedy r1) fwd st k =
  repLoop (fun st' k' => m fl r1 fwd (clearCaps (groups r1) st') k')
    fwd mn mx greedy k (S (mn + room fwd st)) 0%nat st.
Proof. reflexivity. Qed.

(** An email match is not empty. *)
Lemma email_nonempty (b a : list Z) (st' : mstate) :
  matchAt (RegExp (js "[\w.+-]+@[\w.-]+\.\w{2,}") "g") b a = Some st' ->
  (length (aft st') < length a)%nat.
Proof.
  rewrite PROTECTED_PATTERNS_email. unfold matchAt. cbn [re_ast re_flags].
  set (K := Seq (Chr 64) _). rewrite m_Seq, m_Rep.
  intros H. apply repLoop_class_some in H.
  destruct H as [j [Hmn [Hj [_ Hk]]]].
  apply m_forward in Hk. destruct Hk as [st1 [Hk Hl]].
  injection Hk as <-. cbn [aft] in Hl. rewrite length_skipn in Hl. lia.
Qed.

(** An email match can be extended to the left by a code unit of the class
    of its local part: where an email matches, one matches one code unit
    earlier as well. *)
Lemma email_extend (b a : list Z) (c : Z) :
  cls_match false false [CWord false; CRange 46 46; CRange 43 43; CRange 45 45] c = true ->
  matchAt (RegExp (js "[\w.+-]+@[\w.-]+\.\w{2,}") "g") (c :: b) a <> None ->
  matchAt (RegExp (js "[\w.+-]+@[\w.-]+\.\w{2,}") "g") b (c :: a) <> None.
Proof.
  rewrite PROTECTED_PATTERNS_email. unfold matchAt. cbn [re_ast re_flags].
  set (K := Seq (Chr 64) _). rewrite !m_Seq, !m_Rep.
  intros Hc H.
  destruct (repLoop _ true 1 None true _ _ 0%nat (MState (c :: b) a [])) as [res|] eqn:E;
    [clear H | contradiction].
  apply repLoop_class_some in E. destruct E as [j [Hmn [Hj [Hall Hk]]]].
  apply (repLoop_class_complete _ _ _ _ _ _ _ _ _ _ (S j)).
  - cbn [room aft length]. lia.
  - lia.
  - simpl. lia.
  - cbn [firstn forallb ignoreCase]. cbn [ignoreCase] in Hall. rewrite Hc, Hall. reflexivity.
  - cbn [firstn skipn rev]. rewrite <- app_assoc. cbn [app]. rewrite Hk. discriminate.
Qed.

(** The other patterns (URL, IP address, version, hex code) do not match at
    a full stop. *)
Lemma protected_not_at_dot (re : regexp) :
  In re PROTECTED_PATTERNS ->
  re = RegExp (js "[\w.+-]+@[\w.-]+\.\w{2,}") "g"
  \/ forall b a, matchAt re b (46 :: a) = None.
Proof.
  intros Hin. unfold PROTECTED_PATTERNS in Hin.
  destruct Hin as [<-|[<-|[<-|[<-|[<-|[]]]]]]; [right|left; reflexivity|right..];
    intros b a; unfold matchAt;
    match goal with
    | |- m ?fl ?r _ _ _ = _ =>
      let r' := eval vm_compute in r in
      let fl' := eval vm_compute in fl in
      change (m fl' r' true (MState b (46 :: a) []) Some = None)
    end;
    cbn [m];
    try reflexivity;
    (destruct (xorb false (atWordB (MState b (46 :: a) []))); reflexivity).
Qed.

(** ** The decimal rule *)

Lemma decimal_regexp :
  RegExp (js "(\d)\.(\d)") "g" =
  RegExpOf
    (Seq (Grp 1 (Cls false [CDigit false]))
       (Seq (Chr 46) (Grp 2 (Cls false [CDigit false]))))
    (Flags true false false).
Proof. vm_compute. reflexivity. Qed.

Lemma cls_digit (c : Z) : cls_match false false [CDigit false] c = isDigit c.
Proof.
  unfold cls_match, item_match, item_in. simpl.
  destruct (isDigit c); reflexivity.
Qed.

(** The pattern of the rule matches a digit, a full stop and a digit. *)
Lemma matchAt_decimal (b a : list Z) :
  matchAt (RegExp (js "(\d)\.(\d)") "g") b a =
  match a with
  | d1 :: x :: d2 :: a' =>
    if isDigit d1 && (x =? 46) && isDigit d2
    then Some (MState (d2 :: x :: d1 :: b) a' [(2%nat, [d2]); (1%nat, [d1])])
    else None
  | _ => None
  end.
Proof.
  rewrite decimal_regexp. unfold matchAt.
  destruct a as [|d1 [|x [|d2 a]]];
    cbn [m re_ast re_flags ignoreCase next aft bef caps canon captured];
    rewrite ?cls_digit.
  - reflexivity.
  - destruct (isDigit d1); reflexivity.
  - destruct (isDigit d1); [|reflexivity]. destruct (x =? 46); reflexivity.
  - destruct (isDigit d1); [|reflexivity]. destruct (x =? 46); [|reflexivity].
    destruct (isDigit d2); [|reflexivity].
    cbn [andb]. rewrite !length_cons_sub. reflexivity.
Qed.

Lemma length_cons3_sub {A : Type} (x y z : A) (a : list A) :
  (length (x :: y :: z :: a) - length a = 3)%nat.
Proof. simpl. lia. Qed.

Section Decimal.

Variables (text : jsstring) (ctx : RuleContext).

Local Abbreviation decimalRe := (RegExp (js "(\d)\.(\d)") "g").

(** What the rule does from offset [length b] on, [a] being the rest of
    the text. *)
Local Abbreviation go := (replaceGo decimalRe (decimalReplacer text ctx) 0).

(** A code unit may change only if it is a full stop that follows a digit
    at an unprotected offset. *)
Local Abbreviation changeable b a j :=
  ((1 <= j)%nat
   /\ isProtected (Z.of_nat (length b + j - 1)) (protectedRanges ctx) = false
   /\ nth_error a j = Some 46
   /\ exists d, nth_error a (j - 1) = Some d /\ isDigit d = true).

(** One step of the replacement loop of the decimal rule. *)
Lemma replaceGo_decimal (fn : minfo -> jsstring) (b a : list Z) :
  replaceGo decimalRe fn 0 b a =
  match a with
  | [] => []
  | d1 :: rest =>
    match rest with
    | x :: d2 :: a' =>
      if isDigit d1 && (x =? 46) && isDigit d2
      then fn (MInfo (length b) [d1; x; d2] [(2%nat, [d2]); (1%nat, [d1])])
             ++ replaceGo decimalRe fn 0 (d2 :: x :: d1 :: b) a'
      else d1 :: replaceGo decimalRe fn 0 (d1 :: b) rest
    | _ => d1 :: replaceGo decimalRe fn 0 (d1 :: b) rest
    end
  end.
Proof.
  destruct a as [|d1 [|x [|d2 a']]]; cbn [replaceGo]; rewrite matchAt_decimal;
    try reflexivity.
  destruct (isDigit d1 && (x =? 46) && isDigit d2); [|reflexivity].
  unfold mkInfo. cbn [aft caps]. rewrite length_cons3_sub. reflexivity.
Qed.

(** The replacer of the decimal rule returns the match, or the match with
    its full stop turned into a comma; the latter only at an offset that is
    not protected. *)
Lemma decimalReplacer_cases (o : nat) (d1 d2 : Z) :
  decimalReplacer text ctx (MInfo o [d1; 46; d2] [(2%nat, [d2]); (1%nat, [d1])])
  = [d1; 46; d2]
  \/ (decimalReplacer text ctx (MInfo o [d1; 46; d2] [(2%nat, [d2]); (1%nat, [d1])])
      = [d1; 44; d2]
      /\ isProtected (Z.of_nat o) (protectedRanges ctx) = false).
Proof.
  unfold decimalReplacer. cbn [m_offset m_text].
  destruct (isProtected (Z.of_nat o) (protectedRanges ctx)); [left; reflexivity|].
  destruct (_ && atIs text _ 46); [left; reflexivity|].
  destruct (_ && _ && testAt _ text _); [left; reflexivity|].
  right. split; reflexivity.
Qed.

(** A change found [k] code units further in the text, seen from here. *)
Lemma changeable_shift (pre b a : list Z) (j : nat) :
  changeable (rev pre ++ b) a j -> changeable b (pre ++ a) (length pre + j).
Proof.
  intros [H1 [H2 [H3 [d [H4 H5]]]]].
  rewrite length_app, length_rev in H2.
  split; [lia|]. split.
  - replace (length b + (length pre + j) - 1)%nat
      with (length pre + length b + j - 1)%nat by lia. exact H2.
  - split.
    + rewrite nth_error_app2 by lia.
      replace (length pre + j - length pre)%nat with j by lia. exact H3.
    + exists d. split; [|exact H5].
      rewrite nth_error_app2 by lia.
      replace (length pre + j - 1 - length pre)%nat with (j - 1)%nat by lia. exact H4.
Qed.

(** The rule keeps the length of the text, and changes a code unit only if
    it is a full stop that follows a digit at an unprotected offset. *)
Lemma decimal_pointwise :
  forall n a b,
    (length a <= n)%nat ->
    length (go b a) = length a
    /\ forall j, nth_error (go b a) j <> nth_error a j -> changeable b a j.
Proof.
  induction n as [|n IH]; intros a b Hn.
  - destruct a; [|simpl in Hn; lia].
    rewrite replaceGo_decimal. split; [reflexivity|]. intros j H. contradiction.
  - rewrite replaceGo_decimal.
    assert (Hskip : forall d1 rest,
               a = d1 :: rest ->
               length (d1 :: go (d1 :: b) rest) = length a
               /\ forall j,
                   nth_error (d1 :: go (d1 :: b) rest) j <> nth_error a j ->
                   changeable b a j).
    { intros d1 rest ->. simpl in Hn.
      destruct (IH rest (d1 :: b) ltac:(lia)) as [Hlen Hpt].
      split; [simpl; rewrite Hlen; reflexivity|].
      intros [|j] Hj; [contradiction|].
      apply (changeable_shift [d1] b rest j), Hpt, Hj. }
    destruct a as [|d1 [|x [|d2 a']]].
    + split; [reflexivity|]. intros j H. contradiction.
    + apply (Hskip d1 [] eq_refl).
    + apply (Hskip d1 [x] eq_refl).
    + destruct (isDigit d1 && (x =? 46) && isDigit d2) eqn:Hc;
        [|apply (Hskip d1 (x :: d2 :: a') eq_refl)].
      apply andb_prop in Hc. destruct Hc as [Hc Hd2].
      apply andb_prop in Hc. destruct Hc as [Hd1 Hx].
      apply Z.eqb_eq in Hx. subst x. simpl in Hn.
      destruct (IH a' (d2 :: 46 :: d1 :: b) ltac:(lia)) as [Hlen Hpt].
      assert (Hrest : forall j,
                 nth_error (go (d2 :: 46 :: d1 :: b) a') j <> nth_error a' j ->
                 changeable b (d1 :: 46 :: d2 :: a') (3 + j)).
      { intros j Hj. apply (changeable_shift [d1; 46; d2] b a' j), Hpt, Hj. }
      destruct (decimalReplacer_cases (length b) d1 d2) as [->|[-> Hprot]].
      * split; [simpl; rewrite Hlen; reflexivity|].
        intros [|[|[|j]]] Hj; try contradiction. apply (Hrest j Hj).
      * split; [simpl; rewrite Hlen; reflexivity|].
        intros [|[|[|j]]] Hj; try contradiction; [|apply (Hrest j Hj)].
        split; [lia|]. split.
        -- replace (length b + 1 - 1)%nat with (length b) by lia. exact Hprot.
        -- split; [reflexivity|]. exists d1. split; [reflexivity | exact Hd1].
Qed.

End Decimal.

Lemma in_findProtectedRanges (text : jsstring) (r : Z * Z) :
  In r (findProtectedRanges text) <->
  exists re, In re PROTECTED_PATTERNS /\ In r (execRanges re text).
Proof.
  unfold findProtectedRanges. rewrite In_sortBy, in_flat_map. reflexivity.
Qed.

Lemma in_execRanges (re : regexp) (text : jsstring) (mi : minfo) :
  In mi (scan re 0 [] text) ->
  In (Z.of_nat (m_offset mi), Z.of_nat (m_offset mi) + len (m_text mi))
     (execRanges re text).
Proof.
  intros H. unfold execRanges.
  apply (in_map (fun mi => (Z.of_nat (m_offset mi),
                            Z.of_nat (m_offset mi) + len (m_text mi)))) in H.
  exact H.
Qed.

Lemma isProtected_in (ranges : list (Z * Z)) (s e p : Z) :
  In (s, e) ranges -> s <= p < e -> isProtected p ranges = true.
Proof.
  intros Hin Hp. unfold isProtected. apply existsb_exists.
  exists (s, e). split; [exact Hin|].
  apply andb_true_intro. split; [apply Z.leb_le | apply Z.ltb_lt]; lia.
Qed.

Lemma skipn_nth_error {A : Type} (l : list A) :
  forall j x, nth_error l j = Some x -> skipn j l = x :: skipn (S j) l.
Proof.
  induction l as [|y l IH]; intros [|j] x H; try discriminate.
  - injection H as ->. reflexivity.
  - simpl in H. apply IH in H. simpl in H |- *. exact H.
Qed.

Lemma rev_firstn_nth_error {A : Type} (l : list A) :
  forall j x, nth_error l j = Some x -> rev (firstn (S j) l) = x :: rev (firstn j l).
Proof.
  induction l as [|y l IH]; intros [|j] x H; try discriminate.
  - injection H as ->. reflexivity.
  - simpl in H. apply IH in H.
    change (rev (firstn (S (S j)) (y :: l))) with (rev (firstn (S j) l) ++ [y]).
    rewrite H. reflexivity.
Qed.

Lemma digit_in_local_part (d : Z) :
  isDigit d = true ->
  cls_match false false [CWord false; CRange 46 46; CRange 43 43; CRange 45 45] d = true.
Proof.
  intros H. unfold cls_match, item_match, item_in, isWordChar. simpl.
  rewrite H, !orb_true_r. reflexivity.
Qed.

Lemma ruDecimals_replaceGo (text : jsstring) (ctx : RuleContext) :
  Rule.apply ruDecimals text ctx =
  replaceGo (RegExp (js "(\d)\.(\d)") "g") (decimalReplacer text ctx) 0 [] text.
Proof.
  cbn [Rule.apply ruDecimals]. unfold replaceFn.
  rewrite decimal_regexp at 1. reflexivity.
Qed.

(** C1: the decimal-comma rule changes nothing inside a protected literal:
    under the context the engine builds, every code unit at an offset of a
    protected range is kept (and the text keeps its length); "192.168.1.1"
    is unchanged and "3.14" becomes "3,14". *)
Theorem ruDecimals_protected_literals :
  (forall (text : jsstring) (locale : Locale) (start end_ p : Z),
      In (start, end_) (findProtectedRanges text) ->
      start <= p < end_ ->
      at_ (Rule.apply ruDecimals text (contextOf locale text)) p = at_ text p)
  /\ (forall (text : jsstring) (locale : Locale),
      len (Rule.apply ruDecimals text (contextOf locale text)) = len text)
  /\ Rule.apply ruDecimals (js "192.168.1.1") (contextOf ru (js "192.168.1.1"))
     = js "192.168.1.1"
  /\ Rule.apply ruDecimals (js "3.14") (contextOf ru (js "3.14")) = js "3,14".
Proof.
  split; [|split; [|split]].
  - intros text locale start end_ p Hin Hp.
    rewrite ruDecimals_replaceGo.
    destruct (decimal_pointwise text (contextOf locale text) (length text) text []
                (le_n _)) as [_ Hpt].
    set (out := replaceGo _ _ 0 [] text) in *.
    pose proof Hin as Hin0.
    apply in_findProtectedRanges in Hin. destruct Hin as [re [Hre Hin]].
    unfold execRanges in Hin. apply in_map_iff in Hin.
    destruct Hin as [mi [Hmi Hscan]]. injection Hmi as Hs He.
    assert (Hp0 : 0 <= p) by lia.
    unfold at_. replace (p <? 0) with false by (symmetry; apply Z.ltb_ge; exact Hp0).
    set (j := Z.to_nat p).
    destruct (decide (nth_error out j = nth_error text j)) as [Heq|Hneq];
      [exact Heq | exfalso].
    destruct (Hpt j Hneq) as [Hj [Hprot [Hdot [d [Hd Hdig]]]]].
    cbn [length] in Hprot. cbn [protectedRanges contextOf] in Hprot.
    assert (Hstart : m_offset mi = j).
    { destruct (Z_le_gt_dec start (p - 1)) as [Hle|Hgt].
      - rewrite (isProtected_in _ start end_ (Z.of_nat (0 + j - 1)) Hin0) in Hprot;
          [discriminate | unfold j; lia].
      - unfold j. lia. }
    destruct (scan_matches re text text [] 0%nat mi eq_refl Hscan) as [st' [Hm _]].
    rewrite Hstart in Hm. rewrite (skipn_nth_error text j 46 Hdot) in Hm.
    destruct (protected_not_at_dot re Hre) as [->|Hnone];
      [|rewrite Hnone in Hm; discriminate Hm].
    destruct (scan_leftmost _ text email_nonempty text [] 0%nat mi eq_refl Hscan)
      as [_ Hprev].
    rewrite Hstart in Hprev. cbn [length] in Hprev.
    clearbody j. destruct j as [|j0]; [lia|].
    replace (S j0 - 1)%nat with j0 in Hprev, Hd by lia.
    destruct (Hprev ltac:(lia)) as [Hnone|[mi' [Hin' Hcov]]].
    + rewrite (skipn_nth_error text j0 d Hd) in Hnone.
      apply (email_extend (rev (firstn j0 text)) (skipn (S j0) text) d
               (digit_in_local_part d Hdig)); [|exact Hnone].
      rewrite <- (rev_firstn_nth_error text j0 d Hd).
      rewrite (skipn_nth_error text (S j0) 46 Hdot). rewrite Hm. discriminate.
    + apply in_execRanges in Hin'.
      assert (Hcovered : In (Z.of_nat (m_offset mi'),
                             Z.of_nat (m_offset mi') + len (m_text mi'))
                            (findProtectedRanges text)).
      { apply in_findProtectedRanges. eexists. split; [|exact Hin'].
        unfold PROTECTED_PATTERNS. right. left. reflexivity. }
      rewrite (isProtected_in _ _ _ (Z.of_nat (0 + S j0 - 1)) Hcovered) in Hprot;
        [discriminate | unfold len; lia].
  - intros text locale. rewrite ruDecimals_replaceGo. unfold len.
    destruct (decimal_pointwise text (contextOf locale text) (length text) text []
                (le_n _)) as [Hlen _].
    rewrite Hlen. reflexivity.
  - vm_compute. reflexivity.
  - vm_compute. reflexivity.
Qed.

Lemma ruDecimals_protected_literals_witness :
  at_ (Rule.apply ruDecimals (js "v1.2.3 и 3.14") (contextOf ru (js "v1.2.3 и 3.14"))) 2
  = at_ (js "v1.2.3 и 3.14") 2.
Proof.
  apply (proj1 ruDecimals_protected_literals (js "v1.2.3 и 3.14") ru 0 6 2).
  - vm_compute. left. reflexivity.
  - lia.
Defined.

(** ** The tests of the repository

    The embedding passes the tests of the detector (tests/detector.test.ts)
    and of the anti-orphan rule (tests/rules/layout.test.ts). *)

Lemma detector_tests :
  map detectLocale
    [ js "Привет, как дела?"; js "Hello, how are you?";
      js "Bonjour, comment ça va ? Très bien, merci !";
      js "你好世界，这是一个测试"; js "こんにちは世界、テストです";
      js "東京は大きな都市です"; []; js "12345";
      js "Привет world, как дела today?";
      js "The quick brown fox jumps over the lazy dog" ]
  = [ru; en; fr; zh; ja; ja; en; en; ru; en].
Proof. vm_compute. reflexivity. Qed.

Lemma layout_tests :
  map (fun text => Rule.apply nbspOrphan text (contextOf common text))
    [ js "Это простой тест для проверки"; js "Два слова"; js "Одно";
      js "Три коротких слова";
      js "Первая строка с текстом" ++ [LF] ++ js "Вторая строка с длинным текстом";
      js "Текст с пробелами на конце   ";
      js "Какой-то" ++ NBSP ++ js "текст с пробелами";
      js "This is a simple test"; [] ]
  = [ js "Это простой тест для" ++ NBSP ++ js "проверки"; js "Два слова"; js "Одно";
      js "Три коротких" ++ NBSP ++ js "слова";
      js "Первая строка с" ++ NBSP ++ js "текстом" ++ [LF]
        ++ js "Вторая строка с длинным" ++ NBSP ++ js "текстом";
      js "Текст с пробелами на" ++ NBSP ++ js "конце   ";
      js "Какой-то" ++ NBSP ++ js "текст с" ++ NBSP ++ js "пробелами";
      js "This is a simple" ++ NBSP ++ js "test"; [] ].
Proof. vm_compute. reflexivity. Qed.

(** * Further properties *)

(** ** The rule registry *)

Lemma insertBy_sorted {A : Type} (key : A -> Z) (x : A) (l : list A) :
  StronglySorted (fun a b => key a <= key b) l ->
  StronglySorted (fun a b => key a <= key b) (insertBy key x l).
Proof.
  induction l as [|y l IH]; intros Hs; simpl.
  - constructor; constructor.
  - inversion Hs as [|? ? Hl Hy]; subst.
    destruct (Z.leb_spec (key x) (key y)) as [Hxy|Hxy].
    + constructor; [exact Hs|].
      constructor; [exact Hxy|].
      rewrite List.Forall_forall in Hy |- *. intros z Hz. specialize (Hy z Hz). lia.
    + constructor; [apply IH; exact Hl|].
      rewrite List.Forall_forall in Hy |- *. intros z Hz.
      apply In_insertBy in Hz. destruct Hz as [->|Hz]; [lia | apply Hy; exact Hz].
Qed.

Lemma sortBy_sorted {A : Type} (key : A -> Z) (l : list A) :
  StronglySorted (fun a b => key a <= key b) (sortBy key l).
Proof.
  induction l as [|x l IH]; simpl.
  - constructor.
  - apply insertBy_sorted. exact IH.
Qed.

Lemma insertBy_perm {A : Type} (key : A -> Z) (x : A) (l : list A) :
  Permutation (insertBy key x l) (x :: l).
Proof.
  induction l as [|y l IH]; simpl.
  - reflexivity.
  - destruct (key x <=? key y); [reflexivity|].
    rewrite IH. apply perm_swap.
Qed.

Lemma sortBy_perm {A : Type} (key : A -> Z) (l : list A) :
  Permutation (sortBy key l) l.
Proof.
  induction l as [|x l IH]; simpl.
  - reflexivity.
  - rewrite insertBy_perm, IH. reflexivity.
Qed.

(** X1: The rules that [getRulesForLocale] returns are the registered rules of
    the locale and the common ones, each as often as it is registered, in
    the order of their priorities. *)
Theorem getRulesForLocale_sorted_selection (locale : Locale) :
  StronglySorted (fun a b => Rule.priority a <= Rule.priority b)
    (getRulesForLocale locale)
  /\ Permutation (getRulesForLocale locale)
       (List.filter (fun r => Locale_eqb (Rule.locale r) locale
                              || Locale_eqb (Rule.locale r) common) ALL_RULES)
  /\ forall r, In r (getRulesForLocale locale) ->
       Rule.locale r = locale \/ Rule.locale r = common.
Proof.
  split; [apply sortBy_sorted|]. split; [apply sortBy_perm|].
  intros r Hr. unfold getRulesForLocale in Hr. rewrite In_sortBy in Hr.
  apply List.filter_In in Hr. destruct Hr as [_ Hr].
  apply orb_prop in Hr.
  destruct Hr as [Hr|Hr]; [left|right];
    destruct (Rule.locale r), locale; try discriminate Hr; reflexivity.
Qed.

Lemma StronglySorted_map_lt {A : Type} (f : A -> Z) (l : list A) :
  StronglySorted Z.lt (map f l) -> StronglySorted (fun a b => f a < f b) l.
Proof.
  induction l as [|x l IH]; intros H; [constructor|].
  simpl in H. inversion H as [|? ? Hl Hx]; subst.
  constructor; [apply IH; exact Hl|].
  rewrite List.Forall_forall in Hx |- *. intros y Hy.
  apply Hx. apply in_map. exact Hy.
Qed.

(** X2: The registry is well formed: no two registered rules share an id; the
    rules that apply to one locale have pairwise distinct priorities, so
    that their order does not depend on how the sort treats ties; and
    every id starts with the locale and the group of its rule. *)
Theorem ALL_RULES_well_formed :
  List.NoDup (map Rule.id ALL_RULES)
  /\ (forall locale,
         StronglySorted (fun a b => Rule.priority a < Rule.priority b)
           (getRulesForLocale locale))
  /\ Forall (fun r =>
               String.prefix
                 (Locale_name (Rule.locale r) ++ "/" ++ RuleGroup_name (Rule.group r) ++ "/")
                 (Rule.id r) = true) ALL_RULES.
Proof.
  split; [|split].
  - apply NoDup_ListNoDup. apply (bool_decide_unpack _). vm_compute. exact I.
  - intros locale. apply StronglySorted_map_lt.
    destruct locale; vm_compute; repeat constructor.
  - rewrite List.Forall_forall. apply forallb_forall. vm_compute. reflexivity.
Qed.

(** ** Rule groups *)

Lemma RuleGroup_eqb_eq (a b : RuleGroup) : RuleGroup_eqb a b = true <-> a = b.
Proof. destruct a, b; simpl; split; intros H; try reflexivity; discriminate H. Qed.

Lemma existsb_RuleGroup (x : RuleGroup) (s : list RuleGroup) :
  existsb (RuleGroup_eqb x) s = true <-> In x s.
Proof.
  rewrite existsb_exists. split.
  - intros [y [Hy Hxy]]. apply RuleGroup_eqb_eq in Hxy. subst y. exact Hy.
  - intros H. exists x. split; [exact H | apply RuleGroup_eqb_eq; reflexivity].
Qed.

Lemma NoDup_snoc {A : Type} (x : A) (l : list A) :
  List.NoDup l -> ~ In x l -> List.NoDup (l ++ [x]).
Proof.
  induction l as [|y l IH]; intros Hl Hx; simpl.
  - constructor; [intros [] | constructor].
  - inversion Hl as [|? ? Hy Hl']; subst. constructor.
    + rewrite in_app_iff. simpl. intros [H|[H|[]]]; [exact (Hy H)|].
      apply Hx. left. symmetry. exact H.
    + apply IH; [exact Hl'|]. intros H. apply Hx. right. exact H.
Qed.

Lemma newSet_spec (xs : list RuleGroup) :
  forall acc,
    List.NoDup acc ->
    List.NoDup (fold_left setAdd xs acc)
    /\ forall g, In g (fold_left setAdd xs acc) <-> In g acc \/ In g xs.
Proof.
  induction xs as [|x xs IH]; intros acc Hacc; simpl.
  - split; [exact Hacc|]. intros g. tauto.
  - assert (Hadd : List.NoDup (setAdd acc x) /\ forall g, In g (setAdd acc x) <-> In g acc \/ g = x).
    { unfold setAdd. destruct (existsb (RuleGroup_eqb x) acc) eqn:E.
      - apply existsb_RuleGroup in E. split; [exact Hacc|].
        intros g. split; [tauto|]. intros [H| ->]; assumption.
      - assert (Hx : ~ In x acc).
        { intros H. apply existsb_RuleGroup in H. congruence. }
        split.
        + apply NoDup_snoc; assumption.
        + intros g. rewrite in_app_iff. simpl. intuition. }
    destruct Hadd as [Hnd Hin].
    destruct (IH _ Hnd) as [Hnd' Hin'].
    split; [exact Hnd'|]. intros g. rewrite Hin', Hin. intuition.
Qed.

(** X3: The groups of a locale are listed without repetition, and they are
    the groups of the rules that apply to the locale. *)
Theorem getRuleGroupsForLocale_distinct_groups (locale : Locale) :
  List.NoDup (getRuleGroupsForLocale locale)
  /\ forall g,
       In g (getRuleGroupsForLocale locale) <->
       exists r, In r (getRulesForLocale locale) /\ Rule.group r = g.
Proof.
  unfold getRuleGroupsForLocale, newSet.
  destruct (newSet_spec (map Rule.group (getRulesForLocale locale)) [] (List.NoDup_nil _))
    as [Hnd Hin].
  split; [exact Hnd|]. intros g. rewrite Hin, in_map_iff. simpl.
  split.
  - intros [[]|[r [Hg Hr]]]. exists r. split; assumption.
  - intros [r [Hr Hg]]. right. exists r. split; assumption.
Qed.

(** ** The orchestrator and the settings *)

(** Two settings that give every rule of the resolved locale the same
    effective state give the same result. *)
Lemma applyTypography_ext (text : jsstring) (s1 s2 : TypographySettings) :
  settings_locale s1 = settings_locale s2 ->
  (forall r, In r (getRulesForLocale (resolveLocale text s1)) ->
             isEnabled s1 r = isEnabled s2 r) ->
  applyTypography text s1 = applyTypography text s2.
Proof.
  intros Hloc H. unfold applyTypography.
  assert (Hres : resolveLocale text s2 = resolveLocale text s1)
    by (unfold resolveLocale; rewrite Hloc; reflexivity).
  rewrite Hres. destruct (isBlank text); [reflexivity|].
  apply fold_left_ext_In. intros a r Hr. unfold applyRule.
  rewrite (H r Hr). reflexivity.
Qed.

(** X4: The result depends on the settings only through the locale and the
    entries of [enabledRules] for the ids of the rules of that locale: two
    settings with the same locale whose maps agree on these ids give the
    same result for every text. *)
Theorem applyTypography_depends_on_locale_rules
    (text : jsstring) (s1 s2 : TypographySettings) :
  settings_locale s1 = settings_locale s2 ->
  (forall r, In r (getRulesForLocale (resolveLocale text s1)) ->
             enabledRules s1 !! Rule.id r = enabledRules s2 !! Rule.id r) ->
  applyTypography text s1 = applyTypography text s2.
Proof.
  intros Hloc H. apply applyTypography_ext; [exact Hloc|].
  intros r Hr. unfold isEnabled. rewrite (H r Hr). reflexivity.
Qed.

Lemma applyTypography_depends_on_locale_rules_witness :
  applyTypography (js "еще  3.14")
    {| settings_locale := Some en; enabledRules := {[ "ru/yo/basic" := false ]} |}
  = applyTypography (js "еще  3.14")
    {| settings_locale := Some en; enabledRules := ∅ |}.
Proof.
  apply applyTypography_depends_on_locale_rules; [reflexivity|].
  intros r Hr. cbn [enabledRules].
  rewrite lookup_singleton_ne; [rewrite lookup_empty; reflexivity|].
  intros Heq.
  assert (Hid : In (Rule.id r) (map Rule.id (getRulesForLocale en)))
    by (apply in_map; exact Hr).
  rewrite <- Heq in Hid. vm_compute in Hid.
  repeat (destruct Hid as [Hid|Hid]; [discriminate Hid|]). exact Hid.
Defined.

(** X5: The anti-orphan rule is not registered, so the entry
    ["common/layout/orphan"] of [enabledRules], which the settings panel
    sets for the NBSP balance method, changes the result for no text, no
    locale and no other settings. *)
Theorem applyTypography_orphan_entry_ignored
    (text : jsstring) (settings : TypographySettings) (v : bool) :
  applyTypography text (withOverride (Rule.id nbspOrphan) v settings)
  = applyTypography text settings.
Proof.
  apply applyTypography_ext; [reflexivity|].
  intros r Hr. unfold isEnabled. cbn [withOverride enabledRules].
  rewrite lookup_insert_ne; [reflexivity|].
  intros Heq.
  assert (Hid : In (Rule.id r) (map Rule.id ALL_RULES))
    by (apply in_map; exact (getRulesForLocale_registered _ r Hr)).
  rewrite <- Heq in Hid. vm_compute in Hid.
  repeat (destruct Hid as [Hid|Hid]; [discriminate Hid|]). exact Hid.
Qed.

Lemma allOff_lookup (locale : option Locale) (r : TypographyRule) :
  In r ALL_RULES -> enabledRules (allOff locale) !! Rule.id r = Some false.
Proof.
  unfold allOff. cbn [enabledRules]. generalize ALL_RULES as l.
  induction l as [|x l IH]; intros Hr; [destruct Hr|].
  cbn [fold_right].
  destruct (decide (Rule.id x = Rule.id r)) as [->|Hne].
  - apply lookup_insert_eq.
  - rewrite lookup_insert_ne by exact Hne.
    destruct Hr as [->|Hr]; [contradiction | apply IH; exact Hr].
Qed.

(** X6: With every rule switched off the text is returned as it is, whatever
    the locale. *)
Theorem applyTypography_all_rules_off (text : jsstring) (locale : option Locale) :
  applyTypography text (allOff locale) = text.
Proof.
  unfold applyTypography. destruct (isBlank text); [reflexivity|].
  apply fold_left_fixed. intros r Hr. unfold applyRule, isEnabled.
  rewrite (allOff_lookup locale r (getRulesForLocale_registered _ r Hr)).
  reflexivity.
Qed.

(** ** What a match consumes *)

Lemma repLoop_consumes
    (mr : mstate -> (mstate -> option mstate) -> option mstate)
    (mn : nat) (mx : option nat) (greedy : bool) (k : mstate -> option mstate)
    (w : nat) :
  (forall st k' res,
      mr st k' = Some res ->
      exists st', k' st' = Some res /\ (length (aft st') + w <= length (aft st))%nat) ->
  forall fuel cnt st res,
    repLoop mr true mn mx greedy k fuel cnt st = Some res ->
    exists st',
      k st' = Some res /\ (length (aft st') + (mn - cnt) * w <= length (aft st))%nat.
Proof.
  intros Hmr. induction fuel as [|fuel IH]; intros cnt st res H; [discriminate|].
  cbn [repLoop] in H.
  assert (Hiter : forall k0,
             (forall st1, k0 st1 = Some res ->
                          repLoop mr true mn mx greedy k fuel (S cnt) st1 = Some res) ->
             mr st k0 = Some res ->
             exists st',
               k st' = Some res
               /\ (length (aft st') + (mn - cnt) * w <= length (aft st))%nat).
  { intros k0 Hk0 Hm. apply Hmr in Hm. destruct Hm as [st1 [H1 Hl1]].
    apply Hk0, IH in H1. destruct H1 as [st2 [H2 Hl2]].
    exists st2. split; [exact H2|].
    destruct (le_lt_dec mn cnt) as [Hle|Hlt].
    - replace (mn - cnt)%nat with 0%nat by lia. simpl. lia.
    - replace (mn - cnt)%nat with (S (mn - S cnt)) by lia. simpl. lia. }
  assert (Hstop : (mn <= cnt)%nat -> k st = Some res ->
             exists st',
               k st' = Some res
               /\ (length (aft st') + (mn - cnt) * w <= length (aft st))%nat).
  { intros Hle Hk. exists st. split; [exact Hk|].
    replace (mn - cnt)%nat with 0%nat by lia. simpl. lia. }
  destruct (cnt <? mn)%nat eqn:Hc.
  - apply (Hiter _ (fun st1 H1 => H1) H).
  - apply Nat.ltb_ge in Hc. specialize (Hstop Hc).
    destruct (reached mx cnt); [apply Hstop; exact H|].
    destruct greedy.
    + destruct (mr st _) as [x|] eqn:E; [|apply Hstop; exact H].
      injection H as ->. revert E. apply Hiter.
      intros st1 H1. destruct (room true st1 =? room true st)%nat; [discriminate | exact H1].
    + destruct (k st) as [x|] eqn:E; [injection H as ->; apply Hstop; reflexivity|].
      revert H. apply Hiter.
      intros st1 H1. destruct (room true st1 =? room true st)%nat; [discriminate | exact H1].
Qed.

(** A forward match of a pattern consumes at least [minWidth] code units. *)
Lemma m_consumes (fl : flags) (r : regex) :
  forall st k res,
    m fl r true st k = Some res ->
    exists st',
      k st' = Some res /\ (length (aft st') + minWidth r <= length (aft st))%nat.
Proof.
  induction r as [|c| |neg items|r1 IH1 r2 IH2|r1 IH1 r2 IH2|mn mx greedy r1 IH1
                 |n r1 IH1|n| | |neg|ahead neg r1 IH1];
    intros st k res H; cbn [m] in H; cbn [minWidth].
  - exists st. split; [exact H | lia].
  - destruct st as [b [|x a] cs]; cbn [next aft bef caps] in H; [discriminate|].
    destruct (canon (ignoreCase fl) x =? canon (ignoreCase fl) c); [|discriminate].
    eexists. split; [exact H | simpl; lia].
  - destruct st as [b [|x a] cs]; cbn [next aft bef caps] in H; [discriminate|].
    destruct (isLineTerminator x); [discriminate|].
    eexists. split; [exact H | simpl; lia].
  - destruct st as [b [|x a] cs]; cbn [next aft bef caps] in H; [discriminate|].
    destruct (cls_match (ignoreCase fl) neg items x); [|discriminate].
    eexists. split; [exact H | simpl; lia].
  - apply IH1 in H. destruct H as [st1 [H Hl1]].
    apply IH2 in H. destruct H as [st2 [H Hl2]].
    exists st2. split; [exact H | lia].
  - destruct (m fl r1 true st k) as [x|] eqn:E.
    + injection H as ->. apply IH1 in E. destruct E as [st1 [E Hl]].
      exists st1. split; [exact E | lia].
    + apply IH2 in H. destruct H as [st1 [H Hl]].
      exists st1. split; [exact H | lia].
  - apply (repLoop_consumes _ mn mx greedy k (minWidth r1)) in H.
    + rewrite Nat.sub_0_r in H. exact H.
    + intros st0 k' res0 H0. apply IH1 in H0. rewrite aft_clearCaps in H0. exact H0.
  - apply IH1 in H. destruct H as [st1 [H Hl1]].
    eexists. split; [exact H | simpl; lia].
  - destruct (getCap n (caps st)) as [s|]; [|exists st; split; [exact H | lia]].
    destruct (matchLit (ignoreCase fl) true s st) as [st1|] eqn:E; [|discriminate].
    apply matchLit_forward in E. exists st1. split; [exact H | lia].
  - destruct (atBol (multiline fl) st); [|discriminate].
    exists st. split; [exact H | lia].
  - destruct (atEol (multiline fl) st); [|discriminate].
    exists st. split; [exact H | lia].
  - destruct (xorb neg (atWordB st)); [|discriminate].
    exists st. split; [exact H | lia].
  - destruct (m fl r1 ahead st Some) as [st1|]; destruct neg; try discriminate.
    + eexists. split; [exact H | simpl; lia].
    + exists st. split; [exact H | lia].
Qed.

Lemma matchAt_consumes (re : regexp) (b a : list Z) (st' : mstate) :
  matchAt re b a = Some st' ->
  (length (aft st') + minWidth (re_ast re) <= length a)%nat.
Proof.
  unfold matchAt. intros H. apply m_consumes in H.
  destruct H as [st1 [H Hl]]. injection H as <-. exact Hl.
Qed.

(** ** The protected ranges *)

Lemma PROTECTED_PATTERNS_minWidth (re : regexp) :
  In re PROTECTED_PATTERNS -> (1 <= minWidth (re_ast re))%nat.
Proof.
  intros Hin. unfold PROTECTED_PATTERNS in Hin.
  destruct Hin as [<-|[<-|[<-|[<-|[<-|[]]]]]]; vm_compute; lia.
Qed.

(** X7: The protected ranges are listed in the order of their start offsets,
    and each of them is a non-empty range of offsets of the text. *)
Theorem findProtectedRanges_sorted_within_text (text : jsstring) :
  StronglySorted (fun r1 r2 => fst r1 <= fst r2) (findProtectedRanges text)
  /\ forall start end_,
       In (start, end_) (findProtectedRanges text) ->
       0 <= start < end_ /\ end_ <= len text.
Proof.
  split; [apply sortBy_sorted|].
  intros start end_ Hin.
  apply in_findProtectedRanges in Hin. destruct Hin as [re [Hre Hin]].
  unfold execRanges in Hin. apply in_map_iff in Hin.
  destruct Hin as [mi [Heq Hmi]]. injection Heq as <- <-.
  destruct (scan_matches re text text [] 0%nat mi eq_refl Hmi) as [st' [Hm Hmk]].
  pose proof (matchAt_consumes _ _ _ _ Hm) as Hlen.
  pose proof (PROTECTED_PATTERNS_minWidth re Hre) as Hmin.
  assert (Hoff : (m_offset mi <= length text)%nat).
  { rewrite Hmk at 1. cbn [m_offset mkInfo].
    rewrite length_rev, length_firstn. lia. }
  assert (Htxt : length (m_text mi)
                 = (length (skipn (m_offset mi) text) - length (aft st'))%nat).
  { rewrite Hmk at 1. cbn [m_text mkInfo]. rewrite length_firstn. lia. }
  rewrite length_skipn in Hlen, Htxt. unfold len. lia.
Qed.

Lemma findProtectedRanges_sorted_within_text_witness :
  0 <= 5 < 11 /\ 11 <= len (js "см.  v1.2.3 и 3.14").
Proof.
  apply (proj2 (findProtectedRanges_sorted_within_text (js "см.  v1.2.3 и 3.14"))).
  vm_compute. left. reflexivity.
Defined.

(** ** The counts of the detector *)

Lemma length_spread (s : jsstring) : (length (spread s) <= length s)%nat.
Proof.
  assert (H : forall n s, (length s <= n)%nat -> (length (spread s) <= length s)%nat).
  { clear s. induction n as [|n IH]; intros s Hn.
    - destruct s; [simpl; lia | simpl in Hn; lia].
    - destruct s as [|c [|d s]]; [simpl; lia | simpl; lia |].
      cbn [spread]. simpl in Hn.
      destruct (isHighSurrogate c && isLowSurrogate d).
      + specialize (IH s ltac:(lia)). simpl. lia.
      + specialize (IH (d :: s) ltac:(simpl; lia)). simpl in IH |- *. lia. }
  apply (H (length s)). lia.
Qed.

Lemma countChar_counts (counts : CharCounts) (ch : jsstring) :
  let counts' := countChar counts ch in
  cyrillic counts <= cyrillic counts' /\ cjk counts <= cjk counts'
  /\ hiraganaKatakana counts <= hiraganaKatakana counts'
  /\ french counts <= french counts' /\ latin counts <= latin counts'
  /\ total counts' - total counts
     = (cyrillic counts' - cyrillic counts) + (cjk counts' - cjk counts)
       + (hiraganaKatakana counts' - hiraganaKatakana counts)
       + (french counts' - french counts) + (latin counts' - latin counts)
  /\ total counts' <= total counts + 1.
Proof.
  unfold countChar.
  repeat match goal with
         | |- context [if ?c then _ else _] => destruct c
         end; simpl; lia.
Qed.

Lemma fold_countChar (chars : list jsstring) :
  forall counts,
    let counts' := fold_left countChar chars counts in
    cyrillic counts <= cyrillic counts' /\ cjk counts <= cjk counts'
    /\ hiraganaKatakana counts <= hiraganaKatakana counts'
    /\ french counts <= french counts' /\ latin counts <= latin counts'
    /\ total counts' - total counts
       = (cyrillic counts' - cyrillic counts) + (cjk counts' - cjk counts)
         + (hiraganaKatakana counts' - hiraganaKatakana counts)
         + (french counts' - french counts) + (latin counts' - latin counts)
    /\ total counts' <= total counts + Z.of_nat (length chars).
Proof.
  induction chars as [|ch chars IH]; intros counts; cbn [fold_left length].
  - cbv zeta. lia.
  - specialize (IH (countChar counts ch)). cbv zeta in IH |- *.
    pose proof (countChar_counts counts ch) as H. cbv zeta in H. lia.
Qed.

(** X8: Every counted character falls in exactly one class: the total is the
    sum of the five counts; no count is negative, and the total is at most
    the length of the text. *)
Theorem countChars_total_is_sum (text : jsstring) :
  let counts := countChars text in
  total counts
  = cyrillic counts + cjk counts + hiraganaKatakana counts + french counts
    + latin counts
  /\ 0 <= cyrillic counts /\ 0 <= cjk counts /\ 0 <= hiraganaKatakana counts
  /\ 0 <= french counts /\ 0 <= latin counts
  /\ total counts <= len text.
Proof.
  cbv zeta. unfold countChars.
  pose proof (fold_countChar (spread text)
                {| cyrillic := 0; cjk := 0; hiraganaKatakana := 0; french := 0;
                   latin := 0; total := 0 |}) as H.
  cbv zeta in H. cbn [cyrillic cjk hiraganaKatakana french latin total] in H.
  pose proof (length_spread text) as Hs. unfold len. lia.
Qed.

(** X9: A text whose counted characters all belong to one script gets the
    locale of that script: [ja] for kana, [zh] for CJK ideographs, [ru]
    for Cyrillic. *)
Theorem detectLocale_single_script (text : jsstring) :
  0 < total (countChars text) ->
  (hiraganaKatakana (countChars text) = total (countChars text) ->
   detectLocale text = ja)
  /\ (cjk (countChars text) = total (countChars text) -> detectLocale text = zh)
  /\ (cyrillic (countChars text) = total (countChars text) -> detectLocale text = ru).
Proof.
  intros Hpos. pose proof (countChars_total_is_sum text) as H. cbv zeta in H.
  unfold detectLocale, ratioGt.
  destruct (Z.eqb_spec (total (countChars text)) 0) as [H0|_]; [lia|].
  repeat split; intros Hall.
  - destruct (Z.ltb_spec (5 * total (countChars text))
                (hiraganaKatakana (countChars text) * 100)); [reflexivity | lia].
  - destruct (Z.ltb_spec (5 * total (countChars text))
                (hiraganaKatakana (countChars text) * 100)); [lia|].
    destruct (Z.ltb_spec (2 * total (countChars text))
                (cjk (countChars text) * 10)); [reflexivity | lia].
  - destruct (Z.ltb_spec (5 * total (countChars text))
                (hiraganaKatakana (countChars text) * 100)); [lia|].
    destruct (Z.ltb_spec (2 * total (countChars text))
                (cjk (countChars text) * 10)); [lia|].
    destruct (Z.ltb_spec (2 * total (countChars text))
                (cyrillic (countChars text) * 10)); [reflexivity | lia].
Qed.

Lemma detectLocale_single_script_witness :
  detectLocale (js "Где мой 5-й дом?") = ru.
Proof.
  apply (proj2 (proj2 (detectLocale_single_script (js "Где мой 5-й дом?") eq_refl))).
  vm_compute. reflexivity.
Defined.

(** ** The anti-orphan rule, code unit by code unit *)

Lemma Forall2_same {A : Type} (R : A -> A -> Prop) (l : list A) :
  (forall x, R x x) -> Forall2 R l l.
Proof. intros H. induction l; constructor; auto. Qed.

(** A line is returned as it is, or with one U+0020 turned into U+00A0. *)
Lemma orphanLine_cases (line : jsstring) :
  orphanLine line = line
  \/ exists x y, line = x ++ SPACE :: y /\ orphanLine line = x ++ 0xA0 :: y.
Proof.
  unfold orphanLine.
  destruct (length (split SPACE (trimEnd line)) <? 3)%nat eqn:Hlen; [left; reflexivity|].
  right. apply Nat.ltb_ge in Hlen.
  destruct (trimEnd_suffix line) as [ws [Hline _]].
  set (tokens := split SPACE (trimEnd line)) in *.
  set (pre := firstn (length tokens - 2) tokens).
  assert (Hpre : pre <> []).
  { intros E. apply (f_equal (@length _)) in E. unfold pre in E.
    rewrite length_firstn in E. simpl in E. lia. }
  destruct (skipn (length tokens - 2) tokens) as [|a [|b [|c tl]]] eqn:Htail;
    try (apply (f_equal (@length _)) in Htail; rewrite length_skipn in Htail;
         simpl in Htail; lia).
  assert (Htok : tokens = pre ++ [a; b]).
  { rewrite <- Htail. symmetry. apply firstn_skipn. }
  assert (Htrim : trimEnd line = join [SPACE] pre ++ [SPACE] ++ a ++ [SPACE] ++ b).
  { rewrite <- (join_split SPACE (trimEnd line)). fold tokens. rewrite Htok.
    apply join_app_two. exact Hpre. }
  exists (join [SPACE] pre ++ [SPACE] ++ a), (b ++ ws). split.
  - rewrite Hline at 1. rewrite Htrim, <- !app_assoc. reflexivity.
  - rewrite Hline at 1. rewrite slice_app. cbn [join NBSP].
    rewrite <- !app_assoc. reflexivity.
Qed.

Lemma orphanLine_glued (line : jsstring) : Forall2 glued line (orphanLine line).
Proof.
  destruct (orphanLine_cases line) as [->|[x [y [Hl ->]]]].
  - apply Forall2_same. intros c. left. reflexivity.
  - rewrite Hl at 1. apply Forall2_app.
    + apply Forall2_same. intros c. left. reflexivity.
    + constructor; [right; split; reflexivity|].
      apply Forall2_same. intros c. left. reflexivity.
Qed.

Lemma join_glued (lines : list jsstring) :
  Forall2 glued (join [LF] lines) (join [LF] (map orphanLine lines)).
Proof.
  induction lines as [|l [|l' lines] IH].
  - constructor.
  - apply orphanLine_glued.
  - change (join [LF] (l :: l' :: lines)) with (l ++ [LF] ++ join [LF] (l' :: lines)).
    change (join [LF] (map orphanLine (l :: l' :: lines)))
      with (orphanLine l ++ [LF] ++ join [LF] (map orphanLine (l' :: lines))).
    apply Forall2_app; [apply orphanLine_glued|].
    apply Forall2_app; [|exact IH].
    constructor; [left; reflexivity | constructor].
Qed.

(** X10: The anti-orphan rule keeps the length of the text and every code unit
    of it, except that it turns some U+0020 into U+00A0; in particular it
    neither adds nor removes a line. *)
Theorem nbspOrphan_only_glues_spaces (text : jsstring) (ctx : RuleContext) :
  Forall2 glued text (Rule.apply nbspOrphan text ctx).
Proof.
  cbn [Rule.apply nbspOrphan].
  rewrite <- (join_split LF text) at 1. apply join_glued.
Qed.

(** ** The Russian quote rule, code unit by code unit *)

Lemma join_nil_concat (l : list jsstring) : join [] l = concat l.
Proof.
  induction l as [|t [|u l] IH].
  - reflexivity.
  - simpl. rewrite app_nil_r. reflexivity.
  - change (join [] (t :: u :: l)) with (t ++ [] ++ join [] (u :: l)).
    rewrite IH. reflexivity.
Qed.

(** The elements of [[...s]] are single code units and surrogate pairs,
    and they make up [s]. *)
Lemma spread_elements (s : jsstring) :
  concat (spread s) = s
  /\ Forall (fun ch => (exists c, ch = [c] /\ In c s)
                       \/ exists c d, ch = [c; d] /\ isHighSurrogate c = true
                                      /\ isLowSurrogate d = true) (spread s).
Proof.
  assert (H : forall n s, (length s <= n)%nat ->
            concat (spread s) = s
            /\ Forall (fun ch => (exists c, ch = [c] /\ In c s)
                                 \/ exists c d, ch = [c; d] /\ isHighSurrogate c = true
                                                /\ isLowSurrogate d = true) (spread s)).
  { clear s. induction n as [|n IH]; intros s Hn.
    - destruct s; [split; [reflexivity | constructor] | simpl in Hn; lia].
    - destruct s as [|c [|d s]].
      + split; [reflexivity | constructor].
      + split; [reflexivity|]. constructor; [|constructor].
        left. exists c. split; [reflexivity | left; reflexivity].
      + change (spread (c :: d :: s))
          with (if isHighSurrogate c && isLowSurrogate d
                then [c; d] :: spread s else [c] :: spread (d :: s)).
        simpl in Hn.
        destruct (isHighSurrogate c && isLowSurrogate d) eqn:E.
        * destruct (IH s ltac:(lia)) as [Hc Hf]. split.
          -- cbn [concat app]. rewrite Hc. reflexivity.
          -- apply andb_prop in E. constructor.
             ++ right. exists c, d. split; [reflexivity | exact E].
             ++ revert Hf. apply List.Forall_impl. intros ch [[x [-> Hx]]|Hp].
                ** left. exists x. split; [reflexivity | right; right; exact Hx].
                ** right. exact Hp.
        * destruct (IH (d :: s) ltac:(simpl; lia)) as [Hc Hf]. split.
          -- cbn [concat app]. rewrite Hc. reflexivity.
          -- constructor.
             ++ left. exists c. split; [reflexivity | left; reflexivity].
             ++ revert Hf. apply List.Forall_impl. intros ch [[x [-> Hx]]|Hp].
                ** left. exists x. split; [reflexivity | right; exact Hx].
                ** right. exact Hp. }
  apply (H (length s)). lia.
Qed.

Lemma firstn_succ_nth {A : Type} (d : A) (l : list A) :
  forall n, (n < length l)%nat -> firstn (S n) l = firstn n l ++ [nth n l d].
Proof.
  induction l as [|x l IH]; intros [|n] Hn; simpl in Hn; try lia.
  - reflexivity.
  - change (firstn (S (S n)) (x :: l)) with (x :: firstn (S n) l).
    rewrite IH by lia. reflexivity.
Qed.

(** An element of the normalised text that is not the marker is written
    back as it is, and none of its code units is a quote glyph. *)
Lemma requoted_same (text : jsstring) (ch : jsstring) :
  In ch (spread (normalizeQuotes text)) -> ch <> [QUOT] -> Forall2 requoted ch ch.
Proof.
  intros Hin Hne.
  destruct (spread_elements (normalizeQuotes text)) as [_ Hf].
  rewrite List.Forall_forall in Hf.
  destruct (Hf ch Hin) as [[c [-> Hc]]|[c [d [-> [Hhi Hlo]]]]].
  - constructor; [|constructor]. unfold requoted.
    destruct (isQuoteGlyph c) eqn:Hg; [|reflexivity].
    exfalso. destruct (Z.eq_dec c QUOT) as [->|Hq]; [apply Hne; reflexivity|].
    exact (normalizeQuotes_no_glyph text c Hg Hq Hc).
  - assert (Hc : isQuoteGlyph c = false).
    { unfold isHighSurrogate, inRange in Hhi. unfold isQuoteGlyph.
      apply andb_prop in Hhi. destruct Hhi as [Hhi _]. apply Z.leb_le in Hhi.
      repeat match goal with
             | |- context [?x =? ?y] => destruct (Z.eqb_spec x y); [lia|]
             end. reflexivity. }
    assert (Hd : isQuoteGlyph d = false).
    { unfold isLowSurrogate, inRange in Hlo. unfold isQuoteGlyph.
      apply andb_prop in Hlo. destruct Hlo as [Hlo _]. apply Z.leb_le in Hlo.
      repeat match goal with
             | |- context [?x =? ?y] => destruct (Z.eqb_spec x y); [lia|]
             end. reflexivity. }
    constructor; [|constructor; [|constructor]]; unfold requoted.
    + rewrite Hc. reflexivity.
    + rewrite Hd. reflexivity.
Qed.

Lemma quoteScan_requoted (text : jsstring) (n : nat) :
  (n <= length (spread (normalizeQuotes text)))%nat ->
  Forall2 requoted
    (concat (firstn n (spread (normalizeQuotes text))))
    (concat (snd (quoteScan (spread (normalizeQuotes text)) n))).
Proof.
  set (chars := spread (normalizeQuotes text)).
  induction n as [|n IH]; intros Hn.
  - constructor.
  - rewrite quoteScan_S, (@firstn_succ_nth jsstring [] chars n) by lia.
    specialize (IH ltac:(lia)).
    destruct (quoteScan chars n) as [depth output]. cbn [snd] in IH.
    rewrite concat_app. cbn [concat]. rewrite app_nil_r.
    destruct (eqs (nth n chars []) [QUOT]) eqn:Hq.
    + apply eqs_eq in Hq. rewrite quoteStep_marker by exact Hq. rewrite Hq.
      assert (Hset : forall d, d = 0xAB \/ d = 0x201E \/ d = 0xBB \/ d = 0x22 ->
                 Forall2 requoted (concat (firstn n chars) ++ [QUOT]) (concat (output ++ [[d]]))).
      { intros d Hd. rewrite concat_app. cbn [concat]. rewrite app_nil_r.
        apply Forall2_app; [exact IH|]. constructor; [exact Hd | constructor]. }
      destruct (opensAt chars n); cbn [snd].
      * destruct (depth =? 0); apply Hset; [left | right; left]; reflexivity.
      * destruct (depth - 1 <=? 0); cbn [snd]; apply Hset;
          [right; right; left | right; right; right]; reflexivity.
    + rewrite quoteStep_other by exact Hq. cbn [snd].
      rewrite concat_app. cbn [concat]. rewrite app_nil_r.
      apply Forall2_app; [exact IH|].
      apply (requoted_same text).
      * apply nth_In. fold chars. lia.
      * intros E. rewrite E, eqs_refl in Hq. discriminate.
Qed.

(** X11: The Russian quote rule keeps the length of the text and every code
    unit that is not a quote glyph; a quote glyph is replaced by one of the
    four markers «, „, » and the straight quote. *)
Theorem ruQuotes_only_requotes (text : jsstring) (ctx : RuleContext) :
  Forall2 requoted text (Rule.apply ruQuotes text ctx).
Proof.
  cbn [Rule.apply ruQuotes]. rewrite join_nil_concat.
  pose proof (quoteScan_requoted text _ (Nat.le_refl _)) as H.
  rewrite firstn_all in H.
  rewrite (proj1 (spread_elements (normalizeQuotes text))) in H.
  revert H. rewrite normalizeQuotes_map.
  generalize (concat (snd (quoteScan (spread (map (fun c => if isQuoteGlyph c then QUOT else c) text))
                       (length (spread (map (fun c => if isQuoteGlyph c then QUOT else c) text)))))).
  intros out. revert out.
  induction text as [|c text IH]; intros out H; inversion H as [|? d ? out' Hc Hrest]; subst.
  - constructor.
  - constructor; [|apply IH; exact Hrest].
    unfold requoted in Hc |- *. destruct (isQuoteGlyph c) eqn:Hg; [|rewrite Hg in Hc; exact Hc].
    exact Hc.
Qed.

(** ** The decimal rule, code unit by code unit *)

Section DecimalCommas.

Variables (text : jsstring) (ctx : RuleContext).

Local Abbreviation go :=
  (replaceGo (RegExp (js "(\d)\.(\d)") "g") (decimalReplacer text ctx) 0).

Lemma commaAt_cons (x y : Z) (a out : list Z) (j : nat) :
  commaAt a out j -> commaAt (x :: a) (y :: out) (S j).
Proof.
  unfold commaAt.
  intros [H|[H46 [H44 [d1 [d2 [j' [-> [H1 [Hd1 [H2 Hd2]]]]]]]]]]; [left; exact H|].
  right. split; [exact H46|]. split; [exact H44|].
  exists d1, d2, (S j'). repeat split; assumption.
Qed.

Lemma decimal_only_commas :
  forall n a b, (length a <= n)%nat -> forall j, commaAt a (go b a) j.
Proof.
  induction n as [|n IH]; intros a b Hn j.
  - destruct a; [|simpl in Hn; lia]. rewrite replaceGo_decimal. left. reflexivity.
  - rewrite replaceGo_decimal.
    assert (Hskip : forall d1 rest,
               a = d1 :: rest -> commaAt a (d1 :: go (d1 :: b) rest) j).
    { intros d1 rest ->. simpl in Hn. destruct j as [|j]; [left; reflexivity|].
      apply commaAt_cons. apply IH. lia. }
    destruct a as [|d1 [|x [|d2 a']]].
    + left. reflexivity.
    + apply (Hskip d1 [] eq_refl).
    + apply (Hskip d1 [x] eq_refl).
    + destruct (isDigit d1 && (x =? 46) && isDigit d2) eqn:Hc;
        [|apply (Hskip d1 (x :: d2 :: a') eq_refl)].
      apply andb_prop in Hc. destruct Hc as [Hc Hd2].
      apply andb_prop in Hc. destruct Hc as [Hd1 Hx].
      apply Z.eqb_eq in Hx. subst x. simpl in Hn.
      assert (Hrest : forall r1 r2 r3 j0,
                 commaAt (d1 :: 46 :: d2 :: a')
                   (r1 :: r2 :: r3 :: go (d2 :: 46 :: d1 :: b) a') j0 ->
                 commaAt (d1 :: 46 :: d2 :: a')
                   ([r1; r2; r3] ++ go (d2 :: 46 :: d1 :: b) a') j0)
        by (intros; assumption).
      destruct (decimalReplacer_cases text ctx (length b) d1 d2) as [->|[-> _]];
        apply Hrest; destruct j as [|[|[|j]]];
        try (left; reflexivity);
        try (do 3 apply commaAt_cons; apply IH; lia).
      right. split; [reflexivity|]. split; [reflexivity|].
      exists d1, d2, 0%nat. repeat split; assumption.
Qed.

End DecimalCommas.

(** X12: The decimal rule keeps the length of the text, and where it changes a
    code unit it writes a comma for a full stop that stands between two
    digits; this holds in every context. *)
Theorem ruDecimals_only_commas (text : jsstring) (ctx : RuleContext) :
  length (Rule.apply ruDecimals text ctx) = length text
  /\ forall j, commaAt text (Rule.apply ruDecimals text ctx) j.
Proof.
  rewrite ruDecimals_replaceGo. split.
  - apply (decimal_pointwise text ctx (length text) text [] (Nat.le_refl _)).
  - apply (decimal_only_commas text ctx (length text) text [] (Nat.le_refl _)).
Qed.

(** *** An isolated decimal number *)

Lemma isDigit_not_dot (d : Z) : isDigit d = true -> (d =? 46) = false.
Proof.
  intros H. destruct (Z.eqb_spec d 46) as [->|_]; [discriminate H | reflexivity].
Qed.

Lemma rev_cons_app {A : Type} (x : A) (l b : list A) :
  rev (x :: l) ++ b = rev l ++ x :: b.
Proof. simpl. rewrite <- app_assoc. reflexivity. Qed.

(** The replacement loop passes a prefix of the text that neither ends in
    a full stop nor is followed by one: no match lies across its end. *)
Lemma decimal_sync (text : jsstring) (ctx : RuleContext) (d : Z) (r : list Z) :
  isDigit d = true ->
  forall n pre b,
    (length pre <= n)%nat ->
    List.last pre 0 <> 46 ->
    exists out,
      length out = length pre
      /\ replaceGo (RegExp (js "(\d)\.(\d)") "g") (decimalReplacer text ctx) 0 b
           (pre ++ d :: r)
         = out ++ replaceGo (RegExp (js "(\d)\.(\d)") "g") (decimalReplacer text ctx) 0
                    (rev pre ++ b) (d :: r).
Proof.
  intros Hd. induction n as [|n IH]; intros pre b Hn Hlast.
  - destruct pre; [|simpl in Hn; lia]. exists []. split; reflexivity.
  - destruct pre as [|p1 pre1]; [exists []; split; reflexivity|].
    simpl in Hn.
    assert (Hskip : List.last pre1 0 <> 46 ->
               exists out,
                 length out = length (p1 :: pre1)
                 /\ p1 :: replaceGo (RegExp (js "(\d)\.(\d)") "g")
                            (decimalReplacer text ctx) 0 (p1 :: b) (pre1 ++ d :: r)
                    = out ++ replaceGo (RegExp (js "(\d)\.(\d)") "g")
                               (decimalReplacer text ctx) 0
                               (rev (p1 :: pre1) ++ b) (d :: r)).
    { intros Hl. destruct (IH pre1 (p1 :: b) ltac:(lia) Hl) as [out [Hlen Heq]].
      exists (p1 :: out). split; [simpl; rewrite Hlen; reflexivity|].
      rewrite Heq, rev_cons_app. reflexivity. }
    rewrite replaceGo_decimal.
    change ((p1 :: pre1) ++ d :: r) with (p1 :: (pre1 ++ d :: r)). cbv iota.
    destruct pre1 as [|x [|d2 pre2]].
    + cbn [app]. replace (match r with
                          | [] => _
                          | d2 :: a' => _
                          end)
        with (p1 :: replaceGo (RegExp (js "(\d)\.(\d)") "g")
                      (decimalReplacer text ctx) 0 (p1 :: b) (d :: r)).
      * apply Hskip. simpl. discriminate.
      * destruct r as [|r1 r']; [reflexivity|].
        rewrite (isDigit_not_dot d Hd), andb_false_r. reflexivity.
    + cbn [app]. simpl in Hlast.
      destruct (Z.eqb_spec x 46) as [->|_]; [contradiction|].
      rewrite andb_false_r. cbn [andb]. apply Hskip. exact Hlast.
    + cbn [app].
      destruct (isDigit p1 && (x =? 46) && isDigit d2) eqn:Hc.
      * apply andb_prop in Hc. destruct Hc as [Hc _].
        apply andb_prop in Hc. destruct Hc as [_ Hx].
        apply Z.eqb_eq in Hx. subst x.
        assert (Hl2 : List.last pre2 0 <> 46).
        { destruct pre2; [simpl; discriminate | exact Hlast]. }
        destruct (IH pre2 (d2 :: 46 :: p1 :: b) ltac:(simpl in Hn; lia) Hl2)
          as [out [Hlen Heq]].
        rewrite Heq, !rev_cons_app.
        destruct (decimalReplacer_cases text ctx (length b) p1 d2) as [->|[-> _]].
        -- exists ([p1; 46; d2] ++ out). split; [simpl; rewrite Hlen; reflexivity|].
           rewrite <- app_assoc. reflexivity.
        -- exists ([p1; 44; d2] ++ out). split; [simpl; rewrite Hlen; reflexivity|].
           rewrite <- app_assoc. reflexivity.
      * apply Hskip. exact Hlast.
Qed.

(** X13: A decimal number that stands alone (no full stop right before its
    first digit or right after its second one) at an unprotected offset
    gets its comma. *)
Theorem ruDecimals_isolated_number
    (pre post : jsstring) (d1 d2 : Z) (ctx : RuleContext) :
  isDigit d1 = true -> isDigit d2 = true ->
  List.last pre 0 <> 46 -> hd 0 post <> 46 ->
  isProtected (len pre) (protectedRanges ctx) = false ->
  nth_error (Rule.apply ruDecimals (pre ++ [d1; 46; d2] ++ post) ctx) (S (length pre))
  = Some 44.
Proof.
  intros Hd1 Hd2 Hlast Hhd Hprot. rewrite ruDecimals_replaceGo.
  set (text := pre ++ [d1; 46; d2] ++ post).
  destruct (decimal_sync text ctx d1 (46 :: d2 :: post) Hd1 (length pre) pre []
              (Nat.le_refl _) Hlast) as [out [Hlen Heq]].
  unfold text at 2. cbn [app]. rewrite Heq.
  rewrite nth_error_app2 by lia.
  replace (S (length pre) - length out)%nat with 1%nat by lia.
  rewrite replaceGo_decimal, Hd1, Hd2, Z.eqb_refl. cbn [andb].
  assert (Hrep : decimalReplacer text ctx
                   (MInfo (length (rev pre ++ [])) [d1; 46; d2]
                      [(2%nat, [d2]); (1%nat, [d1])])
                 = [d1; 44; d2]).
  { unfold decimalReplacer. cbn [m_offset m_text].
    rewrite app_nil_r, length_rev. fold (len pre). rewrite Hprot.
    assert (Hafter : atIs text (len pre + len [d1; 46; d2]) 46 = false).
    { unfold atIs, at_, len, text.
      destruct (Z.ltb_spec (Z.of_nat (length pre) + Z.of_nat (length [d1; 46; d2])) 0);
        [lia|].
      replace (Z.to_nat (Z.of_nat (length pre) + Z.of_nat (length [d1; 46; d2])))
        with (length pre + 3)%nat by (simpl; lia).
      rewrite nth_error_app2 by lia.
      replace (length pre + 3 - length pre)%nat with 3%nat by lia.
      destruct post as [|z post']; [reflexivity|]. simpl in Hhd |- *.
      destruct (Z.eqb_spec z 46); [contradiction | reflexivity]. }
    rewrite Hafter, andb_false_r.
    assert (Hbefore : (2 <=? len pre) && atIs text (len pre - 1) 46 = false).
    { destruct (Z.leb_spec 2 (len pre)) as [H2|_]; [|reflexivity].
      cbn [andb]. unfold atIs, at_, text.
      destruct (Z.ltb_spec (len pre - 1) 0); [lia|].
      assert (Hne : pre <> []) by (intros ->; unfold len in H2; simpl in H2; lia).
      destruct (exists_last Hne) as [pre' [x Hx]]. subst pre.
      rewrite last_last in Hlast. unfold len. rewrite length_app. cbn [length].
      replace (Z.to_nat (Z.of_nat (length pre' + 1) - 1)) with (length pre') by lia.
      rewrite <- !app_assoc. rewrite nth_error_app2 by lia.
      rewrite Nat.sub_diag. cbn [app nth_error].
      destruct (Z.eqb_spec x 46); [contradiction | reflexivity]. }
    rewrite Hbefore. reflexivity. }
  rewrite Hrep. reflexivity.
Qed.

Lemma ruDecimals_isolated_number_witness :
  nth_error
    (Rule.apply ruDecimals (js "pi = " ++ [51; 46; 49] ++ js "4, v1.2.3")
       (contextOf ru (js "pi = 3.14, v1.2.3")))
    (S (length (js "pi = ")))
  = Some 44.
Proof.
  apply ruDecimals_isolated_number.
  - reflexivity.
  - reflexivity.
  - vm_compute. discriminate.
  - vm_compute. discriminate.
  - vm_compute. reflexivity.
Defined.

(** ** Writing a text back to its node *)

Lemma firstn_succ_nth_error {A : Type} (l : list A) :
  forall n x, nth_error l n = Some x -> firstn (S n) l = firstn n l ++ [x].
Proof.
  induction l as [|y l IH]; intros [|n] x H; try discriminate.
  - injection H as ->. reflexivity.
  - simpl in H. change (firstn (S (S n)) (y :: l)) with (y :: firstn (S n) l).
    rewrite (IH n x H). reflexivity.
Qed.

Lemma at_nat (s : jsstring) (n : nat) : at_ s (Z.of_nat n) = nth_error s n.
Proof.
  unfold at_. destruct (Z.ltb_spec (Z.of_nat n) 0); [lia|].
  rewrite Nat2Z.id. reflexivity.
Qed.

Lemma nth_error_some {A : Type} (l : list A) (n : nat) :
  (n < length l)%nat -> exists x, nth_error l n = Some x.
Proof.
  intros H. destruct (nth_error l n) as [x|] eqn:E; [exists x; reflexivity|].
  apply nth_error_None in E. lia.
Qed.

(** Two indices in range hold the same code unit when [sameAt] says so. *)
Lemma sameAt_in_range (a b : jsstring) (i j : nat) :
  (i < length a)%nat -> (j < length b)%nat ->
  exists x y,
    nth_error a i = Some x /\ nth_error b j = Some y
    /\ sameAt a (Z.of_nat i) b (Z.of_nat j) = (x =? y).
Proof.
  intros Hi Hj.
  destruct (nth_error_some a i Hi) as [x Hx], (nth_error_some b j Hj) as [y Hy].
  exists x, y. unfold sameAt. rewrite !at_nat, Hx, Hy. repeat split.
Qed.

(** The equal-length case: after the first [n] iterations the node holds
    the first [n] code units of the new text and the rest of the old one. *)
Lemma replaceUnit_fold (oldText newText : jsstring) (node : TextNode) :
  characters node = oldText ->
  length oldText = length newText ->
  forall n,
    (n <= length oldText)%nat ->
    exists node',
      fold_left (replaceUnit oldText newText) (seq 0 n) (Some node) = Some node'
      /\ characters node' = firstn n newText ++ skipn n oldText.
Proof.
  intros Hnode Hlen. induction n as [|n IH]; intros Hn.
  - exists node. split; [reflexivity | exact Hnode].
  - destruct (IH ltac:(lia)) as [node1 [Hfold Hchars]].
    rewrite seq_S, fold_left_app, Hfold. cbn [fold_left Nat.add replaceUnit].
    destruct (sameAt_in_range oldText newText n n ltac:(lia) ltac:(lia))
      as [x [y [Hx [Hy ->]]]].
    rewrite (firstn_succ_nth_error newText n y Hy).
    assert (Hskip : skipn n oldText = x :: skipn (S n) oldText)
      by (apply skipn_nth_error; exact Hx).
    assert (Hfn : length (firstn n newText) = n) by (rewrite length_firstn; lia).
    destruct (Z.eqb_spec x y) as [->|Hxy]; cbn [negb].
    + exists node1. split; [reflexivity|].
      rewrite Hchars, Hskip, <- app_assoc. reflexivity.
    + unfold deleteCharacters, insertCharacters, unitAt.
      rewrite at_nat, Hy, Hchars.
      assert (Hl1 : len (firstn n newText ++ skipn n oldText) = Z.of_nat (length oldText)).
      { unfold len. rewrite length_app, length_skipn, Hfn. f_equal. lia. }
      rewrite Hl1.
      replace ((0 <=? Z.of_nat n) && (Z.of_nat n <=? Z.of_nat n + 1)
               && (Z.of_nat n + 1 <=? Z.of_nat (length oldText))) with true
        by (symmetry; rewrite !andb_true_iff, !Z.leb_le; lia).
      cbn [characters].
      replace (Z.to_nat (Z.of_nat n + 1)) with (S n) by lia. rewrite Nat2Z.id.
      rewrite firstn_app, Hfn, Nat.sub_diag, firstn_all2 by lia.
      cbn [firstn]. rewrite app_nil_r.
      rewrite skipn_app, Hfn, skipn_all2 by lia.
      replace (S n - n)%nat with 1%nat by lia. rewrite Hskip. cbn [skipn app].
      rewrite ?skipn_O.
      assert (Hl2 : len (firstn n newText ++ skipn (S n) oldText)
                    = Z.of_nat (length oldText) - 1).
      { unfold len. rewrite length_app, length_skipn, Hfn. lia. }
      rewrite Hl2.
      replace ((0 <=? Z.of_nat n) && (Z.of_nat n <=? Z.of_nat (length oldText) - 1))
        with true by (symmetry; rewrite !andb_true_iff, !Z.leb_le; lia).
      eexists. split; [reflexivity|]. cbn [characters].
      rewrite firstn_app, Hfn, Nat.sub_diag, firstn_all2 by lia.
      cbn [firstn]. rewrite app_nil_r.
      rewrite skipn_app, Hfn, skipn_all2 by lia. rewrite Nat.sub_diag.
      cbn [skipn app]. rewrite <- app_assoc. reflexivity.
Qed.

(** The first loop ends, at the length of a common prefix. *)
Lemma prefixLoop_common (oldText newText : jsstring) (minLen : Z) :
  minLen <= len oldText -> minLen <= len newText ->
  forall fuel prefixLen,
    0 <= prefixLen <= minLen ->
    (Z.to_nat (minLen - prefixLen) < fuel)%nat ->
    firstn (Z.to_nat prefixLen) oldText = firstn (Z.to_nat prefixLen) newText ->
    exists p,
      prefixLoop fuel oldText newText minLen prefixLen = Some p
      /\ 0 <= p <= minLen
      /\ firstn (Z.to_nat p) oldText = firstn (Z.to_nat p) newText.
Proof.
  intros Ho Hn. unfold len in Ho, Hn.
  induction fuel as [|fuel IH]; intros p Hp Hfuel Hpre; [lia|].
  cbn [prefixLoop].
  destruct (Z.ltb_spec p minLen) as [Hlt|Hge]; cbn [andb];
    [|exists p; split; [reflexivity | split; [lia | exact Hpre]]].
  destruct (sameAt_in_range oldText newText (Z.to_nat p) (Z.to_nat p)
              ltac:(lia) ltac:(lia)) as [x [y [Hx [Hy Hs]]]].
  rewrite Z2Nat.id in Hs by lia. rewrite Hs.
  destruct (Z.eqb_spec x y) as [->|_];
    [|exists p; split; [reflexivity | split; [lia | exact Hpre]]].
  apply IH; [lia | lia |].
  replace (Z.to_nat (p + 1)) with (S (Z.to_nat p)) by lia.
  rewrite (firstn_succ_nth_error oldText _ y Hx), (firstn_succ_nth_error newText _ y Hy).
  rewrite Hpre. reflexivity.
Qed.

(** The second loop ends, at the length of a common suffix that does not
    overlap the prefix. *)
Lemma suffixLoop_common (oldText newText : jsstring) (minLen prefixLen : Z) :
  minLen <= len oldText -> minLen <= len newText -> 0 <= prefixLen <= minLen ->
  forall fuel suffixLen,
    0 <= suffixLen <= minLen - prefixLen ->
    (Z.to_nat (minLen - prefixLen - suffixLen) < fuel)%nat ->
    skipn (length oldText - Z.to_nat suffixLen) oldText
    = skipn (length newText - Z.to_nat suffixLen) newText ->
    exists s,
      suffixLoop fuel oldText newText minLen prefixLen suffixLen = Some s
      /\ 0 <= s <= minLen - prefixLen
      /\ skipn (length oldText - Z.to_nat s) oldText
         = skipn (length newText - Z.to_nat s) newText.
Proof.
  intros Ho Hn Hp. unfold len in Ho, Hn.
  induction fuel as [|fuel IH]; intros s Hs Hfuel Hsuf; [lia|].
  cbn [suffixLoop].
  destruct (Z.ltb_spec s (minLen - prefixLen)) as [Hlt|Hge]; cbn [andb];
    [|exists s; split; [reflexivity | split; [lia | exact Hsuf]]].
  destruct (sameAt_in_range oldText newText
              (length oldText - 1 - Z.to_nat s) (length newText - 1 - Z.to_nat s)
              ltac:(lia) ltac:(lia)) as [x [y [Hx [Hy Hsame]]]].
  replace (Z.of_nat (length oldText - 1 - Z.to_nat s)) with (len oldText - 1 - s)
    in Hsame by (unfold len; lia).
  replace (Z.of_nat (length newText - 1 - Z.to_nat s)) with (len newText - 1 - s)
    in Hsame by (unfold len; lia).
  rewrite Hsame.
  destruct (Z.eqb_spec x y) as [->|_];
    [|exists s; split; [reflexivity | split; [lia | exact Hsuf]]].
  apply IH; [lia | lia |].
  replace (length oldText - Z.to_nat (s + 1))%nat
    with (length oldText - 1 - Z.to_nat s)%nat by lia.
  replace (length newText - Z.to_nat (s + 1))%nat
    with (length newText - 1 - Z.to_nat s)%nat by lia.
  rewrite (skipn_nth_error oldText _ y Hx), (skipn_nth_error newText _ y Hy).
  replace (S (length oldText - 1 - Z.to_nat s)) with (length oldText - Z.to_nat s)%nat
    by lia.
  replace (S (length newText - 1 - Z.to_nat s)) with (length newText - Z.to_nat s)%nat
    by lia.
  rewrite Hsuf. reflexivity.
Qed.

Lemma substring_in_range (s : jsstring) (a b : Z) :
  0 <= a <= b -> b <= len s ->
  substring s a b = firstn (Z.to_nat (b - a)) (skipn (Z.to_nat a) s).
Proof.
  intros Ha Hb. unfold substring.
  replace (Z.min (Z.max a 0) (len s)) with a by lia.
  replace (Z.min (Z.max b 0) (len s)) with b by lia.
  replace (Z.max a b) with b by lia. replace (Z.min a b) with a by lia.
  reflexivity.
Qed.

(** X14: [applyTextPreservingStyles] never makes an editing call outside the
    text and its loops end; afterwards the node holds the new text, and
    the returned flag tells whether the text differed from the old one. *)
Theorem applyTextPreservingStyles_writes_text (node : TextNode) (newText : jsstring) :
  exists node',
    applyTextPreservingStyles node newText
    = Some (negb (eqs (characters node) newText), node')
    /\ characters node' = newText.
Proof.
  unfold applyTextPreservingStyles. set (oldText := characters node).
  destruct (eqs oldText newText) eqn:E; cbn [negb].
  { exists node. split; [reflexivity | apply eqs_eq; exact E]. }
  destruct (Z.eqb_spec (len oldText) (len newText)) as [Hlen|Hlen].
  { assert (Hl : length oldText = length newText) by (unfold len in Hlen; lia).
    destruct (replaceUnit_fold oldText newText node eq_refl Hl (length oldText)
                (Nat.le_refl _)) as [node' [Hf Hc]].
    rewrite Hf. exists node'. split; [reflexivity|].
    rewrite Hc, Hl, firstn_all, skipn_all2 by lia. apply app_nil_r. }
  set (minLen := Z.min (len oldText) (len newText)).
  assert (Hmo : minLen <= len oldText) by (unfold minLen; lia).
  assert (Hmn : minLen <= len newText) by (unfold minLen; lia).
  assert (Hm0 : 0 <= minLen) by (unfold minLen, len; lia).
  destruct (prefixLoop_common oldText newText minLen Hmo Hmn (S (length oldText)) 0
              ltac:(lia) ltac:(unfold len in Hmo; lia) eq_refl)
    as [p [-> [Hp Hpre]]].
  destruct (suffixLoop_common oldText newText minLen p Hmo Hmn Hp (S (length oldText)) 0
              ltac:(lia) ltac:(unfold len in Hmo; lia)
              ltac:(rewrite !Nat.sub_0_r, !skipn_all; reflexivity))
    as [s [-> [Hs Hsuf]]].
  cbv zeta. unfold len in Hmo, Hmn.
  rewrite (substring_in_range newText p (len newText - s)) by (unfold len; lia).
  set (newMiddle := firstn (Z.to_nat (len newText - s - p)) (skipn (Z.to_nat p) newText)).
  assert (Hdel : exists node1,
             (if p <? len oldText - s
              then deleteCharacters p (len oldText - s) node else Some node) = Some node1
             /\ characters node1
                = firstn (Z.to_nat p) oldText
                  ++ skipn (length oldText - Z.to_nat s) oldText).
  { destruct (Z.ltb_spec p (len oldText - s)) as [Hlt|Hge].
    - unfold deleteCharacters. fold oldText.
      replace ((0 <=? p) && (p <=? len oldText - s) && (len oldText - s <=? len oldText))
        with true by (symmetry; rewrite !andb_true_iff, !Z.leb_le; lia).
      eexists. split; [reflexivity|]. cbn [characters].
      replace (Z.to_nat (len oldText - s)) with (length oldText - Z.to_nat s)%nat
        by (unfold len; lia).
      reflexivity.
    - exists node. split; [reflexivity|]. fold oldText.
      replace (length oldText - Z.to_nat s)%nat with (Z.to_nat p)
        by (unfold len in Hge; lia).
      symmetry. apply firstn_skipn. }
  destruct Hdel as [node1 [-> Hc1]].
  assert (Hfp : length (firstn (Z.to_nat p) oldText) = Z.to_nat p)
    by (rewrite length_firstn; lia).
  assert (Hins : exists node2,
             (if 0 <? len newMiddle
              then insertCharacters p newMiddle node1 else Some node1) = Some node2
             /\ characters node2
                = firstn (Z.to_nat p) oldText ++ newMiddle
                  ++ skipn (length oldText - Z.to_nat s) oldText).
  { destruct (Z.ltb_spec 0 (len newMiddle)) as [Hlt|Hge].
    - unfold insertCharacters. rewrite Hc1.
      replace ((0 <=? p)
               && (p <=? len (firstn (Z.to_nat p) oldText
                              ++ skipn (length oldText - Z.to_nat s) oldText)))
        with true
        by (symmetry; rewrite !andb_true_iff, !Z.leb_le; unfold len;
            rewrite length_app, Hfp; lia).
      eexists. split; [reflexivity|]. cbn [characters].
      rewrite firstn_app, Hfp, Nat.sub_diag, firstn_all2 by lia.
      cbn [firstn]. rewrite app_nil_r.
      rewrite skipn_app, Hfp, skipn_all2 by lia. rewrite Nat.sub_diag, skipn_O.
      reflexivity.
    - exists node1. split; [reflexivity|]. rewrite Hc1.
      assert (Hnil : newMiddle = []).
      { destruct newMiddle; [reflexivity | unfold len in Hge; simpl in Hge; lia]. }
      rewrite Hnil. reflexivity. }
  destruct Hins as [node2 [-> Hc2]].
  exists node2. split; [reflexivity|].
  rewrite Hc2, Hpre, Hsuf. unfold newMiddle.
  assert (H3 : skipn (Z.to_nat (len newText - s - p)) (skipn (Z.to_nat p) newText)
               = skipn (length newText - Z.to_nat s) newText)
    by (rewrite skipn_skipn; f_equal; unfold len; lia).
  rewrite <- H3, firstn_skipn. apply firstn_skipn.
Qed.

(** ** Rules that collapse a run of one code unit *)

(** Passing the rest of a match is the same as starting again behind it. *)
Lemma replaceGo_skip (re : regexp) (fn : minfo -> jsstring) :
  forall n a b,
    (n <= length a)%nat ->
    replaceGo re fn n b a = replaceGo re fn 0 (rev (firstn n a) ++ b) (skipn n a).
Proof.
  induction n as [|n IH]; intros a b Hn.
  - reflexivity.
  - destruct a as [|x a]; [simpl in Hn; lia|].
    change (replaceGo re fn (S n) b (x :: a)) with (replaceGo re fn n (x :: b) a).
    rewrite IH by (simpl in Hn; lia).
    cbn [firstn skipn]. rewrite rev_cons_app. reflexivity.
Qed.

Lemma spanOf_le (c : Z) (a : list Z) : (spanOf c a <= length a)%nat.
Proof.
  induction a as [|x a IH]; simpl; [lia|]. destruct (x =? c); simpl; lia.
Qed.

Lemma spanOf_skipn (c : Z) (a : list Z) : spanOf c (skipn (spanOf c a) a) = 0%nat.
Proof.
  induction a as [|x a IH]; [reflexivity|].
  simpl. destruct (x =? c) eqn:E; [exact IH|].
  simpl. rewrite E. reflexivity.
Qed.

Lemma spanBy_le (p : Z -> bool) (a : list Z) : (spanBy p a <= length a)%nat.
Proof.
  induction a as [|x a IH]; simpl; [lia|]. destruct (p x); simpl; lia.
Qed.

Lemma spanOf_spanBy (c : Z) (a : list Z) : spanOf c a = spanBy (fun x => x =? c) a.
Proof.
  induction a as [|x a IH]; [reflexivity|]. simpl. rewrite IH. reflexivity.
Qed.

(** A greedy repetition of a term that matches one code unit satisfying
    [p], followed by nothing, takes the whole run of such code units at
    the current position. *)
Section GreedyRun.

Variables (p : Z -> bool).
Variable mr : mstate -> (mstate -> option mstate) -> option mstate.
Hypothesis one :
  forall b a cs k0,
    mr (MState b a cs) k0
    = match a with
      | x :: a' => if p x then k0 (MState (x :: b) a' cs) else None
      | [] => None
      end.

Lemma repLoop_greedy_run (mn : nat) :
  forall fuel cnt b a cs,
    (length a + (mn - cnt) < fuel)%nat ->
    repLoop mr true mn None true Some fuel cnt (MState b a cs)
    = if (mn <=? cnt + spanBy p a)%nat
      then Some (MState (rev (firstn (spanBy p a) a) ++ b) (skipn (spanBy p a) a) cs)
      else None.
Proof.
  induction fuel as [|fuel IH]; intros cnt b a cs Hfuel; [lia|].
  cbn [repLoop reached]. rewrite !one.
  destruct a as [|x a'].
  - cbn [spanBy firstn skipn rev app]. rewrite Nat.add_0_r.
    destruct (Nat.ltb_spec cnt mn) as [Hlt|Hge].
    + destruct (Nat.leb_spec mn cnt); [lia | reflexivity].
    + destruct (Nat.leb_spec mn cnt); [reflexivity | lia].
  - cbn [spanBy]. destruct (p x).
    + cbn [length] in Hfuel. cbn [firstn skipn rev room aft length].
      rewrite <- app_assoc. cbn [app].
      replace (length a' =? S (length a'))%nat with false
        by (symmetry; apply Nat.eqb_neq; lia).
      rewrite IH by lia.
      replace (cnt + S (spanBy p a'))%nat with (S cnt + spanBy p a')%nat by lia.
      destruct (Nat.ltb_spec cnt mn) as [Hlt|Hge]; [reflexivity|].
      destruct (Nat.leb_spec mn (S cnt + spanBy p a')); [reflexivity | lia].
    + cbn [firstn skipn rev app]. rewrite Nat.add_0_r.
      destruct (Nat.ltb_spec cnt mn) as [Hlt|Hge].
      * destruct (Nat.leb_spec mn cnt); [lia | reflexivity].
      * destruct (Nat.leb_spec mn cnt); [reflexivity | lia].
Qed.

End GreedyRun.

Section RunCollapse.

Variables (fl : flags) (c : Z).
Hypothesis caseSensitive : ignoreCase fl = false.

(** The greedy repetition of [c], followed by nothing, takes the whole
    run of [c] at the current position. *)
Lemma repLoop_run (mn : nat) :
  forall fuel cnt b a cs,
    (length a + (mn - cnt) < fuel)%nat ->
    repLoop (fun st' k' => m fl (Chr c) true (clearCaps (groups (Chr c)) st') k')
      true mn None true Some fuel cnt (MState b a cs)
    = if (mn <=? cnt + spanOf c a)%nat
      then Some (MState (rev (firstn (spanOf c a) a) ++ b) (skipn (spanOf c a) a) cs)
      else None.
Proof.
  intros fuel cnt b a cs Hfuel. rewrite spanOf_spanBy.
  apply (repLoop_greedy_run (fun x => x =? c)); [|exact Hfuel].
  intros b0 a0 cs0 k0.
  cbn [m groups clearCaps next aft bef caps]. unfold canon.
  rewrite caseSensitive. destruct a0; reflexivity.
Qed.

Variables (re : regexp) (rc : Z).
Hypothesis pattern : re = RegExpOf (Rep 2 None true (Chr c)) fl.

(** A match is a run of at least two [c], taken whole. *)
Lemma matchAt_run (b a : list Z) :
  matchAt re b a
  = if (2 <=? spanOf c a)%nat
    then Some (MState (rev (firstn (spanOf c a) a) ++ b) (skipn (spanOf c a) a) [])
    else None.
Proof.
  rewrite pattern. unfold matchAt. cbn [re_ast re_flags]. rewrite m_Rep.
  rewrite repLoop_run by (cbn [room aft]; lia). reflexivity.
Qed.

(** One step of the replacement loop: a run of at least two [c] is
    replaced by [rc], any other code unit is kept. *)
Lemma replaceGo_run (b a : list Z) :
  replaceGo re (fun _ => [rc]) 0 b a
  = match a with
    | [] => []
    | x :: a' =>
      if (2 <=? spanOf c a)%nat
      then rc :: replaceGo re (fun _ => [rc]) 0
                   (rev (firstn (spanOf c a) a) ++ b) (skipn (spanOf c a) a)
      else x :: replaceGo re (fun _ => [rc]) 0 (x :: b) a'
    end.
Proof.
  destruct a as [|x a']; cbn [replaceGo]; rewrite matchAt_run.
  - reflexivity.
  - destruct (Nat.leb_spec 2 (spanOf c (x :: a'))) as [H2|H2]; [|reflexivity].
    cbn [aft]. rewrite length_skipn.
    pose proof (spanOf_le c (x :: a')) as Hle.
    replace (length (x :: a') - (length (x :: a') - spanOf c (x :: a')))%nat
      with (S (spanOf c (x :: a') - 1)) by lia.
    rewrite replaceGo_skip by (cbn [length] in Hle; lia).
    replace (spanOf c (x :: a')) with (S (spanOf c (x :: a') - 1)) at 3 4 by lia.
    cbn [firstn skipn app]. rewrite rev_cons_app. reflexivity.
Qed.

(** The output has no two adjacent [c], and starts with [c] only if the
    input does. *)
Lemma run_collapsed :
  forall n a b,
    (length a <= n)%nat ->
    adjacent c (replaceGo re (fun _ => [rc]) 0 b a) = false
    /\ (spanOf c a = 0%nat -> spanOf c (replaceGo re (fun _ => [rc]) 0 b a) = 0%nat).
Proof.
  induction n as [|n IH]; intros a b Hn.
  - destruct a; [|simpl in Hn; lia]. rewrite replaceGo_run. split; reflexivity.
  - rewrite replaceGo_run. destruct a as [|x a']; [split; reflexivity|].
    destruct (Nat.leb_spec 2 (spanOf c (x :: a'))) as [H2|H2].
    + pose proof (spanOf_le c (x :: a')) as Hle.
      destruct (IH (skipn (spanOf c (x :: a')) (x :: a'))
                  (rev (firstn (spanOf c (x :: a')) (x :: a')) ++ b)) as [Hadj Hhead].
      { rewrite length_skipn. cbn [length] in Hn |- *. lia. }
      specialize (Hhead (spanOf_skipn c (x :: a'))).
      split; [|lia].
      cbn [adjacent]. rewrite Hhead, Hadj, andb_false_r. reflexivity.
    + simpl in Hn. destruct (IH a' (x :: b) ltac:(lia)) as [Hadj Hhead].
      cbn [spanOf] in H2 |- *. cbn [adjacent]. rewrite Hadj.
      destruct (x =? c).
      * rewrite Hhead by lia. split; [reflexivity | intros H; discriminate H].
      * split; reflexivity.
Qed.

(** A text without two adjacent [c] is returned as it is. *)
Lemma run_absent :
  forall a b, adjacent c a = false -> replaceGo re (fun _ => [rc]) 0 b a = a.
Proof.
  induction a as [|x a' IH]; intros b Hadj; rewrite replaceGo_run; [reflexivity|].
  cbn [adjacent] in Hadj. apply orb_false_elim in Hadj. destruct Hadj as [Hx Hadj].
  assert (H2 : (2 <=? spanOf c (x :: a'))%nat = false).
  { apply Nat.leb_gt. cbn [spanOf]. destruct (x =? c); [|lia].
    cbn [andb] in Hx. apply Nat.ltb_ge in Hx. lia. }
  rewrite H2, IH by exact Hadj. reflexivity.
Qed.

End RunCollapse.

Lemma removeDoubleSpaces_replaceGo (text : jsstring) (ctx : RuleContext) :
  Rule.apply removeDoubleSpaces text ctx
  = replaceGo (RegExpOf (Rep 2 None true (Chr SPACE)) (Flags true false false))
      (fun _ => [SPACE]) 0 [] text.
Proof. reflexivity. Qed.

(** X15: After the double-space rule no two U+0020 are adjacent, and a second
    application changes nothing. *)
Theorem removeDoubleSpaces_no_double_space (text : jsstring) (ctx ctx' : RuleContext) :
  adjacent SPACE (Rule.apply removeDoubleSpaces text ctx) = false
  /\ Rule.apply removeDoubleSpaces (Rule.apply removeDoubleSpaces text ctx) ctx'
     = Rule.apply removeDoubleSpaces text ctx.
Proof.
  assert (H : adjacent SPACE (Rule.apply removeDoubleSpaces text ctx) = false).
  { rewrite removeDoubleSpaces_replaceGo.
    apply (run_collapsed (Flags true false false) SPACE eq_refl _ SPACE eq_refl
             (length text) text [] (Nat.le_refl _)). }
  split; [exact H|].
  rewrite (removeDoubleSpaces_replaceGo (Rule.apply removeDoubleSpaces text ctx)).
  apply (run_absent (Flags true false false) SPACE eq_refl _ SPACE eq_refl). exact H.
Qed.

Lemma ellipsis_replaceGo (text : jsstring) (ctx : RuleContext) :
  Rule.apply ellipsis text ctx
  = replaceGo (RegExpOf (Rep 2 None true (Chr 46)) (Flags true false false))
      (fun _ => [0x2026]) 0 [] text.
Proof. reflexivity. Qed.

(** X16: After the ellipsis rule no two full stops are adjacent, and a second
    application changes nothing. *)
Theorem ellipsis_no_adjacent_full_stops (text : jsstring) (ctx ctx' : RuleContext) :
  adjacent 46 (Rule.apply ellipsis text ctx) = false
  /\ Rule.apply ellipsis (Rule.apply ellipsis text ctx) ctx' = Rule.apply ellipsis text ctx.
Proof.
  assert (H : adjacent 46 (Rule.apply ellipsis text ctx) = false).
  { rewrite ellipsis_replaceGo.
    apply (run_collapsed (Flags true false false) 46 eq_refl _ 0x2026 eq_refl
             (length text) text [] (Nat.le_refl _)). }
  split; [exact H|].
  rewrite (ellipsis_replaceGo (Rule.apply ellipsis text ctx)).
  apply (run_absent (Flags true false false) 46 eq_refl _ 0x2026 eq_refl). exact H.
Qed.

(** ** The width rules *)

(** Replacing every match of a character class by a text computed from
    the matched code unit. *)
Lemma replaceGo_class_fn (re : regexp) (neg : bool) (items : list citem)
    (fn : minfo -> jsstring) (f : Z -> jsstring) :
  re_ast re = Cls neg items ->
  (forall o c cs, fn (MInfo o [c] cs) = f c) ->
  forall a b,
    replaceGo re fn 0 b a =
    flat_map (fun c => if cls_match (ignoreCase (re_flags re)) neg items c
                       then f c else [c]) a.
Proof.
  intros H Hfn a. induction a as [|c a IH]; intros b.
  - simpl. rewrite (matchAt_class re neg items b [] H). reflexivity.
  - cbn [replaceGo flat_map]. rewrite (matchAt_class re neg items b (c :: a) H).
    destruct (cls_match (ignoreCase (re_flags re)) neg items c).
    + unfold mkInfo. cbn [aft caps]. rewrite length_cons_sub. cbn [firstn].
      rewrite Hfn, IH. reflexivity.
    + rewrite IH. reflexivity.
Qed.

Lemma cls_ranges (c : Z) (ranges : list (Z * Z)) :
  cls_match false false (map (fun r => CRange (fst r) (snd r)) ranges) c
  = existsb (fun r => inRange (fst r) (snd r) c) ranges.
Proof.
  unfold cls_match. cbn [xorb]. induction ranges as [|r ranges IH]; [reflexivity|].
  cbn [map existsb]. rewrite IH. unfold item_match at 1. cbn [item_in andb].
  rewrite orb_false_r. reflexivity.
Qed.

Lemma widthNormalize_map (text : jsstring) :
  replaceFn (RegExp (js "[\uff21-\uff3a\uff41-\uff5a]") "g") toHalfwidth
    (replaceFn (RegExp (js "[\uff10-\uff19]") "g") toHalfwidth text)
  = map halfwidth text.
Proof.
  assert (H1 : RegExp (js "[\uff10-\uff19]") "g"
               = RegExpOf (Cls false (map (fun r => CRange (fst r) (snd r))
                                        [(0xFF10, 0xFF19)]))
                   (Flags true false false)) by (vm_compute; reflexivity).
  assert (H2 : RegExp (js "[\uff21-\uff3a\uff41-\uff5a]") "g"
               = RegExpOf (Cls false (map (fun r => CRange (fst r) (snd r))
                                        [(0xFF21, 0xFF3A); (0xFF41, 0xFF5A)]))
                   (Flags true false false)) by (vm_compute; reflexivity).
  rewrite H1, H2. unfold replaceFn. cbn [re_flags global].
  assert (Hfn : forall (o : nat) (c : Z) (cs : list (nat * jsstring)),
             toHalfwidth (MInfo o [c] cs) = [(c - 0xfee0) mod 0x10000])
    by reflexivity.
  rewrite (replaceGo_class_fn
             (RegExpOf (Cls false (map (fun r => CRange (fst r) (snd r))
                                     [(0xFF10, 0xFF19)])) (Flags true false false))
             false _ toHalfwidth _ eq_refl Hfn).
  rewrite (replaceGo_class_fn
             (RegExpOf (Cls false (map (fun r => CRange (fst r) (snd r))
                                     [(0xFF21, 0xFF3A); (0xFF41, 0xFF5A)]))
                (Flags true false false))
             false _ toHalfwidth _ eq_refl Hfn).
  cbn [re_flags ignoreCase].
  induction text as [|c text IH]; [reflexivity|].
  cbn [flat_map]. change (map halfwidth (c :: text)) with (halfwidth c :: map halfwidth text).
  rewrite !cls_ranges. cbn [existsb fst snd].
  rewrite !orb_false_r.
  assert (Hc : (if inRange 65296 65305 c then [(c - 65248) mod 65536] else [c])
               = [if inRange 65296 65305 c then c - 65248 else c]).
  { unfold inRange.
    destruct (Z.leb_spec 65296 c), (Z.leb_spec c 65305); cbn [andb]; try reflexivity.
    rewrite Z.mod_small by lia. reflexivity. }
  rewrite Hc. cbn [app flat_map]. rewrite !cls_ranges. cbn [existsb fst snd].
  rewrite !orb_false_r, IH.
  match goal with
  | |- ?X ++ _ = _ => assert (Hh : X = [halfwidth c])
  end.
  { unfold halfwidth, isFullwidthAlnum, inRange.
    destruct (Z.leb_spec 65296 c), (Z.leb_spec c 65305), (Z.leb_spec 65313 c),
      (Z.leb_spec c 65338), (Z.leb_spec 65345 c), (Z.leb_spec c 65370);
      cbn [andb orb]; try lia;
      repeat match goal with
             | |- context [?x <=? ?y] => destruct (Z.leb_spec x y); try lia
             end;
      cbn [andb orb]; rewrite ?Z.mod_small by lia; reflexivity. }
  rewrite Hh. reflexivity.
Qed.

(** X17: The width rules of the Chinese and the Japanese locale write, for
    every fullwidth digit and Latin letter, its ASCII counterpart, and keep
    every other code unit: the text keeps its length and no fullwidth digit
    or Latin letter is left. *)
Theorem widthNormalize_halfwidth (text : jsstring) (ctx : RuleContext) :
  Rule.apply zhWidthNormalize text ctx = map halfwidth text
  /\ Rule.apply jaWidthNormalize text ctx = map halfwidth text
  /\ Forall (fun c => isFullwidthAlnum c = false) (map halfwidth text).
Proof.
  split; [apply widthNormalize_map|]. split; [apply widthNormalize_map|].
  rewrite List.Forall_forall. intros d Hd. apply in_map_iff in Hd.
  destruct Hd as [c [<- _]]. unfold halfwidth.
  destruct (isFullwidthAlnum c) eqn:E; [|exact E].
  unfold isFullwidthAlnum, inRange in E |- *.
  destruct (Z.leb_spec 65296 c), (Z.leb_spec c 65305), (Z.leb_spec 65313 c),
    (Z.leb_spec c 65338), (Z.leb_spec 65345 c), (Z.leb_spec c 65370);
    cbn [andb orb] in E; try discriminate E; try lia;
    repeat match goal with
           | |- context [?x <=? ?y] => destruct (Z.leb_spec x y); try lia
           end;
    reflexivity.
Qed.

(** ** Every URL is protected *)

Section ScanCovers.

Variables (re : regexp) (text : list Z).

Hypothesis nonempty :
  forall b a st', matchAt re b a = Some st' -> (length (aft st') < length a)%nat.

(** The scan misses no match: an offset at which the pattern matches lies
    in a reported match (that starts at the offset or before it). *)
Lemma scan_covers :
  forall a b skip o,
    rev b ++ a = text ->
    (length b + skip <= o)%nat ->
    matchAt re (rev (firstn o text)) (skipn o text) <> None ->
    exists mi,
      In mi (scan re skip b a)
      /\ (m_offset mi <= o < m_offset mi + length (m_text mi))%nat.
Proof.
  induction a as [|x a IH]; intros b skip o Ht Ho Hm.
  - exfalso. destruct (matchAt re _ (skipn o text)) as [st'|] eqn:E; [|contradiction].
    apply nonempty in E. rewrite length_skipn in E.
    rewrite <- Ht, length_app, length_rev in E. simpl in E. lia.
  - destruct skip as [|n].
    + cbn [scan]. destruct (matchAt re b (x :: a)) as [st'|] eqn:E.
      * pose proof (nonempty _ _ _ E) as Hlen.
        destruct (Nat.lt_ge_cases o (length b + (length (x :: a) - length (aft st'))))
          as [Hin|Hout].
        -- exists (mkInfo b (x :: a) st'). split; [left; reflexivity|].
           cbn [m_offset m_text mkInfo]. rewrite length_firstn. lia.
        -- destruct (IH (x :: b) (pred (length (x :: a) - length (aft st'))) o
                       (zipper_step text b a x Ht)) as [mi [Hmi Hcov]];
             [cbn [length] in *; lia | exact Hm |].
           exists mi. split; [right; exact Hmi | exact Hcov].
      * destruct (Nat.eq_dec o (length b)) as [->|Hne].
        -- exfalso. apply Hm.
           destruct (zipper_at text b (x :: a) Ht) as [Hb Ha]. rewrite Hb, Ha. exact E.
        -- apply (IH (x :: b) 0%nat o (zipper_step text b a x Ht));
             [cbn [length]; lia | exact Hm].
    + cbn [scan]. apply (IH (x :: b) n o (zipper_step text b a x Ht));
        [cbn [length]; lia | exact Hm].
Qed.

End ScanCovers.

Lemma spanBy_stop (p : Z -> bool) (a : list Z) (x : Z) :
  nth_error a (spanBy p a) = Some x -> p x = false.
Proof.
  induction a as [|y a IH]; [discriminate|].
  simpl. destruct (p y) eqn:E; [exact IH|].
  simpl. intros H. injection H as <-. exact E.
Qed.

Lemma spanBy_all (p : Z -> bool) (a rest : list Z) :
  forallb p a = true -> (length a <= spanBy p (a ++ rest))%nat.
Proof.
  induction a as [|y a IH]; intros H; simpl; [lia|].
  simpl in H. apply andb_prop in H. destruct H as [Hy Ha].
  rewrite Hy. specialize (IH Ha). lia.
Qed.

Lemma cls_url (c : Z) :
  cls_match false true
    [CSpace false; CRange 60 60; CRange 62 62; CRange 34 34; CRange 39 39;
     CRange 171 171; CRange 187 187; CRange 8222 8222; CRange 34 34] c
  = urlChar c.
Proof.
  unfold cls_match, urlChar, item_match, item_in. cbn [existsb andb xorb].
  rewrite !inRange_single, !orb_false_r.
  destruct (isWhiteSpace c), (c =? 60), (c =? 62), (c =? 34), (c =? 39),
    (c =? 171), (c =? 187), (c =? 8222); reflexivity.
Qed.

Lemma PROTECTED_PATTERNS_url :
  RegExp (js "https?:\/\/[^\s<>\x22'«»„\x22]+") "g" =
  RegExpOf
    (Seq (Chr 104) (Seq (Chr 116) (Seq (Chr 116) (Seq (Chr 112)
       (Seq (Rep 0 (Some 1%nat) true (Chr 115))
          (Seq (Chr 58) (Seq (Chr 47) (Seq (Chr 47)
             (Rep 1 None true
                (Cls true
                   [CSpace false; CRange 60 60; CRange 62 62; CRange 34 34;
                    CRange 39 39; CRange 171 171; CRange 187 187;
                    CRange 8222 8222; CRange 34 34]))))))))))
    (Flags true false false).
Proof. vm_compute. reflexivity. Qed.

Section Url.

Local Abbreviation fl := (Flags true false false).

Local Abbreviation body :=
  (Rep 1 None true
     (Cls true
        [CSpace false; CRange 60 60; CRange 62 62; CRange 34 34; CRange 39 39;
         CRange 171 171; CRange 187 187; CRange 8222 8222; CRange 34 34])).

Local Abbreviation tail := (Seq (Chr 58) (Seq (Chr 47) (Seq (Chr 47) body))).

(** The part of the pattern after the scheme: [://] and a run of
    accepted code units, taken whole. *)
Lemma m_url_tail (b a : list Z) (cs : list (nat * jsstring)) :
  m fl tail true (MState b a cs) Some
  = match a with
    | x1 :: x2 :: x3 :: rest =>
      if (x1 =? 58) && (x2 =? 47) && (x3 =? 47) && (1 <=? spanBy urlChar rest)%nat
      then Some (MState (rev (firstn (spanBy urlChar rest) rest) ++ x3 :: x2 :: x1 :: b)
                   (skipn (spanBy urlChar rest) rest) cs)
      else None
    | _ => None
    end.
Proof.
  assert (Hbody : forall b0 a0,
             m fl body true (MState b0 a0 cs) Some
             = if (1 <=? spanBy urlChar a0)%nat
               then Some (MState (rev (firstn (spanBy urlChar a0) a0) ++ b0)
                            (skipn (spanBy urlChar a0) a0) cs)
               else None).
  { intros b0 a0. rewrite m_Rep.
    rewrite (repLoop_greedy_run urlChar); [reflexivity | | cbn [room aft]; lia].
    intros b1 a1 cs1 k0. cbn [m groups clearCaps next aft bef caps ignoreCase].
    destruct a1 as [|x a1]; [reflexivity|]. rewrite cls_url. reflexivity. }
  destruct a as [|x1 [|x2 [|x3 rest]]];
    cbn [m next aft bef caps canon ignoreCase]; try reflexivity.
  - destruct (x1 =? 58); reflexivity.
  - destruct (x1 =? 58); [|reflexivity]. destruct (x2 =? 47); reflexivity.
  - destruct (x1 =? 58); [|reflexivity]. destruct (x2 =? 47); [|reflexivity].
    destruct (x3 =? 47); [|reflexivity]. cbn [andb].
    change (m fl body true (MState (x3 :: x2 :: x1 :: b) rest cs) Some
            = if (1 <=? spanBy urlChar rest)%nat
              then Some (MState (rev (firstn (spanBy urlChar rest) rest)
                                 ++ x3 :: x2 :: x1 :: b)
                           (skipn (spanBy urlChar rest) rest) cs)
              else None).
    apply Hbody.
Qed.

(** The optional [s] of the scheme. *)
Lemma m_url_scheme (b a : list Z) (cs : list (nat * jsstring)) :
  m fl (Seq (Rep 0 (Some 1%nat) true (Chr 115)) tail) true (MState b a cs) Some
  = match (match a with
           | x :: a' =>
             if x =? 115 then m fl tail true (MState (x :: b) a' cs) Some else None
           | [] => None
           end) with
    | Some r => Some r
    | None => m fl tail true (MState b a cs) Some
    end.
Proof.
  rewrite m_Seq, m_Rep. cbn [room aft Nat.add].
  cbn [repLoop reached Nat.ltb Nat.leb].
  cbn [m groups clearCaps next aft bef caps canon ignoreCase].
  destruct a as [|x a']; [reflexivity|].
  destruct (x =? 115); [|reflexivity].
  cbn [room aft length].
  replace (length a' =? S (length a'))%nat with false
    by (symmetry; apply Nat.eqb_neq; lia).
  cbn [repLoop reached Nat.ltb Nat.leb]. reflexivity.
Qed.

Lemma m_url_tail_inv (b a : list Z) (cs : list (nat * jsstring)) (st' : mstate) :
  m fl tail true (MState b a cs) Some = Some st' ->
  exists rest,
    a = 58 :: 47 :: 47 :: rest
    /\ (1 <= spanBy urlChar rest)%nat
    /\ aft st' = skipn (spanBy urlChar rest) rest.
Proof.
  rewrite m_url_tail. destruct a as [|x1 [|x2 [|x3 rest]]]; try discriminate.
  destruct (Z.eqb_spec x1 58) as [->|_]; [|discriminate].
  destruct (Z.eqb_spec x2 47) as [->|_]; [|discriminate].
  destruct (Z.eqb_spec x3 47) as [->|_]; [|discriminate].
  cbn [andb]. destruct (Nat.leb_spec 1 (spanBy urlChar rest)) as [Hs|_]; [|discriminate].
  intros H. injection H as <-. exists rest. repeat split. exact Hs.
Qed.

(** The URL pattern at one position: the scheme, then the tail. *)
Lemma matchAt_url (b a : list Z) :
  matchAt (RegExp (js "https?:\/\/[^\s<>\x22'«»„\x22]+") "g") b a
  = match a with
    | x1 :: x2 :: x3 :: x4 :: a1 =>
      if (x1 =? 104) && (x2 =? 116) && (x3 =? 116) && (x4 =? 112)
      then m fl (Seq (Rep 0 (Some 1%nat) true (Chr 115)) tail) true
             (MState (x4 :: x3 :: x2 :: x1 :: b) a1 []) Some
      else None
    | _ => None
    end.
Proof.
  rewrite PROTECTED_PATTERNS_url. unfold matchAt. cbn [re_ast re_flags].
  destruct a as [|x1 [|x2 [|x3 [|x4 a1]]]];
    cbn [m next aft bef caps canon ignoreCase]; try reflexivity.
  - destruct (x1 =? 104); reflexivity.
  - destruct (x1 =? 104); [|reflexivity]. destruct (x2 =? 116); reflexivity.
  - destruct (x1 =? 104); [|reflexivity]. destruct (x2 =? 116); [|reflexivity].
    destruct (x3 =? 116); reflexivity.
  - destruct (x1 =? 104); [|reflexivity]. destruct (x2 =? 116); [|reflexivity].
    destruct (x3 =? 116); [|reflexivity]. destruct (x4 =? 112); reflexivity.
Qed.

(** A match of the URL pattern is [http://] or [https://] and the whole
    run of accepted code units behind it, which is not empty. *)
Lemma matchAt_url_inv (b a : list Z) (st' : mstate) :
  matchAt (RegExp (js "https?:\/\/[^\s<>\x22'«»„\x22]+") "g") b a = Some st' ->
  exists pfx rest,
    (pfx = [104; 116; 116; 112; 58; 47; 47] \/ pfx = [104; 116; 116; 112; 115; 58; 47; 47])
    /\ a = pfx ++ rest
    /\ (1 <= spanBy urlChar rest)%nat
    /\ aft st' = skipn (spanBy urlChar rest) rest.
Proof.
  rewrite matchAt_url. destruct a as [|x1 [|x2 [|x3 [|x4 a1]]]]; try discriminate.
  destruct (Z.eqb_spec x1 104) as [->|_]; [|discriminate].
  destruct (Z.eqb_spec x2 116) as [->|_]; [|discriminate].
  destruct (Z.eqb_spec x3 116) as [->|_]; [|discriminate].
  destruct (Z.eqb_spec x4 112) as [->|_]; [|discriminate].
  cbn [andb]. rewrite m_url_scheme.
  destruct a1 as [|x a2].
  - intros H. apply m_url_tail_inv in H. destruct H as [rest [H _]]. discriminate H.
  - destruct (x =? 115) eqn:Hx.
    + apply Z.eqb_eq in Hx. subst x.
      destruct (m fl tail true (MState (115 :: 112 :: 116 :: 116 :: 104 :: b) a2 []) Some)
        as [r|] eqn:E.
      * intros H. injection H as <-. apply m_url_tail_inv in E.
        destruct E as [rest [-> [Hs Haft]]].
        exists [104; 116; 116; 112; 115; 58; 47; 47], rest.
        split; [right; reflexivity|]. split; [reflexivity|]. split; assumption.
      * intros H. apply m_url_tail_inv in H.
        destruct H as [rest [H _]]. discriminate H.
    + intros H. apply m_url_tail_inv in H. destruct H as [rest [-> [Hs Haft]]].
      exists [104; 116; 116; 112; 58; 47; 47], rest.
      split; [left; reflexivity|]. split; [reflexivity|]. split; assumption.
Qed.

(** Conversely the pattern matches wherever a scheme and an accepted code
    unit stand. *)
Lemma matchAt_url_some (b pfx rest : list Z) :
  pfx = [104; 116; 116; 112; 58; 47; 47] \/ pfx = [104; 116; 116; 112; 115; 58; 47; 47] ->
  (1 <= spanBy urlChar rest)%nat ->
  matchAt (RegExp (js "https?:\/\/[^\s<>\x22'«»„\x22]+") "g") b (pfx ++ rest) <> None.
Proof.
  intros Hpfx Hs. apply Nat.leb_le in Hs. rewrite matchAt_url.
  destruct Hpfx as [->| ->]; cbn [app Z.eqb Pos.eqb andb]; rewrite m_url_scheme.
  - cbn [Z.eqb Pos.eqb]. rewrite m_url_tail. cbn [Z.eqb Pos.eqb andb].
    rewrite Hs. discriminate.
  - cbn [Z.eqb Pos.eqb]. rewrite m_url_tail. cbn [Z.eqb Pos.eqb andb].
    rewrite Hs. discriminate.
Qed.

End Url.

Lemma PROTECTED_PATTERNS_nonempty (re : regexp) :
  In re PROTECTED_PATTERNS ->
  forall b a st', matchAt re b a = Some st' -> (length (aft st') < length a)%nat.
Proof.
  intros Hre b a st' H. apply matchAt_consumes in H.
  pose proof (PROTECTED_PATTERNS_minWidth re Hre). lia.
Qed.

(** One protected range holds the whole URL. *)
Lemma url_range (pre scheme body post : jsstring) :
  scheme = js "http://" \/ scheme = js "https://" ->
  body <> [] -> forallb urlChar body = true ->
  exists start end_,
    In (start, end_) (findProtectedRanges (pre ++ scheme ++ body ++ post))
    /\ start <= len pre /\ len pre + len (scheme ++ body) <= end_.
Proof.
  intros Hscheme Hne Hbody.
  set (U := RegExp (js "https?:\/\/[^\s<>\x22'«»„\x22]+") "g").
  set (text := pre ++ scheme ++ body ++ post).
  assert (HU : In U PROTECTED_PATTERNS) by (left; reflexivity).
  assert (Hurl : forallb urlChar (scheme ++ body) = true).
  { rewrite forallb_app, Hbody, andb_true_r.
    destruct Hscheme as [->| ->]; vm_compute; reflexivity. }
  assert (Hsplit : rev (firstn (length pre) text) = rev pre
                   /\ skipn (length pre) text = scheme ++ body ++ post).
  { unfold text. rewrite firstn_app, firstn_all, Nat.sub_diag, app_nil_r.
    rewrite skipn_app, skipn_all, Nat.sub_diag. split; reflexivity. }
  destruct Hsplit as [Hfst Hskp].
  assert (Hmatch : matchAt U (rev (firstn (length pre) text)) (skipn (length pre) text)
                   <> None).
  { rewrite Hfst, Hskp. apply matchAt_url_some.
    - destruct Hscheme as [->| ->]; [left | right]; reflexivity.
    - pose proof (spanBy_all urlChar body post Hbody).
      destruct body; [contradiction | simpl in *; lia]. }
  destruct (scan_covers U text (PROTECTED_PATTERNS_nonempty U HU) text [] 0%nat
              (length pre) eq_refl ltac:(simpl; lia) Hmatch) as [mi [Hin Hcov]].
  destruct (scan_matches U text text [] 0%nat mi eq_refl Hin) as [st' [Hm Hmk]].
  destruct (matchAt_url_inv _ _ _ Hm) as [pfx [rest [_ [Ha [Hs Haft]]]]].
  pose proof (spanBy_le urlChar rest) as Hsle.
  assert (Hoff : (m_offset mi <= length text)%nat).
  { rewrite Hmk at 1. cbn [m_offset mkInfo]. rewrite length_rev, length_firstn. lia. }
  assert (HL : length (m_text mi) = (length pfx + spanBy urlChar rest)%nat).
  { rewrite Hmk at 1. cbn [m_text mkInfo]. rewrite length_firstn, Haft, Ha.
    rewrite length_app, length_skipn. lia. }
  assert (Hend : (length pre + length (scheme ++ body)
                  <= m_offset mi + length (m_text mi))%nat).
  { destruct (Nat.le_gt_cases (length pre + length (scheme ++ body))
                (m_offset mi + length (m_text mi))) as [Hle|Hgt]; [exact Hle|].
    exfalso. rewrite HL in Hgt, Hcov.
    set (e := (m_offset mi + (length pfx + spanBy urlChar rest))%nat) in *.
    assert (He : nth_error rest (spanBy urlChar rest) = nth_error text e).
    { replace rest with (skipn (length pfx) (skipn (m_offset mi) text))
        at 1 by (rewrite Ha, skipn_app, skipn_all, Nat.sub_diag; reflexivity).
      rewrite skipn_skipn, nth_error_skipn. f_equal. unfold e. lia. }
    assert (Hx : exists x, nth_error text e = Some x /\ urlChar x = true).
    { unfold text. rewrite nth_error_app2 by lia. rewrite app_assoc.
      rewrite nth_error_app1 by lia.
      destruct (nth_error_some (scheme ++ body) (e - length pre) ltac:(lia)) as [x Hx].
      exists x. split; [exact Hx|].
      apply nth_error_In in Hx. rewrite forallb_forall in Hurl. apply Hurl. exact Hx. }
    destruct Hx as [x [Hx Hux]]. rewrite Hx in He.
    apply spanBy_stop in He. congruence. }
  exists (Z.of_nat (m_offset mi)), (Z.of_nat (m_offset mi) + len (m_text mi)).
  split; [|unfold len; lia].
  apply in_findProtectedRanges. exists U. split; [exact HU|].
  apply in_execRanges. exact Hin.
Qed.

Lemma url_protected (pre scheme body post : jsstring) (q : Z) :
  scheme = js "http://" \/ scheme = js "https://" ->
  body <> [] -> forallb urlChar body = true ->
  len pre <= q < len pre + len (scheme ++ body) ->
  isProtected q (findProtectedRanges (pre ++ scheme ++ body ++ post)) = true.
Proof.
  intros Hscheme Hne Hbody Hq.
  destruct (url_range pre scheme body post Hscheme Hne Hbody)
    as [start [end_ [Hin [Hs He]]]].
  apply (isProtected_in _ start end_ q Hin). lia.
Qed.

(** X18: A URL is protected as a whole: where [http://] or [https://] is
    followed by code units that the URL pattern accepts, one protected
    range reaches from the first code unit of the scheme to the last of
    these code units, whatever stands before and after; so every offset
    of the URL is protected. *)
Theorem findProtectedRanges_whole_url (pre scheme body post : jsstring) :
  scheme = js "http://" \/ scheme = js "https://" ->
  body <> [] -> forallb urlChar body = true ->
  (exists start end_,
      In (start, end_) (findProtectedRanges (pre ++ scheme ++ body ++ post))
      /\ start <= len pre /\ len pre + len (scheme ++ body) <= end_)
  /\ forall q,
       len pre <= q < len pre + len (scheme ++ body) ->
       isProtected q (findProtectedRanges (pre ++ scheme ++ body ++ post)) = true.
Proof.
  intros Hscheme Hne Hbody.
  pose proof (url_range pre scheme body post Hscheme Hne Hbody) as Hrange.
  split; [exact Hrange|].
  intros q Hq. destruct Hrange as [start [end_ [Hin [Hs He]]]].
  apply (isProtected_in _ start end_ q Hin). lia.
Qed.

Lemma findProtectedRanges_whole_url_witness :
  isProtected 27
    (findProtectedRanges
       (js "см. " ++ js "https://" ++ js "example.com/a-b?x=1.5" ++ js " и 2.5"))
  = true.
Proof.
  apply (proj2 (findProtectedRanges_whole_url (js "см. ") (js "https://")
                  (js "example.com/a-b?x=1.5") (js " и 2.5")
                  ltac:(right; reflexivity) ltac:(discriminate)
                  ltac:(vm_compute; reflexivity))).
  vm_compute. split; [discriminate | reflexivity].
Defined.

(** ** Finding the text nodes *)

Lemma walk_append (n : SceneNode) :
  forall textNodes, walk n textNodes = textNodes ++ findTextNodes n.
Proof.
  induction n as [type|type children IH] using SceneNode_induction;
    intros textNodes; unfold findTextNodes; cbn [walk].
  - destruct (String.eqb type "TEXT"); [reflexivity | rewrite app_nil_r; reflexivity].
  - destruct (String.eqb type "TEXT"); [reflexivity|].
    revert textNodes.
    assert (H : forall acc0 acc,
               fold_left (fun textNodes child => walk child textNodes) children (acc0 ++ acc)
               = acc0 ++ fold_left (fun textNodes child => walk child textNodes) children acc).
    { induction IH as [|c l Hc _ IHl]; intros acc0 acc; [reflexivity|].
      cbn [fold_left]. rewrite (Hc (acc0 ++ acc)), (Hc acc), <- app_assoc. apply IHl. }
    intros textNodes. rewrite <- (app_nil_r textNodes) at 1. apply H.
Qed.

Lemma fold_walk (children : list SceneNode) :
  forall acc,
    fold_left (fun textNodes child => walk child textNodes) children acc
    = acc ++ flat_map findTextNodes children.
Proof.
  induction children as [|c l IH]; intros acc; cbn [fold_left flat_map].
  - rewrite app_nil_r. reflexivity.
  - rewrite IH, walk_append, app_assoc. reflexivity.
Qed.

(** X19: The search returns the TEXT nodes of the tree in document order: a
    TEXT node gives itself, any other node the results for its children,
    one after the other (nothing if it has none); so every node returned
    is a TEXT node. *)
Theorem findTextNodes_document_order (n : SceneNode) :
  findTextNodes n
  = (if String.eqb (node_type n) "TEXT" then [n]
     else match node_children n with
          | Some children => flat_map findTextNodes children
          | None => []
          end)
  /\ Forall (fun t => node_type t = "TEXT") (findTextNodes n).
Proof.
  assert (Heq : forall n,
             findTextNodes n
             = (if String.eqb (node_type n) "TEXT" then [n]
                else match node_children n with
                     | Some children => flat_map findTextNodes children
                     | None => []
                     end)).
  { clear n. intros [type children]. unfold findTextNodes at 1.
    cbn [walk node_type node_children].
    destruct (String.eqb type "TEXT"); [reflexivity|].
    destruct children as [children|]; [|reflexivity].
    apply (fold_walk children []). }
  split; [apply Heq|].
  induction n as [type|type children IH] using SceneNode_induction;
    rewrite Heq; cbn [node_type node_children].
  - destruct (String.eqb type "TEXT") eqn:E; [|constructor].
    constructor; [|constructor]. apply String.eqb_eq. exact E.
  - destruct (String.eqb type "TEXT") eqn:E.
    + constructor; [|constructor]. apply String.eqb_eq. exact E.
    + induction IH as [|c l Hc _ IHl]; [constructor|].
      cbn [flat_map]. apply Forall_app. split; assumption.
Qed.

(** ** The thousands rule *)

Lemma next_caps (fwd : bool) (st st' : mstate) (x : Z) :
  next fwd st = Some (x, st') -> caps st' = caps st.
Proof.
  unfold next. destruct fwd.
  - destruct (aft st); [discriminate|]. intros H. injection H as _ <-. reflexivity.
  - destruct (bef st); [discriminate|]. intros H. injection H as _ <-. reflexivity.
Qed.

Lemma matchLit_caps (ic fwd : bool) (s : list Z) :
  forall st st', matchLit ic fwd s st = Some st' -> caps st' = caps st.
Proof.
  induction s as [|c s IH]; intros st st' H; simpl in H.
  - injection H as <-. reflexivity.
  - destruct (next fwd st) as [[x st1]|] eqn:E; [|discriminate].
    destruct (canon ic x =? canon ic c); [|discriminate].
    apply IH in H. apply next_caps in E. congruence.
Qed.

Lemma repLoop_keeps_caps
    (mr : mstate -> (mstate -> option mstate) -> option mstate)
    (fwd : bool) (mn : nat) (mx : option nat) (greedy : bool)
    (k : mstate -> option mstate) :
  (forall st k' res,
      mr st k' = Some res -> exists st', k' st' = Some res /\ caps st' = caps st) ->
  forall fuel cnt st res,
    repLoop mr fwd mn mx greedy k fuel cnt st = Some res ->
    exists st', k st' = Some res /\ caps st' = caps st.
Proof.
  intros Hmr. induction fuel as [|fuel IH]; intros cnt st res H; [discriminate|].
  cbn [repLoop] in H.
  assert (Hiter : forall k0,
             (forall st1, k0 st1 = Some res ->
                          repLoop mr fwd mn mx greedy k fuel (S cnt) st1 = Some res) ->
             mr st k0 = Some res ->
             exists st', k st' = Some res /\ caps st' = caps st).
  { intros k0 Hk0 Hm. apply Hmr in Hm. destruct Hm as [st1 [H1 Hc1]].
    apply Hk0, IH in H1. destruct H1 as [st2 [H2 Hc2]].
    exists st2. split; [exact H2 | congruence]. }
  assert (Hstop : k st = Some res -> exists st', k st' = Some res /\ caps st' = caps st).
  { intros Hk. exists st. split; [exact Hk | reflexivity]. }
  destruct (cnt <? mn)%nat.
  - apply (Hiter _ (fun st1 H1 => H1) H).
  - destruct (reached mx cnt); [apply Hstop; exact H|].
    destruct greedy.
    + destruct (mr st _) as [x|] eqn:E; [|apply Hstop; exact H].
      injection H as ->. revert E. apply Hiter.
      intros st1 H1. destruct (room fwd st1 =? room fwd st)%nat; [discriminate | exact H1].
    + clear Hstop. destruct (k st) as [x|] eqn:E;
        [injection H as ->; exists st; split; [exact E | reflexivity]|].
      revert H. apply Hiter.
      intros st1 H1. destruct (room fwd st1 =? room fwd st)%nat; [discriminate | exact H1].
Qed.

(** A pattern without groups leaves the captures as they are. *)
Lemma m_keeps_caps (fl : flags) (r : regex) :
  groups r = [] ->
  forall fwd st k res,
    m fl r fwd st k = Some res -> exists st', k st' = Some res /\ caps st' = caps st.
Proof.
  induction r as [|c| |neg items|r1 IH1 r2 IH2|r1 IH1 r2 IH2|mn mx greedy r1 IH1
                 |n r1 IH1|n| | |neg|ahead neg r1 IH1];
    intros Hg fwd st k res H; cbn [m] in H; cbn [groups] in Hg.
  - exists st. split; [exact H | reflexivity].
  - destruct (next fwd st) as [[x st1]|] eqn:E; [|discriminate].
    destruct (canon (ignoreCase fl) x =? canon (ignoreCase fl) c); [|discriminate].
    exists st1. split; [exact H | exact (next_caps _ _ _ _ E)].
  - destruct (next fwd st) as [[x st1]|] eqn:E; [|discriminate].
    destruct (isLineTerminator x); [discriminate|].
    exists st1. split; [exact H | exact (next_caps _ _ _ _ E)].
  - destruct (next fwd st) as [[x st1]|] eqn:E; [|discriminate].
    destruct (cls_match (ignoreCase fl) neg items x); [|discriminate].
    exists st1. split; [exact H | exact (next_caps _ _ _ _ E)].
  - apply app_eq_nil in Hg. destruct Hg as [Hg1 Hg2]. destruct fwd.
    + apply (IH1 Hg1) in H. destruct H as [st1 [H Hc1]].
      apply (IH2 Hg2) in H. destruct H as [st2 [H Hc2]].
      exists st2. split; [exact H | congruence].
    + apply (IH2 Hg2) in H. destruct H as [st1 [H Hc1]].
      apply (IH1 Hg1) in H. destruct H as [st2 [H Hc2]].
      exists st2. split; [exact H | congruence].
  - apply app_eq_nil in Hg. destruct Hg as [Hg1 Hg2].
    destruct (m fl r1 fwd st k) as [x|] eqn:E.
    + injection H as ->. apply (IH1 Hg1) in E. exact E.
    + apply (IH2 Hg2) in H. exact H.
  - revert H. apply repLoop_keeps_caps.
    intros st0 k' res0 H0. rewrite Hg in H0. apply (IH1 Hg) in H0. exact H0.
  - discriminate Hg.
  - destruct (getCap n (caps st)) as [s|]; [|exists st; split; [exact H | reflexivity]].
    destruct (matchLit _ fwd _ st) as [st1|] eqn:E; [|discriminate].
    apply matchLit_caps in E. exists st1. split; [exact H | exact E].
  - destruct (atBol (multiline fl) st); [|discriminate].
    exists st. split; [exact H | reflexivity].
  - destruct (atEol (multiline fl) st); [|discriminate].
    exists st. split; [exact H | reflexivity].
  - destruct (xorb neg (atWordB st)); [|discriminate].
    exists st. split; [exact H | reflexivity].
  - destruct (m fl r1 ahead st Some) as [st1|] eqn:E; destruct neg; try discriminate.
    + apply (IH1 Hg) in E. destruct E as [st2 [E Hc]]. injection E as ->.
      eexists. split; [exact H | exact Hc].
    + exists st. split; [exact H | reflexivity].
Qed.

Lemma thousands_regexp :
  RegExp (js "(\d)(?=(?:\d{3})+(?![,.\d]))") "g" =
  RegExpOf
    (Seq (Grp 1 (Cls false [CDigit false]))
       (Look true false
          (Seq (Rep 1 None true (Rep 3 (Some 3%nat) true (Cls false [CDigit false])))
             (Look true true (Cls false [CRange 44 44; CRange 46 46; CDigit false])))))
    (Flags true false false).
Proof. vm_compute. reflexivity. Qed.

(** A match of the pattern of the thousands rule is one digit, which is
    also the first capture. *)
Lemma matchAt_thousands (b a : list Z) (st' : mstate) :
  matchAt (RegExp (js "(\d)(?=(?:\d{3})+(?![,.\d]))") "g") b a = Some st' ->
  exists d a',
    a = d :: a' /\ isDigit d = true
    /\ st' = MState (d :: b) a' [(1%nat, [d])].
Proof.
  rewrite thousands_regexp. unfold matchAt. cbn [re_ast re_flags].
  set (L := Seq (Rep 1 None true _) _).
  rewrite m_Seq. cbn [m next aft bef caps ignoreCase].
  destruct a as [|d a']; [discriminate|]. rewrite cls_digit.
  destruct (isDigit d) eqn:Hd; [|discriminate].
  cbn [captured aft]. rewrite length_cons_sub. cbn [firstn bef aft caps].
  rewrite firstn_O.
  match goal with
  | |- context [m ?f L true ?s Some] =>
    destruct (m f L true s Some) as [st1|] eqn:E; [|discriminate]
  end.
  apply m_keeps_caps in E; [|reflexivity].
  destruct E as [st2 [E Hc]]. injection E as ->. cbn [caps] in Hc.
  intros H. injection H as <-. exists d, a'. rewrite Hc.
  split; [reflexivity|]. split; [exact Hd | reflexivity].
Qed.

Lemma thousands_go (ctx : RuleContext) :
  forall a b,
    exists marks,
      length marks = length a
      /\ replaceGo (RegExp (js "(\d)(?=(?:\d{3})+(?![,.\d]))") "g")
           (fun mi =>
              if isProtected (Z.of_nat (m_offset mi)) (protectedRanges ctx)
              then m_text mi else cap 1 mi ++ THIN) 0 b a
         = withThinSpaces a marks
      /\ forall i,
           nth i marks false = true ->
           (exists d, nth_error a i = Some d /\ isDigit d = true)
           /\ isProtected (Z.of_nat (length b + i)) (protectedRanges ctx) = false.
Proof.
  induction a as [|c a IH]; intros b.
  - exists []. split; [reflexivity|]. split.
    + cbn [replaceGo].
      destruct (matchAt _ b []) as [st'|] eqn:E; [|reflexivity].
      apply matchAt_thousands in E. destruct E as [d [a' [E _]]]. discriminate E.
    + intros [|i] H; discriminate H.
  - destruct (IH (c :: b)) as [marks [Hlen [Hgo Hmarks]]].
    assert (Hshift : forall mark i,
               (mark = true ->
                isDigit c = true
                /\ isProtected (Z.of_nat (length b)) (protectedRanges ctx) = false) ->
               nth i (mark :: marks) false = true ->
               (exists d, nth_error (c :: a) i = Some d /\ isDigit d = true)
               /\ isProtected (Z.of_nat (length b + i)) (protectedRanges ctx) = false).
    { intros mark [|i] Hmark Hi.
      - cbn [nth] in Hi. destruct (Hmark Hi) as [Hd Hp].
        rewrite Nat.add_0_r. split; [exists c; split; [reflexivity | exact Hd] | exact Hp].
      - cbn [nth] in Hi. destruct (Hmarks i Hi) as [Hd Hp].
        cbn [length] in Hp. replace (length b + S i)%nat with (S (length b) + i)%nat by lia.
        split; [exact Hd | exact Hp]. }
    cbn [replaceGo].
    destruct (matchAt _ b (c :: a)) as [st'|] eqn:E.
    + apply matchAt_thousands in E. destruct E as [d [a' [E [Hd ->]]]].
      injection E as <- <-. unfold mkInfo. cbn [aft caps].
      rewrite length_cons_sub. cbn [firstn m_offset m_text].
      destruct (isProtected (Z.of_nat (length b)) (protectedRanges ctx)) eqn:Hp.
      * exists (false :: marks). split; [simpl; rewrite Hlen; reflexivity|]. split.
        -- rewrite Hgo. reflexivity.
        -- intros i. apply Hshift. discriminate.
      * exists (true :: marks). split; [simpl; rewrite Hlen; reflexivity|]. split.
        -- rewrite Hgo. reflexivity.
        -- intros i. apply Hshift. intros _. split; [exact Hd | reflexivity].
    + exists (false :: marks). split; [simpl; rewrite Hlen; reflexivity|]. split.
      * rewrite Hgo. reflexivity.
      * intros i. apply Hshift. discriminate.
Qed.

(** X20: The thousands rule changes and removes nothing; it only inserts thin
    spaces, each behind a digit at an offset that is not protected. *)
Theorem ruThousands_only_inserts (text : jsstring) (ctx : RuleContext) :
  exists marks,
    length marks = length text
    /\ Rule.apply ruThousands text ctx = withThinSpaces text marks
    /\ forall i,
         nth i marks false = true ->
         (exists d, nth_error text i = Some d /\ isDigit d = true)
         /\ isProtected (Z.of_nat i) (protectedRanges ctx) = false.
Proof.
  destruct (thousands_go ctx text []) as [marks [Hlen [Hgo Hmarks]]].
  exists marks. split; [exact Hlen|]. split; [|exact Hmarks].
  cbn [Rule.apply ruThousands]. unfold replaceFn.
  rewrite thousands_regexp at 1. cbn [re_flags global]. exact Hgo.
Qed.

(** ** The number rules and URLs *)

(** X21: In the context that the engine builds, the two rules that consult the
    protected ranges leave a URL alone: the decimal rule keeps every code
    unit of it, and the thousands rule inserts no thin space in it. *)
Theorem number_rules_keep_urls
    (pre scheme body post : jsstring) (locale : Locale) :
  scheme = js "http://" \/ scheme = js "https://" ->
  body <> [] -> forallb urlChar body = true ->
  let text := pre ++ scheme ++ body ++ post in
  let ctx := contextOf locale text in
  (forall i,
      (length pre <= i < length pre + length (scheme ++ body))%nat ->
      nth_error (Rule.apply ruDecimals text ctx) i = nth_error text i)
  /\ exists marks,
       length marks = length text
       /\ Rule.apply ruThousands text ctx = withThinSpaces text marks
       /\ forall i,
            (length pre <= i < length pre + length (scheme ++ body))%nat ->
            nth i marks false = false.
Proof.
  intros Hscheme Hne Hbody text ctx.
  assert (Hprot : forall i,
             (length pre <= i < length pre + length (scheme ++ body))%nat ->
             isProtected (Z.of_nat i) (protectedRanges ctx) = true).
  { intros i Hi. apply url_protected; try assumption. unfold len. lia. }
  split.
  - intros i Hi. rewrite ruDecimals_replaceGo.
    destruct (decide (nth_error
                        (replaceGo (RegExp (js "(\d)\.(\d)") "g")
                           (decimalReplacer text ctx) 0 [] text) i
                      = nth_error text i)) as [Heq|Hneq]; [exact Heq|].
    exfalso.
    destruct (decimal_pointwise text ctx (length text) text [] (Nat.le_refl _))
      as [_ Hpt].
    destruct (Hpt i Hneq) as [H1 [Hp [Hdot _]]].
    cbn [length Nat.add] in Hp.
    destruct (Nat.eq_dec i (length pre)) as [->|Hi'].
    + unfold text in Hdot. rewrite nth_error_app2, Nat.sub_diag in Hdot by lia.
      destruct Hscheme as [->| ->]; discriminate Hdot.
    + rewrite (Hprot (i - 1)%nat) in Hp by lia. discriminate Hp.
  - destruct (thousands_go ctx text []) as [marks [Hlen [Hgo Hmarks]]].
    exists marks. split; [exact Hlen|]. split.
    + cbn [Rule.apply ruThousands]. unfold replaceFn.
      rewrite thousands_regexp at 1. cbn [re_flags global]. exact Hgo.
    + intros i Hi. destruct (nth i marks false) eqn:E; [|reflexivity].
      destruct (Hmarks i E) as [_ Hp]. cbn [length Nat.add] in Hp.
      rewrite (Hprot i Hi) in Hp. discriminate Hp.
Qed.

Lemma number_rules_keep_urls_witness :
  let text := js "см. " ++ js "https://" ++ js "example.com/v1.5/1234567" ++ js " и 1234567" in
  let ctx := contextOf ru text in
  (forall i,
      (length (js "см. ") <= i
       < length (js "см. ") + length (js "https://" ++ js "example.com/v1.5/1234567"))%nat ->
      nth_error (Rule.apply ruDecimals text ctx) i = nth_error text i)
  /\ exists marks,
       length marks = length text
       /\ Rule.apply ruThousands text ctx = withThinSpaces text marks
       /\ forall i,
            (length (js "см. ") <= i
             < length (js "см. ")
               + length (js "https://" ++ js "example.com/v1.5/1234567"))%nat ->
            nth i marks false = false.
Proof.
  apply (number_rules_keep_urls (js "см. ") (js "https://")
           (js "example.com/v1.5/1234567") (js " и 1234567") ru).
  - right. reflexivity.
  - discriminate.
  - vm_compute. reflexivity.
Defined.

(** ** Rules that replace a pair of code units *)

Lemma hasPair_app (x y : Z) (l1 l2 : list Z) :
  hasPair x y l1 = false -> hasPair x y l2 = false ->
  (List.last l1 0 <> x \/ hd 0 l2 <> y \/ l1 = [] \/ l2 = []) ->
  hasPair x y (l1 ++ l2) = false.
Proof.
  induction l1 as [|c1 [|c2 l1] IH]; intros H1 H2 Hmid.
  - exact H2.
  - destruct l2 as [|d l2]; [reflexivity|].
    cbn [app hasPair] in H2 |- *. cbn [hasPair] in H2. rewrite H2, orb_false_r.
    destruct Hmid as [Hm|[Hm|[Hm|Hm]]]; try discriminate Hm; simpl in Hm.
    + destruct (Z.eqb_spec c1 x); [contradiction | reflexivity].
    + destruct (Z.eqb_spec d y); [contradiction | apply andb_false_r].
  - change (hasPair x y ((c1 :: c2 :: l1) ++ l2))
      with ((c1 =? x) && (c2 =? y) || hasPair x y ((c2 :: l1) ++ l2)).
    change (hasPair x y (c1 :: c2 :: l1))
      with ((c1 =? x) && (c2 =? y) || hasPair x y (c2 :: l1)) in H1.
    apply orb_false_elim in H1. destruct H1 as [Hc H1].
    rewrite Hc, IH; [reflexivity | exact H1 | exact H2 |].
    destruct Hmid as [Hm|[Hm|[Hm|Hm]]]; [left; exact Hm | right; left; exact Hm
                                       | discriminate Hm | right; right; right; exact Hm].
Qed.

Section PairReplace.

Variables (fl : flags) (x y : Z) (re : regexp) (r : jsstring).
Hypothesis caseSensitive : ignoreCase fl = false.
Hypothesis pattern : re = RegExpOf (Seq (Chr x) (Chr y)) fl.

Lemma matchAt_pair (b a : list Z) :
  matchAt re b a
  = match a with
    | c1 :: c2 :: a' =>
      if (c1 =? x) && (c2 =? y) then Some (MState (c2 :: c1 :: b) a' []) else None
    | _ => None
    end.
Proof.
  rewrite pattern. unfold matchAt. cbn [re_ast re_flags].
  destruct a as [|c1 [|c2 a']]; cbn [m next aft bef caps]; unfold canon;
    rewrite ?caseSensitive; try reflexivity.
  - destruct (c1 =? x); reflexivity.
  - destruct (c1 =? x); [|reflexivity]. destruct (c2 =? y); reflexivity.
Qed.

(** One step of the replacement loop. *)
Lemma replaceGo_pair (b a : list Z) :
  replaceGo re (fun _ => r) 0 b a
  = match a with
    | [] => []
    | c1 :: rest =>
      match rest with
      | c2 :: a' =>
        if (c1 =? x) && (c2 =? y)
        then r ++ replaceGo re (fun _ => r) 0 (c2 :: c1 :: b) a'
        else c1 :: replaceGo re (fun _ => r) 0 (c1 :: b) rest
      | [] => c1 :: replaceGo re (fun _ => r) 0 (c1 :: b) rest
      end
    end.
Proof.
  destruct a as [|c1 [|c2 a']]; cbn [replaceGo]; rewrite matchAt_pair; try reflexivity.
  destruct ((c1 =? x) && (c2 =? y)); [|reflexivity].
  cbn [aft]. replace (length (c1 :: c2 :: a') - length a')%nat with 2%nat
    by (simpl; lia).
  reflexivity.
Qed.

(** A text without the pair is returned as it is. *)
Lemma pair_absent :
  forall a b, hasPair x y a = false -> replaceGo re (fun _ => r) 0 b a = a.
Proof.
  induction a as [|c1 a IH]; intros b H; rewrite replaceGo_pair; [reflexivity|].
  destruct a as [|c2 a']; [rewrite IH; reflexivity|].
  change (hasPair x y (c1 :: c2 :: a'))
    with ((c1 =? x) && (c2 =? y) || hasPair x y (c2 :: a')) in H.
  apply orb_false_elim in H. destruct H as [Hc H].
  rewrite Hc, IH by exact H. reflexivity.
Qed.

Hypothesis replacement : r <> [] /\ hasPair x y r = false /\ hd 0 r <> y /\ List.last r 0 <> x.

(** The output does not have the pair, and starts with [y] only if the
    input does. *)
Lemma pair_replaced :
  forall n a b,
    (length a <= n)%nat ->
    hasPair x y (replaceGo re (fun _ => r) 0 b a) = false
    /\ (hd 0 (replaceGo re (fun _ => r) 0 b a) = y ->
        replaceGo re (fun _ => r) 0 b a <> [] -> hd 0 a = y).
Proof.
  destruct replacement as [Hr [Hpr [Hhd Hlast]]].
  induction n as [|n IH]; intros a b Hn.
  - destruct a; [|simpl in Hn; lia]. rewrite replaceGo_pair.
    split; [reflexivity | intros _ H; contradiction].
  - rewrite replaceGo_pair. destruct a as [|c1 [|c2 a']].
    + split; [reflexivity | intros _ H; contradiction].
    + rewrite replaceGo_pair. split; [reflexivity | intros H _; exact H].
    + simpl in Hn.
      assert (Hskip : hasPair x y (c1 :: replaceGo re (fun _ => r) 0 (c1 :: b) (c2 :: a'))
                      = false
                      \/ (c1 =? x) && (c2 =? y) = true).
      { destruct (IH (c2 :: a') (c1 :: b) ltac:(simpl; lia)) as [Hp Hh].
        destruct (replaceGo re (fun _ => r) 0 (c1 :: b) (c2 :: a')) as [|d out] eqn:E;
          [left; reflexivity|].
        cbn [hasPair] in Hp |- *. cbn [hasPair] in Hp. rewrite Hp, orb_false_r.
        destruct (Z.eqb_spec c1 x) as [->|]; [|left; reflexivity].
        destruct (Z.eqb_spec d y) as [->|]; [|left; reflexivity].
        right. simpl in Hh. rewrite (Hh eq_refl) by discriminate.
        rewrite Z.eqb_refl. reflexivity. }
      destruct ((c1 =? x) && (c2 =? y)) eqn:Hc.
      * destruct (IH a' (c2 :: c1 :: b) ltac:(lia)) as [Hp Hh]. split.
        -- apply hasPair_app; [exact Hpr | exact Hp | left; exact Hlast].
        -- intros H _. exfalso. apply Hhd. destruct r; [contradiction | exact H].
      * destruct Hskip as [Hs|Hs]; [|discriminate Hs].
        split; [exact Hs | intros H _; exact H].
Qed.

End PairReplace.

Lemma plusMinus_replaceGo (text : jsstring) (ctx : RuleContext) :
  Rule.apply plusMinus text ctx
  = replaceGo (RegExpOf (Seq (Chr 43) (Chr 45)) (Flags true false false))
      (fun _ => [0xB1]) 0 [] text.
Proof. reflexivity. Qed.

(** X22: After the plus-minus rule no [+] is followed by [-], and a second
    application changes nothing. *)
Theorem plusMinus_no_plus_minus (text : jsstring) (ctx ctx' : RuleContext) :
  hasPair 43 45 (Rule.apply plusMinus text ctx) = false
  /\ Rule.apply plusMinus (Rule.apply plusMinus text ctx) ctx'
     = Rule.apply plusMinus text ctx.
Proof.
  assert (H : hasPair 43 45 (Rule.apply plusMinus text ctx) = false).
  { rewrite plusMinus_replaceGo.
    apply (pair_replaced (Flags true false false) 43 45 _ [0xB1] eq_refl eq_refl
             ltac:(repeat split; discriminate) (length text) text [] (Nat.le_refl _)). }
  split; [exact H|].
  rewrite (plusMinus_replaceGo (Rule.apply plusMinus text ctx)).
  apply (pair_absent (Flags true false false) 43 45 _ [0xB1] eq_refl eq_refl). exact H.
Qed.

Lemma ruEmDashSpace_replaceGo (text : jsstring) (ctx : RuleContext) :
  Rule.apply ruEmDashSpace text ctx
  = replaceGo (RegExpOf (Seq (Chr SPACE) (Chr 0x2014)) (Flags true false false))
      (fun _ => [0xA0; 0x2014]) 0 [] text.
Proof. reflexivity. Qed.

Lemma emDashSpace_glued :
  forall n a b,
    (length a <= n)%nat ->
    Forall2 glued a
      (replaceGo (RegExpOf (Seq (Chr SPACE) (Chr 0x2014)) (Flags true false false))
         (fun _ => [0xA0; 0x2014]) 0 b a).
Proof.
  induction n as [|n IH]; intros a b Hn;
    rewrite (replaceGo_pair (Flags true false false) SPACE 0x2014 _ _ eq_refl eq_refl).
  - destruct a; [constructor | simpl in Hn; lia].
  - destruct a as [|c1 [|c2 a']].
    + constructor.
    + constructor; [left; reflexivity|]. apply IH. simpl. lia.
    + simpl in Hn. destruct (Z.eqb_spec c1 SPACE) as [->|_]; cbn [andb].
      * destruct (Z.eqb_spec c2 0x2014) as [->|_].
        -- constructor; [right; split; reflexivity|].
           constructor; [left; reflexivity|]. apply IH. lia.
        -- constructor; [left; reflexivity|]. apply IH. simpl. lia.
      * constructor; [left; reflexivity|]. apply IH. simpl. lia.
Qed.

(** X23: The rule for the space before an em dash keeps the length of the text
    and every code unit of it, except that it turns U+0020 into U+00A0;
    afterwards no U+0020 stands before an em dash. *)
Theorem ruEmDashSpace_glues_dash (text : jsstring) (ctx : RuleContext) :
  Forall2 glued text (Rule.apply ruEmDashSpace text ctx)
  /\ hasPair SPACE 0x2014 (Rule.apply ruEmDashSpace text ctx) = false.
Proof.
  rewrite ruEmDashSpace_replaceGo. split.
  - apply (emDashSpace_glued (length text)). lia.
  - apply (pair_replaced (Flags true false false) SPACE 0x2014 _ [0xA0; 0x2014]
             eq_refl eq_refl ltac:(repeat split; discriminate)
             (length text) text [] (Nat.le_refl _)).
Qed.

(** ** The decimal rule and dotted sequences *)

Lemma test_digit (x : Z) : test (RegExp (js "\d") EmptyString) [x] = isDigit x.
Proof.
  assert (H : RegExp (js "\d") EmptyString
              = RegExpOf (Cls false [CDigit false]) (Flags false false false))
    by (vm_compute; reflexivity).
  rewrite H. unfold test. cbn [search].
  rewrite !(matchAt_class (RegExpOf (Cls false [CDigit false]) (Flags false false false))
             false [CDigit false] _ _ eq_refl).
  cbn [re_flags ignoreCase]. rewrite cls_digit.
  destruct (isDigit x); reflexivity.
Qed.

(** When the replacer writes the comma, no full stop follows the match,
    and no digit and full stop stand right before it. *)
Lemma decimalReplacer_comma (text : jsstring) (ctx : RuleContext) (o : nat) (d1 d2 : Z) :
  decimalReplacer text ctx (MInfo o [d1; 46; d2] [(2%nat, [d2]); (1%nat, [d1])])
  <> [d1; 46; d2] ->
  nth_error text (o + 3) <> Some 46
  /\ ~ ((2 <= o)%nat /\ nth_error text (o - 1) = Some 46
        /\ exists d, nth_error text (o - 2) = Some d /\ isDigit d = true).
Proof.
  unfold decimalReplacer. cbn [m_offset m_text].
  destruct (isProtected (Z.of_nat o) (protectedRanges ctx)); [contradiction|].
  replace (Z.of_nat o + len [d1; 46; d2]) with (Z.of_nat (o + 3))
    by (unfold len; simpl; lia).
  destruct ((Z.of_nat (o + 3) <? len text) && atIs text (Z.of_nat (o + 3)) 46) eqn:Ha;
    [contradiction|].
  destruct ((2 <=? Z.of_nat o) && atIs text (Z.of_nat o - 1) 46
            && testAt (RegExp (js "\d") EmptyString) text (Z.of_nat o - 2)) eqn:Hb;
    [contradiction|].
  intros _. split.
  - intros H. unfold atIs in Ha. rewrite at_nat, H, Z.eqb_refl, andb_true_r in Ha.
    apply Z.ltb_ge in Ha.
    assert (Hlt : (o + 3 < length text)%nat) by (apply nth_error_Some; congruence).
    unfold len in Ha. lia.
  - intros [H2 [Hdot [d [Hd Hdig]]]].
    replace (Z.of_nat o - 1) with (Z.of_nat (o - 1)) in Hb by lia.
    replace (Z.of_nat o - 2) with (Z.of_nat (o - 2)) in Hb by lia.
    unfold atIs, testAt in Hb. rewrite !at_nat, Hdot, Hd, Z.eqb_refl, test_digit, Hdig in Hb.
    destruct (Z.leb_spec 2 (Z.of_nat o)); [discriminate Hb | lia].
Qed.

Lemma decimal_dotted (text : jsstring) (ctx : RuleContext) :
  forall n a b,
    (length a <= n)%nat ->
    forall j,
      nth_error
        (replaceGo (RegExp (js "(\d)\.(\d)") "g") (decimalReplacer text ctx) 0 b a) j
      <> nth_error a j ->
      nth_error text (length b + j + 2) <> Some 46
      /\ ~ ((3 <= length b + j)%nat /\ nth_error text (length b + j - 2) = Some 46
            /\ exists d, nth_error text (length b + j - 3) = Some d /\ isDigit d = true).
Proof.
  induction n as [|n IH]; intros a b Hn j; rewrite replaceGo_decimal.
  - destruct a; [|simpl in Hn; lia]. intros H. contradiction.
  - assert (Hskip : forall d1 rest,
               a = d1 :: rest ->
               nth_error
                 (d1 :: replaceGo (RegExp (js "(\d)\.(\d)") "g")
                          (decimalReplacer text ctx) 0 (d1 :: b) rest) j
               <> nth_error a j ->
               nth_error text (length b + j + 2) <> Some 46
               /\ ~ ((3 <= length b + j)%nat
                     /\ nth_error text (length b + j - 2) = Some 46
                     /\ exists d, nth_error text (length b + j - 3) = Some d
                                  /\ isDigit d = true)).
    { intros d1 rest -> H. simpl in Hn. destruct j as [|j]; [contradiction|].
      cbn [nth_error] in H. apply (IH rest (d1 :: b) ltac:(lia)) in H.
      cbn [length] in H.
      replace (length b + S j)%nat with (S (length b) + j)%nat by lia. exact H. }
    destruct a as [|d1 [|x [|d2 a']]].
    + intros H. contradiction.
    + apply (Hskip d1 [] eq_refl).
    + apply (Hskip d1 [x] eq_refl).
    + destruct (isDigit d1 && (x =? 46) && isDigit d2) eqn:Hc;
        [|apply (Hskip d1 (x :: d2 :: a') eq_refl)].
      apply andb_prop in Hc. destruct Hc as [Hc Hd2].
      apply andb_prop in Hc. destruct Hc as [Hd1 Hx].
      apply Z.eqb_eq in Hx. subst x. simpl in Hn.
      assert (Hrest : forall j0,
                 nth_error (replaceGo (RegExp (js "(\d)\.(\d)") "g")
                              (decimalReplacer text ctx) 0 (d2 :: 46 :: d1 :: b) a') j0
                 <> nth_error a' j0 ->
                 nth_error text (length b + (3 + j0) + 2) <> Some 46
                 /\ ~ ((3 <= length b + (3 + j0))%nat
                       /\ nth_error text (length b + (3 + j0) - 2) = Some 46
                       /\ exists d, nth_error text (length b + (3 + j0) - 3) = Some d
                                    /\ isDigit d = true)).
      { intros j0 H. apply (IH a' (d2 :: 46 :: d1 :: b) ltac:(lia)) in H.
        cbn [length] in H.
        replace (length b + (3 + j0))%nat with (S (S (S (length b))) + j0)%nat by lia.
        exact H. }
      pose proof (decimalReplacer_comma text ctx (length b) d1 d2) as Hcomma.
      destruct (decimalReplacer_cases text ctx (length b) d1 d2) as [E|[E _]];
        rewrite E in Hcomma |- *.
      * intros H. destruct j as [|[|[|j]]]; try contradiction. apply (Hrest j H).
      * specialize (Hcomma ltac:(discriminate)).
        intros H. destruct j as [|[|[|j]]]; try contradiction; [|apply (Hrest j H)].
        destruct Hcomma as [Ha Hb]. split.
        -- replace (length b + 1 + 2)%nat with (length b + 3)%nat by lia. exact Ha.
        -- intros [H3 [Hdot Hd]]. apply Hb. split; [lia|].
           replace (length b - 1)%nat with (length b + 1 - 2)%nat by lia.
           replace (length b - 2)%nat with (length b + 1 - 3)%nat by lia.
           split; assumption.
Qed.

(** The position test of the replacer, on the result of the rule. *)
Lemma decimal_dotted_at (text : jsstring) (ctx : RuleContext) (j : nat) :
  nth_error text (j + 2) = Some 46
  \/ ((3 <= j)%nat /\ nth_error text (j - 2) = Some 46
      /\ exists d, nth_error text (j - 3) = Some d /\ isDigit d = true) ->
  nth_error (Rule.apply ruDecimals text ctx) j = nth_error text j.
Proof.
  intros H. rewrite ruDecimals_replaceGo.
  destruct (decide (nth_error
                      (replaceGo (RegExp (js "(\d)\.(\d)") "g")
                         (decimalReplacer text ctx) 0 [] text) j
                    = nth_error text j)) as [Heq|Hneq]; [exact Heq|].
  exfalso.
  destruct (decimal_dotted text ctx (length text) text [] (Nat.le_refl _) j Hneq)
    as [Ha Hb].
  cbn [length Nat.add] in Ha, Hb.
  destruct H as [H|H]; [exact (Ha H) | exact (Hb H)].
Qed.

(** X24: In every context the decimal rule leaves a code unit as it is when
    a full stop stands two code units after it, or when a full stop stands
    two code units before it and follows a digit.  This keeps [1.2.3]
    without any protected range; it does not keep every dotted sequence:
    without protected ranges [192.168.1.1] becomes [192,168.1.1], where
    only the last two full stops pass the test. *)
Theorem ruDecimals_neighbouring_full_stop :
  (forall (text : jsstring) (ctx : RuleContext) (j : nat),
      nth_error text (j + 2) = Some 46
      \/ ((3 <= j)%nat /\ nth_error text (j - 2) = Some 46
          /\ exists d, nth_error text (j - 3) = Some d /\ isDigit d = true) ->
      nth_error (Rule.apply ruDecimals text ctx) j = nth_error text j)
  /\ Rule.apply ruDecimals (js "1.2.3") {| ctx_locale := ru; protectedRanges := [] |}
     = js "1.2.3"
  /\ Rule.apply ruDecimals (js "192.168.1.1") {| ctx_locale := ru; protectedRanges := [] |}
     = js "192,168.1.1".
Proof.
  split; [exact decimal_dotted_at|].
  split; vm_compute; reflexivity.
Qed.

Lemma ruDecimals_neighbouring_full_stop_witness :
  nth_error
    (Rule.apply ruDecimals (js "192.168.1.1")
       {| ctx_locale := ru; protectedRanges := [] |}) 7
  = nth_error (js "192.168.1.1") 7
  /\ nth_error
       (Rule.apply ruDecimals (js "192.168.1.1")
          {| ctx_locale := ru; protectedRanges := [] |}) 9
     = nth_error (js "192.168.1.1") 9
  /\ nth_error
       (Rule.apply ruDecimals (js "1.2.3 и 4.5")
          {| ctx_locale := ru; protectedRanges := [(0, 5)] |}) 1
     = nth_error (js "1.2.3 и 4.5") 1.
Proof.
  split; [|split]; apply (proj1 ruDecimals_neighbouring_full_stop).
  - left. reflexivity.
  - right. split; [lia|]. split; [reflexivity|].
    exists 56. split; reflexivity.
  - left. reflexivity.
Defined.

(** * Repeated passes of the pipeline *)


(** Another text that needs two passes: the first pass over "x. ." removes
    the space before the second full stop, and only the second pass sees
    two full stops in a row and writes the ellipsis. *)
Lemma applyTypography_second_pass :
  applyTypography (js "x. .") {| settings_locale := Some ru; enabledRules := ∅ |}
  = js "x.."
  /\ applyTypography (js "x..") {| settings_locale := Some ru; enabledRules := ∅ |}
     = js "x…".
Proof. split; vm_compute; reflexivity. Qed.

(** ** Texts that no rule reacts to *)

(** The code units a match state holds. *)
Local Abbreviation units st := (bef st ++ aft st).

Lemma next_units (fwd : bool) (st st' : mstate) (x : Z) :
  next fwd st = Some (x, st') ->
  In x (units st) /\ incl (units st') (units st).
Proof.
  destruct st as [b a cs]. unfold next. cbn [bef aft caps].
  destruct fwd.
  - destruct a as [|y a]; [discriminate|]. intros H. injection H as <- <-.
    cbn [bef aft]. split.
    + apply in_or_app. right. left. reflexivity.
    + intros z Hz. cbn [app] in Hz. apply in_or_app.
      destruct Hz as [<-|Hz]; [right; left; reflexivity|].
      apply in_app_or in Hz. destruct Hz as [Hz|Hz]; [left | right; right]; exact Hz.
  - destruct b as [|y b]; [discriminate|]. intros H. injection H as <- <-.
    cbn [bef aft]. split.
    + left. reflexivity.
    + intros z Hz. apply in_app_or in Hz. cbn [app].
      destruct Hz as [Hz|[<-|Hz]].
      * right. apply in_or_app. left. exact Hz.
      * left. reflexivity.
      * right. apply in_or_app. right. exact Hz.
Qed.

Lemma matchLit_units (ic fwd : bool) (s : list Z) :
  forall st st', matchLit ic fwd s st = Some st' -> incl (units st') (units st).
Proof.
  induction s as [|c s IH]; intros st st' H; cbn [matchLit] in H.
  - injection H as <-. apply incl_refl.
  - destruct (next fwd st) as [[x st1]|] eqn:E; [|discriminate].
    destruct (canon ic x =? canon ic c); [|discriminate].
    apply next_units in E. destruct E as [_ E].
    apply IH in H. exact (incl_tran H E).
Qed.

Lemma repLoop_units
    (mr : mstate -> (mstate -> option mstate) -> option mstate)
    (fwd : bool) (mn : nat) (mx : option nat) (greedy : bool)
    (k : mstate -> option mstate) :
  (forall st k' res,
      mr st k' = Some res ->
      exists st', k' st' = Some res /\ incl (units st') (units st)) ->
  forall fuel cnt st res,
    repLoop mr fwd mn mx greedy k fuel cnt st = Some res ->
    exists st', k st' = Some res /\ incl (units st') (units st).
Proof.
  intros Hmr. induction fuel as [|fuel IH]; intros cnt st res H; [discriminate|].
  cbn [repLoop] in H.
  assert (Hiter : forall k0,
             (forall st1, k0 st1 = Some res ->
                          repLoop mr fwd mn mx greedy k fuel (S cnt) st1 = Some res) ->
             mr st k0 = Some res ->
             exists st', k st' = Some res /\ incl (units st') (units st)).
  { intros k0 Hk0 Hm. apply Hmr in Hm. destruct Hm as [st1 [H1 Hl1]].
    apply Hk0, IH in H1. destruct H1 as [st2 [H2 Hl2]].
    exists st2. split; [exact H2 | exact (incl_tran Hl2 Hl1)]. }
  assert (Hstop : k st = Some res ->
             exists st', k st' = Some res /\ incl (units st') (units st)).
  { intros Hk. exists st. split; [exact Hk | apply incl_refl]. }
  destruct (cnt <? mn)%nat.
  - apply (Hiter _ (fun st1 H1 => H1) H).
  - destruct (reached mx cnt); [apply Hstop; exact H|].
    destruct greedy.
    + destruct (mr st _) as [x|] eqn:E; [|apply Hstop; exact H].
      injection H as ->. revert E. apply Hiter.
      intros st1 H1. destruct (room fwd st1 =? room fwd st)%nat; [discriminate | exact H1].
    + clear Hstop. destruct (k st) as [x|] eqn:E;
        [injection H as ->; exists st; split; [exact E | apply incl_refl]|].
      revert H. apply Hiter.
      intros st1 H1. destruct (room fwd st1 =? room fwd st)%nat; [discriminate | exact H1].
Qed.

Lemma units_clearCaps (gs : list nat) (st : mstate) :
  units (clearCaps gs st) = units st.
Proof. destruct gs; reflexivity. Qed.

(** Whatever way a pattern matches, the continuation is called on a state
    that holds no other code unit than the state the match started from. *)
Lemma m_units (fl : flags) (r : regex) :
  forall fwd st k res,
    m fl r fwd st k = Some res ->
    exists st', k st' = Some res /\ incl (units st') (units st).
Proof.
  induction r as [|c| |neg items|r1 IH1 r2 IH2|r1 IH1 r2 IH2|mn mx greedy r1 IH1
                 |n r1 IH1|n| | |neg|ahead neg r1 IH1];
    intros fwd st k res H; cbn [m] in H.
  - exists st. split; [exact H | apply incl_refl].
  - destruct (next fwd st) as [[x st1]|] eqn:E; [|discriminate].
    destruct (canon (ignoreCase fl) x =? canon (ignoreCase fl) c); [|discriminate].
    exists st1. split; [exact H | apply (next_units _ _ _ _ E)].
  - destruct (next fwd st) as [[x st1]|] eqn:E; [|discriminate].
    destruct (isLineTerminator x); [discriminate|].
    exists st1. split; [exact H | apply (next_units _ _ _ _ E)].
  - destruct (next fwd st) as [[x st1]|] eqn:E; [|discriminate].
    destruct (cls_match (ignoreCase fl) neg items x); [|discriminate].
    exists st1. split; [exact H | apply (next_units _ _ _ _ E)].
  - destruct fwd.
    + apply IH1 in H. destruct H as [st1 [H Hl1]].
      apply IH2 in H. destruct H as [st2 [H Hl2]].
      exists st2. split; [exact H | exact (incl_tran Hl2 Hl1)].
    + apply IH2 in H. destruct H as [st1 [H Hl1]].
      apply IH1 in H. destruct H as [st2 [H Hl2]].
      exists st2. split; [exact H | exact (incl_tran Hl2 Hl1)].
  - destruct (m fl r1 fwd st k) as [x|] eqn:E.
    + injection H as ->. apply (IH1 _ _ _ _ E).
    + apply (IH2 _ _ _ _ H).
  - revert H. apply repLoop_units.
    intros st0 k' res0 H0. apply IH1 in H0. rewrite units_clearCaps in H0. exact H0.
  - apply IH1 in H. destruct H as [st1 [H Hl1]].
    eexists. split; [exact H | exact Hl1].
  - destruct (getCap n (caps st)) as [s|];
      [|exists st; split; [exact H | apply incl_refl]].
    destruct (matchLit (ignoreCase fl) fwd (if fwd then s else rev s) st) as [st1|] eqn:E;
      [|discriminate].
    apply matchLit_units in E. exists st1. split; [exact H | exact E].
  - destruct (atBol (multiline fl) st); [|discriminate].
    exists st. split; [exact H | apply incl_refl].
  - destruct (atEol (multiline fl) st); [|discriminate].
    exists st. split; [exact H | apply incl_refl].
  - destruct (xorb neg (atWordB st)); [|discriminate].
    exists st. split; [exact H | apply incl_refl].
  - destruct (m fl r1 ahead st Some) as [st1|]; destruct neg; try discriminate.
    + eexists. split; [exact H | apply incl_refl].
    + exists st. split; [exact H | apply incl_refl].
Qed.

Section Unmatchable.

Variable letters : list Z.

Lemma unmatchable_none (fl : flags) (r : regex) :
  forall fwd st k,
    unmatchable (ignoreCase fl) letters r = true ->
    incl (units st) letters ->
    m fl r fwd st k = None.
Proof.
  induction r as [|c| |neg items|r1 IH1 r2 IH2|r1 IH1 r2 IH2|mn mx greedy r1 IH1
                 |n r1 IH1|n| | |neg|ahead neg r1 IH1];
    intros fwd st k Hu Hst; cbn [unmatchable] in Hu; try discriminate Hu; cbn [m].
  - destruct (next fwd st) as [[x st1]|] eqn:E; [|reflexivity].
    apply next_units in E. destruct E as [Hx _]. apply Hst in Hx.
    rewrite forallb_forall in Hu. apply Hu in Hx.
    destruct (canon (ignoreCase fl) x =? canon (ignoreCase fl) c); [discriminate Hx | reflexivity].
  - destruct (next fwd st) as [[x st1]|] eqn:E; [|reflexivity].
    apply next_units in E. destruct E as [Hx _]. apply Hst in Hx.
    rewrite forallb_forall in Hu. apply Hu in Hx. rewrite Hx. reflexivity.
  - destruct (next fwd st) as [[x st1]|] eqn:E; [|reflexivity].
    apply next_units in E. destruct E as [Hx _]. apply Hst in Hx.
    rewrite forallb_forall in Hu. apply Hu in Hx.
    destruct (cls_match (ignoreCase fl) neg items x); [discriminate Hx | reflexivity].
  - apply orb_prop in Hu. destruct fwd.
    + destruct Hu as [Hu|Hu]; [apply IH1; assumption|].
      destruct (m fl r1 true st _) as [res|] eqn:E; [exfalso | reflexivity].
      apply m_units in E. destruct E as [st1 [E Hl]].
      rewrite IH2 in E; [discriminate E | exact Hu | exact (incl_tran Hl Hst)].
    + destruct Hu as [Hu|Hu]; [|apply IH2; assumption].
      destruct (m fl r2 false st _) as [res|] eqn:E; [exfalso | reflexivity].
      apply m_units in E. destruct E as [st1 [E Hl]].
      rewrite IH1 in E; [discriminate E | exact Hu | exact (incl_tran Hl Hst)].
  - apply andb_prop in Hu. destruct Hu as [Hu1 Hu2].
    rewrite IH1 by assumption. apply IH2; assumption.
  - apply andb_prop in Hu. destruct Hu as [Hmn Hu].
    destruct mn as [|mn]; [discriminate Hmn|].
    cbn [repLoop Nat.add Nat.ltb Nat.leb].
    apply IH1; [exact Hu | rewrite units_clearCaps; exact Hst].
  - apply IH1; assumption.
  - destruct neg; [discriminate Hu|].
    rewrite forallb_forall in Hu. unfold atWordB. cbn [xorb].
    assert (Hb : match bef st with x :: _ => isWordChar x | [] => false end = false).
    { destruct (bef st) as [|x b] eqn:E; [reflexivity|].
      apply negb_true_iff, Hu, Hst. left. reflexivity. }
    assert (Ha : match aft st with x :: _ => isWordChar x | [] => false end = false).
    { destruct (aft st) as [|x a] eqn:E; [reflexivity|].
      apply negb_true_iff, Hu, Hst. apply in_or_app. right. left. reflexivity. }
    rewrite Hb, Ha. reflexivity.
  - destruct neg; [discriminate Hu|].
    rewrite IH1 by assumption. reflexivity.
Qed.

Variable re : regexp.
Hypothesis never : unmatchableRe letters re = true.

Lemma matchAt_unmatchable (b a : list Z) :
  incl (b ++ a) letters -> matchAt re b a = None.
Proof.
  intros H. unfold matchAt. apply unmatchable_none; [exact never | exact H].
Qed.

Lemma incl_step (b a : list Z) (c : Z) :
  incl (b ++ c :: a) letters -> incl ((c :: b) ++ a) letters.
Proof.
  intros H x Hx. apply H. cbn [app] in Hx. apply in_or_app.
  destruct Hx as [<-|Hx]; [right; left; reflexivity|].
  apply in_app_or in Hx. destruct Hx as [Hx|Hx]; [left | right; right]; exact Hx.
Qed.

Lemma replaceGo_unmatchable (fn : minfo -> jsstring) :
  forall a b, incl (b ++ a) letters -> replaceGo re fn 0 b a = a.
Proof.
  induction a as [|c a IH]; intros b H; cbn [replaceGo];
    rewrite (matchAt_unmatchable _ _ H); [reflexivity|].
  rewrite (IH (c :: b) (incl_step _ _ _ H)). reflexivity.
Qed.

Lemma search_unmatchable :
  forall a b, incl (b ++ a) letters -> search re b a = None.
Proof.
  induction a as [|c a IH]; intros b H; cbn [search];
    rewrite (matchAt_unmatchable _ _ H); [reflexivity|].
  apply (IH (c :: b) (incl_step _ _ _ H)).
Qed.

Lemma scan_unmatchable :
  forall a b, incl (b ++ a) letters -> scan re 0 b a = [].
Proof.
  induction a as [|c a IH]; intros b H; cbn [scan];
    rewrite (matchAt_unmatchable _ _ H); [reflexivity|].
  apply (IH (c :: b) (incl_step _ _ _ H)).
Qed.

End Unmatchable.

Lemma onlyOf_incl (letters text : jsstring) :
  onlyOf letters text = true -> incl text letters.
Proof.
  unfold onlyOf. rewrite forallb_forall. intros H x Hx.
  apply H in Hx. apply existsb_exists in Hx. destruct Hx as [y [Hy E]].
  apply Z.eqb_eq in E. subst y. exact Hy.
Qed.

(** A pattern that passes the test replaces nothing and finds nothing in a
    text made of the letters. *)
Lemma replaceFn_onlyOf (letters text : jsstring) (Ht : onlyOf letters text = true)
    (re : regexp) (fn : minfo -> jsstring) :
  unmatchableRe letters re = true -> replaceFn re fn text = text.
Proof.
  intros Hre. apply onlyOf_incl in Ht. unfold replaceFn.
  destruct (global (re_flags re)).
  - apply (replaceGo_unmatchable letters re Hre). exact Ht.
  - rewrite (search_unmatchable letters re Hre); [reflexivity | exact Ht].
Qed.

Lemma replace_onlyOf (letters text : jsstring) (Ht : onlyOf letters text = true)
    (re : regexp) (tmpl : jsstring) :
  unmatchableRe letters re = true -> replace re tmpl text = text.
Proof. apply replaceFn_onlyOf. exact Ht. Qed.

Lemma matchAll_onlyOf (letters text : jsstring) (Ht : onlyOf letters text = true)
    (re : regexp) :
  unmatchableRe letters re = true -> matchAll re text = [].
Proof.
  intros Hre. apply onlyOf_incl in Ht. unfold matchAll.
  rewrite (scan_unmatchable letters re Hre); [reflexivity | exact Ht].
Qed.

(** A scan of the quote rule that meets no marker copies its input. *)
Lemma quoteScan_no_marker (chars : list jsstring) :
  (forall i, eqs (nth i chars []) [QUOT] = false) ->
  forall n, (n <= length chars)%nat -> quoteScan chars n = (0, firstn n chars).
Proof.
  intros Hno. induction n as [|n IH]; intros Hn.
  - reflexivity.
  - rewrite quoteScan_S, IH by lia.
    rewrite quoteStep_other by apply Hno.
    rewrite (@firstn_succ_nth jsstring [] chars n) by lia. reflexivity.
Qed.

Section LowerCyrillic.

Variables (text : jsstring) (ctx : RuleContext).
Hypothesis plain : onlyOf LOWER_CYRILLIC text = true.

Local Ltac unreactive :=
  cbv beta zeta;
  repeat first
    [ rewrite (replace_onlyOf LOWER_CYRILLIC text plain) by (vm_compute; reflexivity)
    | rewrite (replaceFn_onlyOf LOWER_CYRILLIC text plain) by (vm_compute; reflexivity) ];
  reflexivity.

Lemma ruFixCase_unreactive : Rule.apply ruFixCase text ctx = text.
Proof.
  cbn [Rule.apply ruFixCase]. cbv zeta.
  rewrite (matchAll_onlyOf LOWER_CYRILLIC text plain (RegExp (js "[А-ЯЁA-Z]") "g"))
    by (vm_compute; reflexivity).
  destruct (length (matchAll _ text) <? 20)%nat eqn:E; [reflexivity|].
  apply Nat.ltb_ge in E. unfold ratioLt. cbn [length].
  destruct (Z.ltb_spec (Z.of_nat 0 * 10) (7 * Z.of_nat (length (matchAll
             (RegExp (js "[а-яА-ЯёЁa-zA-Z]") "g") text)))); [reflexivity | lia].
Qed.

Lemma ruYo_unreactive : Rule.apply ruYo text ctx = text.
Proof.
  cbn [Rule.apply ruYo]. apply fold_left_fixed. intros [from to] Hin.
  assert (Hall :
    forallb
      (fun entry =>
         unmatchableRe LOWER_CYRILLIC
           (RegExp (js "(?<!" ++ CYR_LETTER ++ js ")" ++ fst entry
                    ++ js "(?!" ++ CYR_LETTER ++ js ")") "g")
         && unmatchableRe LOWER_CYRILLIC
              (RegExp (js "(?<!" ++ CYR_LETTER ++ js ")"
                       ++ (toUpperCase (firstn 1 (fst entry)) ++ slice (fst entry) 1)
                       ++ js "(?!" ++ CYR_LETTER ++ js ")") "g"))
      effectiveEntries = true) by (vm_compute; reflexivity).
  rewrite forallb_forall in Hall. specialize (Hall _ Hin). cbn [fst] in Hall.
  apply andb_prop in Hall. destruct Hall as [H1 H2].
  unfold yoEntry. cbv zeta.
  rewrite (replace_onlyOf LOWER_CYRILLIC text plain _ _ H1).
  destruct (negb (eqs _ _)); [|reflexivity].
  apply (replace_onlyOf LOWER_CYRILLIC text plain _ _ H2).
Qed.

Lemma ruQuotes_unreactive : Rule.apply ruQuotes text ctx = text.
Proof.
  cbn [Rule.apply ruQuotes]. cbv zeta. unfold normalizeQuotes.
  rewrite (replace_onlyOf LOWER_CYRILLIC text plain) by (vm_compute; reflexivity).
  rewrite quoteScan_no_marker, firstn_all; [| |lia].
  - cbn [snd]. rewrite join_nil_concat. apply (proj1 (spread_elements text)).
  - intros i. apply eqs_neq. intros E.
    destruct (Nat.lt_ge_cases i (length (spread text))) as [Hlt|Hge].
    + pose proof (nth_In (spread text) [] Hlt) as Hin. rewrite E in Hin.
      apply spread_unit, (onlyOf_incl _ _ plain) in Hin.
      assert (Hq : existsb (Z.eqb QUOT) LOWER_CYRILLIC = false) by (vm_compute; reflexivity).
      apply not_true_iff_false in Hq. apply Hq. apply existsb_exists.
      exists QUOT. split; [exact Hin | apply Z.eqb_refl].
    + rewrite nth_overflow in E by lia. discriminate E.
Qed.

Lemma frLigatures_unreactive : Rule.apply frLigatures text ctx = text.
Proof.
  cbn [Rule.apply frLigatures]. apply fold_left_fixed. intros [from to] Hin.
  assert (Hall :
    forallb
      (fun entry =>
         unmatchableRe LOWER_CYRILLIC (RegExp (js "\b" ++ fst entry ++ js "\b") "g"))
      LIGATURE_WORDS = true) by (vm_compute; reflexivity).
  rewrite forallb_forall in Hall. specialize (Hall _ Hin). cbn [fst] in Hall.
  apply (replace_onlyOf LOWER_CYRILLIC text plain _ _ Hall).
Qed.

Lemma zhFullwidthPunctuation_unreactive :
  Rule.apply zhFullwidthPunctuation text ctx = text.
Proof.
  cbn [Rule.apply zhFullwidthPunctuation]. apply fold_left_fixed. intros [half full] Hin.
  assert (Hall :
    forallb
      (fun entry =>
         unmatchableRe LOWER_CYRILLIC
           (RegExp (js "(" ++ CJK_REGEX ++ js ")" ++ escapeRegExp (fst entry)) "g")
         && unmatchableRe LOWER_CYRILLIC
              (RegExp (escapeRegExp (fst entry) ++ js "(" ++ CJK_REGEX ++ js ")") "g"))
      ZH_PUNCTUATION = true) by (vm_compute; reflexivity).
  rewrite forallb_forall in Hall. specialize (Hall _ Hin). cbn [fst] in Hall.
  apply andb_prop in Hall. destruct Hall as [H1 H2].
  cbv zeta. rewrite (replace_onlyOf LOWER_CYRILLIC text plain _ _ H1).
  destruct (eqs half (js "(")); [|reflexivity].
  apply (replace_onlyOf LOWER_CYRILLIC text plain _ _ H2).
Qed.

Lemma jaKinsoku_unreactive : Rule.apply jaKinsoku text ctx = text.
Proof.
  cbn [Rule.apply jaKinsoku]. apply fold_left_fixed. intros ch Hin.
  assert (Hall :
    forallb
      (fun ch =>
         unmatchableRe LOWER_CYRILLIC
           (RegExp (js " (" ++ escapeRegExp ch ++ js ")") "g"))
      (spread noStart) = true) by (vm_compute; reflexivity).
  rewrite forallb_forall in Hall. specialize (Hall _ Hin).
  cbv zeta. apply (replace_onlyOf LOWER_CYRILLIC text plain _ _ Hall).
Qed.

(** No registered rule changes the text. *)
Lemma rules_unreactive (r : TypographyRule) :
  In r ALL_RULES -> Rule.apply r text ctx = text.
Proof.
  unfold ALL_RULES, commonRules, ruRules, enRules, frRules, zhRules, jaRules.
  cbn [app In]. intros H.
  repeat (destruct H as [<-|H];
          [first [ apply ruFixCase_unreactive | apply ruYo_unreactive
                 | apply ruQuotes_unreactive | apply frLigatures_unreactive
                 | apply zhFullwidthPunctuation_unreactive | apply jaKinsoku_unreactive
                 | match goal with
                   | |- Rule.apply ?rule _ _ = _ => unfold rule; cbn [Rule.apply]; unreactive
                   end ]|]).
  destruct H.
Qed.

End LowerCyrillic.

Lemma applyTypography_unreactive (text : jsstring) (settings : TypographySettings) :
  onlyOf LOWER_CYRILLIC text = true -> applyTypography text settings = text.
Proof.
  intros plain. unfold applyTypography.
  destruct (isBlank text); [reflexivity|].
  cbv zeta. apply fold_left_fixed. intros r Hr.
  unfold applyRule. destruct (negb (isEnabled settings r)); [reflexivity|].
  apply rules_unreactive; [exact plain|].
  exact (getRulesForLocale_registered _ r Hr).
Qed.


